(** * uftrace symbol tables (utils/symbol.c)

    A shallow embedding of the symbol management routines of uftrace:
    the ELF static and PLT loaders, the textual [.sym] cache reader and
    writer, the kernel table and the two address lookups, together with
    the properties of the specification that were checked against them.

    Conventions.
    - [unsigned long] is a [Z] reduced with [wrap64], [unsigned] with
      [wrap32]; [char] is an [ascii]; a C string is a [string]: the
      terminating NUL is not part of it, and no NUL byte lies inside.
      The line buffer of the cache readers, which may hold NUL bytes,
      is a [string] too; its C string is [Libc.cstr].
    - A growable array [sym[0 .. nr_sym)] is a [list] and [nr_sym] is
      its length.  The capacity [nr_alloc] (SYMTAB_GROW steps) is not
      modelled; [__unload_symtab] leaves it as it is, so what is said
      of a load is said of a table that was not unloaded before.
    - A pointer [&tab->sym[k]] is the index [k] ([SymPtr k]).
    - libc ([qsort], [bsearch], [strtoul], [strchr], [getline], [fopen])
      and libelf are outside the repository; they are modelled by their
      documented behaviour in the modules [Libc] and [Elf]. *)

From Stdlib Require Import ZArith List String Ascii Bool Lia Sorted Permutation PeanoNat.
Import ListNotations.
Local Open Scope Z_scope.

(** ** Machine integers *)

Definition wrap64 (z : Z) : Z := z mod 2 ^ 64.
Definition wrap32 (z : Z) : Z := z mod 2 ^ 32.
Definition ULONG_MAX : Z := 2 ^ 64 - 1.

(** ** libc *)

Module Libc.

(** [qsort(base, n, size, compar)]: the array is rearranged into
    ascending order of [compar].  The C standard leaves the order of
    equal elements open; this model inserts from the right and so keeps
    them in their input order. *)
Section Sorting.
Context {A : Type}.
Variable compar : A -> A -> Z.

Fixpoint insert_sorted (x : A) (l : list A) : list A :=
  match l with
  | [] => [x]
  | y :: l' => if 0 <? compar x y then y :: insert_sorted x l' else x :: l
  end.

Definition qsort (base : list A) : list A :=
  fold_right insert_sorted [] base.
End Sorting.

(** [bsearch(key, base, n, size, compar)]: glibc's loop
    [l = 0; u = n; while (l < u) { idx = (l + u) / 2; ... }].
    The fuel bounds the number of probes; [u - l] probes always suffice. *)
Section Searching.
Context {K A : Type}.
Variable compar : K -> A -> Z.

Fixpoint bsearch_loop (fuel : nat) (key : K) (base : list A) (l u : nat)
  : option nat :=
  match fuel with
  | O => None
  | S fuel' =>
      if (l <? u)%nat then
        let idx := ((l + u) / 2)%nat in
        match nth_error base idx with
        | None => None
        | Some p =>
            let c := compar key p in
            if c <? 0 then bsearch_loop fuel' key base l idx
            else if 0 <? c then bsearch_loop fuel' key base (idx + 1)%nat u
            else Some idx
        end
      else None
  end.

Definition bsearch (key : K) (base : list A) : option nat :=
  bsearch_loop (List.length base) key base 0%nat (List.length base).
End Searching.

(** The terminator of a C string. *)
Definition NUL : ascii := "000"%char.

(** [strchr(s, c)] as the suffix that starts at the first [c].  The
    terminator belongs to the string: [strchr(s, 0)] is the pointer to
    it, the empty suffix. *)
Fixpoint strchr (s : string) (c : ascii) : option string :=
  match s with
  | EmptyString => if Ascii.eqb c NUL then Some s else None
  | String a s' => if Ascii.eqb a c then Some s else strchr s' c
  end.

(** The effect of [p = strchr(s, c); if (p) *p = '\0';] on [s]. *)
Fixpoint cut_at (c : ascii) (s : string) : string :=
  match s with
  | EmptyString => EmptyString
  | String a s' => if Ascii.eqb a c then EmptyString else String a (cut_at c s')
  end.

(** A buffer that [getline] has filled may hold NUL bytes: the C string
    in it ends in front of the first one. *)
Definition cstr (buf : string) : string := cut_at NUL buf.

(** The bytes of a buffer behind its first [c]; [None] without any. *)
Fixpoint behind (c : ascii) (buf : string) : option string :=
  match buf with
  | EmptyString => None
  | String a s' => if Ascii.eqb a c then Some s' else behind c s'
  end.

(** [strncmp(s, lit, n) == 0] for a literal [lit] of exactly [n]
    characters: [s] starts with [lit]. *)
Definition starts_with (lit s : string) : bool := String.prefix lit s.

(** [s + n] for a string known to have at least [n] characters. *)
Fixpoint drop (n : nat) (s : string) : string :=
  match n, s with
  | O, _ => s
  | S n', String _ s' => drop n' s'
  | S _, EmptyString => EmptyString
  end.

(** The first [n] characters of [s], what [strncpy(dst, s, n)] copies
    from a string of at least [n] characters. *)
Fixpoint take (n : nat) (s : string) : string :=
  match n, s with
  | S n', String c s' => String c (take n' s')
  | _, _ => EmptyString
  end.

(** [strcmp] as a sign; characters compare as unsigned bytes. *)
Fixpoint strcmp (a b : string) : Z :=
  match a, b with
  | EmptyString, EmptyString => 0
  | EmptyString, String _ _ => -1
  | String _ _, EmptyString => 1
  | String x a', String y b' =>
      if (nat_of_ascii x <? nat_of_ascii y)%nat then -1
      else if (nat_of_ascii y <? nat_of_ascii x)%nat then 1
      else strcmp a' b'
  end.

Definition isspace (c : ascii) : bool :=
  let n := nat_of_ascii c in ((n =? 32) || ((9 <=? n) && (n <=? 13)))%nat.

(** Value of a hexadecimal digit. *)
Definition hexval (c : ascii) : option Z :=
  let n := Z.of_nat (nat_of_ascii c) in
  if (48 <=? n) && (n <=? 57) then Some (n - 48)
  else if (97 <=? n) && (n <=? 102) then Some (n - 87)
  else if (65 <=? n) && (n <=? 70) then Some (n - 55)
  else None.

Fixpoint skip_spaces (s : string) : string :=
  match s with
  | String c s' => if isspace c then skip_spaces s' else s
  | EmptyString => s
  end.

(** The digit loop of [strtoul]: value so far, overflow seen, rest. *)
Fixpoint strtoul_digits (acc : Z) (ovf : bool) (s : string) : Z * bool * string :=
  match s with
  | EmptyString => (acc, ovf, s)
  | String c s' =>
      match hexval c with
      | None => (acc, ovf, s)
      | Some d =>
          let acc' := acc * 16 + d in
          if ULONG_MAX <? acc' then strtoul_digits acc true s'
          else strtoul_digits acc' ovf s'
      end
  end.

Definition is_hexdigit_head (s : string) : bool :=
  match s with
  | String c _ => match hexval c with Some _ => true | None => false end
  | EmptyString => false
  end.

(** The optional sign and the optional [0x] in front of the digits. *)
Definition strip_sign (s : string) : bool * string :=
  match s with
  | String c r =>
      if Ascii.eqb c "-" then (true, r)
      else if Ascii.eqb c "+" then (false, r)
      else (false, s)
  | EmptyString => (false, s)
  end.

Definition strip_0x (s : string) : string :=
  match s with
  | String c (String x r) =>
      if Ascii.eqb c "0" && (Ascii.eqb x "x" || Ascii.eqb x "X") && is_hexdigit_head r
      then r else s
  | _ => s
  end.

(** [strtoul(nptr, &endptr, 16)]: leading white space, an optional sign,
    an optional [0x], then digits.  Without any digit the value is 0 and
    [endptr = nptr]; on overflow the value is [ULONG_MAX]; a minus sign
    negates modulo 2^64. *)
Definition strtoul16 (nptr : string) : Z * string :=
  let '(neg, s2) := strip_sign (skip_spaces nptr) in
  let s3 := strip_0x s2 in
  if is_hexdigit_head s3 then
    let '(v, ovf, rest) := strtoul_digits 0 false s3 in
    ((if ovf then ULONG_MAX else if neg then wrap64 (- v) else v), rest)
  else (0, nptr).

(** [getline] called until it fails: the stream cut after each newline;
    a last line without newline is delivered too. *)
Fixpoint getlines (stream : string) : list string :=
  match stream with
  | EmptyString => []
  | String c s' =>
      if Ascii.eqb c "010" then String c EmptyString :: getlines s'
      else match getlines s' with
           | [] => [String c EmptyString]
           | l :: ls => String c l :: ls
           end
  end.

(** [printf("%016lx", v)] for [0 <= v < 2^64]. *)
Definition hexchar (d : Z) : ascii :=
  if d <? 10 then ascii_of_nat (Z.to_nat (48 + d)) else ascii_of_nat (Z.to_nat (87 + d)).

Fixpoint hex_digits (n : nat) (v : Z) (acc : string) : string :=
  match n with
  | O => acc
  | S n' => hex_digits n' (v / 16) (String (hexchar (v mod 16)) acc)
  end.

Definition fmt_016lx (v : Z) : string := hex_digits 16 v EmptyString.

(** [basename(path)] (GNU version): what follows the last slash. *)
Fixpoint basename (path : string) : string :=
  match path with
  | EmptyString => EmptyString
  | String c s' =>
      match strchr s' "/" with
      | Some _ => basename s'
      | None => if Ascii.eqb c "/" then s' else path
      end
  end.

(** [strrchr(s, c)] as the suffix that starts at the last [c]. *)
Fixpoint strrchr (s : string) (c : ascii) : option string :=
  match s with
  | EmptyString => None
  | String a s' =>
      match strrchr s' c with
      | Some r => Some r
      | None => if Ascii.eqb a c then Some s else None
      end
  end.

(** [strncmp(a, b, n)] as a sign. *)
Fixpoint strncmp (a b : string) (n : nat) {struct n} : Z :=
  match n with
  | O => 0
  | S n' =>
      match a, b with
      | EmptyString, EmptyString => 0
      | EmptyString, String _ _ => -1
      | String _ _, EmptyString => 1
      | String x a', String y b' =>
          if (nat_of_ascii x <? nat_of_ascii y)%nat then -1
          else if (nat_of_ascii y <? nat_of_ascii x)%nat then 1
          else strncmp a' b' n'
      end
  end.

(** [tolower] in the C locale, and [strcasecmp] as a sign. *)
Definition tolower (c : ascii) : ascii :=
  let n := nat_of_ascii c in
  if ((65 <=? n) && (n <=? 90))%nat then ascii_of_nat (n + 32) else c.

Fixpoint strcasecmp (a b : string) : Z :=
  match a, b with
  | EmptyString, EmptyString => 0
  | EmptyString, String _ _ => -1
  | String _ _, EmptyString => 1
  | String x a', String y b' =>
      let x' := nat_of_ascii (tolower x) in
      let y' := nat_of_ascii (tolower y) in
      if (x' <? y')%nat then -1
      else if (y' <? x')%nat then 1
      else strcasecmp a' b'
  end.

(** [printf("%lx", v)] for [0 <= v < 2^64]: the sixteen digits without
    their leading zeros, one digit at least. *)
Fixpoint strip_zeros (s : string) : string :=
  match s with
  | String c (String _ _ as s') => if Ascii.eqb c "0" then strip_zeros s' else s
  | _ => s
  end.

Definition fmt_lx (v : Z) : string := strip_zeros (fmt_016lx v).

(** [bsearch] over an array of pointers: the comparator reads through
    the element and faults on one that points nowhere, and a probe at or
    beyond the end of the array is a fault too (outer [None]). *)
Section SearchingThrough.
Context {K A : Type}.
Variable compar : K -> A -> option Z.

Fixpoint bsearch_through_loop (fuel : nat) (key : K) (base : list A) (l u : nat)
  : option (option nat) :=
  match fuel with
  | O => Some None
  | S fuel' =>
      if (l <? u)%nat then
        let idx := ((l + u) / 2)%nat in
        match nth_error base idx with
        | None => None
        | Some p =>
            match compar key p with
            | None => None
            | Some c =>
                if c <? 0 then bsearch_through_loop fuel' key base l idx
                else if 0 <? c then bsearch_through_loop fuel' key base (idx + 1)%nat u
                else Some (Some idx)
            end
        end
      else Some None
  end.

Definition bsearch_through (key : K) (base : list A) (nmemb : nat)
  : option (option nat) :=
  bsearch_through_loop nmemb key base 0%nat nmemb.
End SearchingThrough.

End Libc.

(** ** libelf

    The image as the loaders see it through libelf: each call that can
    fail carries its failure, names are already resolved through
    [elf_strptr], and a section with entries gives their number
    ([sh_size / sh_entsize], for an entry size other than 0) and the
    entries [gelf_getsym] / [gelf_getrel] deliver, [None] where the
    call returns NULL. *)

Module Elf.

Definition PT_LOAD : Z := 1.
Definition STT_FUNC : Z := 2.
Definition STB_LOCAL : Z := 0.
Definition STB_GLOBAL : Z := 1.
Definition STB_WEAK : Z := 2.
Definition SHT_NULL : Z := 0.
Definition SHT_RELA : Z := 4.
Definition SHT_REL : Z := 9.

Definition GELF_ST_TYPE (info : Z) : Z := Z.land info 15.
Definition GELF_ST_BIND (info : Z) : Z := Z.shiftr (Z.land info 255) 4.
Definition GELF_R_SYM (info : Z) : Z := Z.shiftr info 32.

Record Phdr := mk_Phdr { p_type : Z; p_vaddr : Z }.

Record Sym := mk_Sym {
  st_name : string;
  st_value : Z;
  st_size : Z;
  st_info : Z
}.

Record Shdr := mk_Shdr {
  sh_name : string;
  sh_addr : Z;
  sh_entsize : Z;
  sh_nr : nat;                     (* sh_size / sh_entsize *)
  sh_data : bool;                  (* elf_getdata succeeds *)
  sh_syms : list (option Sym);     (* gelf_getsym by index *)
  sh_rels : list (option Z)        (* r_info of gelf_getrel / gelf_getrela *)
}.

Record image := mk_image {
  e_phdrnum : option nat;          (* elf_getphdrnum *)
  e_phdr : list (option Phdr);     (* gelf_getphdr by index *)
  e_shstrndx : option nat;         (* elf_getshdrstrndx *)
  e_scn : list (option Shdr)       (* elf_nextscn order; None: gelf_getshdr fails *)
}.

Definition flatten {A} (o : option (option A)) : option A :=
  match o with Some (Some a) => Some a | _ => None end.

Definition gelf_getphdr (elf : image) (i : nat) : option Phdr :=
  flatten (nth_error (e_phdr elf) i).
Definition gelf_getsym (sec : Shdr) (i : nat) : option Sym :=
  flatten (nth_error (sh_syms sec) i).
Definition gelf_getrel (sec : Shdr) (i : nat) : option Z :=
  flatten (nth_error (sh_rels sec) i).

End Elf.

(** ** Data model (utils/symbol.h) *)

(** Modelled from the spec: the type letters of [enum symtype]; the
    header that declares them is not part of the sources, the letters
    are those of [allowed_types] in the cache reader. *)
Definition ST_LOCAL : ascii := "t"%char.
Definition ST_GLOBAL : ascii := "T"%char.
Definition ST_WEAK : ascii := "w"%char.
Definition ST_PLT : ascii := "P"%char.
Definition ST_KERNEL : ascii := "K"%char.

(** Modelled from the spec: what the sources take from headers that are
    not among them: the three flag bits, the tag of an unclassified
    binding, the kernel-address predicate with its shift, and the
    demangler. *)
Record header := mk_header {
  SYMTAB_FL_DEMANGLE : Z;
  SYMTAB_FL_USE_SYMFILE : Z;
  SYMTAB_FL_ADJ_OFFSET : Z;
  ST_UNKNOWN : ascii;
  KADDR_SHIFT : Z;
  is_kernel_address : Z -> bool;
  demangle : string -> string
}.

(** [struct sym]. *)
Record sym := mk_sym {
  addr : Z;          (* unsigned long *)
  size : Z;          (* unsigned *)
  type : ascii;      (* enum symtype, printed with %c *)
  name : string
}.

(** An element of [sym_names]: a pointer into [sym], or (inside
    [sort_dynsymtab]) an address stored in the pointer's place. *)
Inductive names_slot :=
| SymPtr (k : nat)
| SavedAddr (a : Z).

(** [struct symtab]; the array field [sym] is called [syms] here. *)
Record symtab := mk_symtab {
  syms : list sym;
  sym_names : list names_slot;
  name_sorted : bool
}.

Definition nr_sym (t : symtab) : nat := List.length (syms t).
Definition empty_symtab : symtab := mk_symtab [] [] false.

(** [struct ftrace_proc_maps], one node of the list. *)
Record ftrace_proc_maps := mk_map {
  libname : string;
  start : Z;
  end_ : Z;
  map_symtab : symtab
}.

(** [struct symtabs]; the field [symtab] is called [stab] here. *)
Record symtabs := mk_symtabs {
  loaded : bool;
  dirname : option string;
  stab : symtab;
  dsymtab : symtab;
  flags : Z;
  maps : list ftrace_proc_maps
}.

Definition empty_symtabs : symtabs :=
  mk_symtabs false None empty_symtab empty_symtab 0 [].

(** Files as the routines meet them: the text of a readable file, the
    ELF image behind a path ([None]: [open] fails, [Some None]:
    [elf_begin] fails), and the paths whose creation fails for a reason
    other than EEXIST. *)
Record fsys := mk_fsys {
  fs_text : string -> option string;
  fs_elf : string -> option (option Elf.image);
  fs_deny : string -> bool
}.

Definition fs_write (fs : fsys) (path content : string) : fsys :=
  mk_fsys (fun p => if String.eqb p path then Some content else fs_text fs p)
          (fs_elf fs) (fs_deny fs).

(** What a routine that may call [pr_err] does.
    Modelled from the spec: [pr_err] (utils/utils.h) reports and is fatal
    to the calling operation. *)
Inductive outcome (A : Type) :=
| Done (a : A)
| Fatal.
Arguments Done {A} a.
Arguments Fatal {A}.

Definition flag_set (fl bit : Z) : bool := negb (Z.land fl bit =? 0).

(** ** Comparators *)

Definition addrsort (a b : sym) : Z :=
  if addr b <? addr a then 1
  else if addr a <? addr b then -1
  else 0.

Definition addrfind (a : Z) (s : sym) : Z :=
  if (addr s <=? a) && (a <? wrap64 (addr s + size s)) then 0
  else if a <? addr s then -1
  else 1.

(** [namesort], on pointers into the table [tab]. *)
Definition namesort (tab : list sym) (a b : nat) : Z :=
  match nth_error tab a, nth_error tab b with
  | Some sa, Some sb => Libc.strcmp (name sa) (name sb)
  | _, _ => 0
  end.

Definition namefind (tab : list sym) (key : string) (p : names_slot) : Z :=
  match p with
  | SymPtr k =>
      match nth_error tab k with
      | Some s => Libc.strcmp key (name s)
      | None => 0
      end
  | SavedAddr _ => 0
  end.

(** [sym_names[i] = &sym[i]] for all [i], then [qsort] by name. *)
Definition build_sym_names (tab : list sym) : list names_slot :=
  map SymPtr (Libc.qsort (namesort tab) (seq 0 (List.length tab))).

(** ** The ELF loaders *)

Section Loaders.
Variable hdr : header.

(** The loop over the program headers under SYMTAB_FL_ADJ_OFFSET:
    [None] when [gelf_getphdr] fails, else the offset, lowered by the
    [p_vaddr] of the first PT_LOAD segment. *)
Fixpoint phdr_scan (elf : Elf.image) (idxs : list nat) (offset : Z) : option Z :=
  match idxs with
  | [] => Some offset
  | i :: rest =>
      match Elf.gelf_getphdr elf i with
      | None => None
      | Some ph =>
          if Elf.p_type ph =? Elf.PT_LOAD
          then Some (wrap64 (offset - Elf.p_vaddr ph))
          else phdr_scan elf rest offset
      end
  end.

Definition adjust_offset (elf : Elf.image) (offset fl : Z) : option Z :=
  if flag_set fl (SYMTAB_FL_ADJ_OFFSET hdr) then
    match Elf.e_phdrnum elf with
    | None => None
    | Some nr_phdr => phdr_scan elf (seq 0 nr_phdr) offset
    end
  else Some offset.

(** The section loop of [load_symtab]: stops at [.symtab], remembers the
    last [.dynsym] seen before it.  [None]: [gelf_getshdr] failed. *)
Fixpoint scan_symtab (scns : list (option Elf.Shdr)) (dynsym_sec : option Elf.Shdr)
  : option (option Elf.Shdr * option Elf.Shdr) :=
  match scns with
  | [] => Some (None, dynsym_sec)
  | None :: _ => None
  | Some shdr :: rest =>
      if String.eqb (Elf.sh_name shdr) ".symtab" then Some (Some shdr, dynsym_sec)
      else if String.eqb (Elf.sh_name shdr) ".dynsym" then scan_symtab rest (Some shdr)
      else scan_symtab rest dynsym_sec
  end.

Definition bind_type (info : Z) : ascii :=
  let b := Elf.GELF_ST_BIND info in
  if b =? Elf.STB_LOCAL then ST_LOCAL
  else if b =? Elf.STB_GLOBAL then ST_GLOBAL
  else if b =? Elf.STB_WEAK then ST_WEAK
  else ST_UNKNOWN hdr.

(** The name stored for an entry: cut at the version mark [@], then
    demangled when asked for.  (Under SYMTAB_FL_DEMANGLE the source cuts
    a second time with a length measured between the two buffers; the
    copy is taken to hold the whole cut name.) *)
Definition stored_name (fl : Z) (raw : string) : string :=
  let n := Libc.cut_at "@" raw in
  if flag_set fl (SYMTAB_FL_DEMANGLE hdr) then demangle hdr n else n.

(** The entry loop of [load_symtab].  The boolean is false when
    [gelf_getsym] failed (the jump to [elf_error]); the entries taken
    before stay in the table. *)
Fixpoint load_entries (sec : Elf.Shdr) (idxs : list nat) (offset fl : Z)
    (tab : list sym) : bool * list sym :=
  match idxs with
  | [] => (true, tab)
  | i :: rest =>
      match Elf.gelf_getsym sec i with
      | None => (false, tab)
      | Some es =>
          if Elf.st_size es =? 0 then load_entries sec rest offset fl tab
          else if negb (Elf.GELF_ST_TYPE (Elf.st_info es) =? Elf.STT_FUNC)
          then load_entries sec rest offset fl tab
          else
            let s := mk_sym (wrap64 (Elf.st_value es + offset))
                            (wrap32 (Elf.st_size es))
                            (bind_type (Elf.st_info es))
                            (stored_name fl (Elf.st_name es)) in
            load_entries sec rest offset fl (tab ++ [s])
      end
  end.

(** [memmove] of [cnt] entries from index [src] to index [dst]. *)
Definition memmove_sym (arr : list sym) (dst src cnt : nat) : list sym :=
  firstn dst arr ++ firstn cnt (skipn src arr) ++ skipn (dst + cnt) arr.

(** The [while (curr->addr == next->addr)] loop at position [i]; [n] is
    [nr_sym].  Each round lowers [n], so [n] rounds of fuel are enough. *)
Fixpoint dedup_while (fuel i : nat) (arr : list sym) (n : nat) : list sym * nat :=
  match fuel with
  | O => (arr, n)
  | S fuel' =>
      match nth_error arr i, nth_error arr (i + 1) with
      | Some curr, Some next =>
          if addr curr =? addr next then
            let arr' := memmove_sym arr (i + 1) (i + 2) (n - i - 2) in
            let n' := (n - 1)%nat in
            if (n' <=? i + 2)%nat then (arr', n')
            else dedup_while fuel' i arr' n'
          else (arr, n)
      | _, _ => (arr, n)
      end
  end.

(** The [for (i = 0; i < nr_sym - 1; i++)] loop around it. *)
Fixpoint dedup_for (fuel i : nat) (arr : list sym) (n : nat) : list sym * nat :=
  match fuel with
  | O => (arr, n)
  | S fuel' =>
      if (i <? n - 1)%nat then
        let '(arr', n') := dedup_while n i arr n in
        dedup_for fuel' (i + 1)%nat arr' n'
      else (arr, n)
  end.

(** "remove duplicated (overlapped?) symbols": the live part of the
    array after the two loops. *)
Definition remove_duplicates (tab : list sym) : list sym :=
  let '(arr, n) := dedup_for (List.length tab) 0%nat tab (List.length tab) in
  firstn n arr.

(** What follows the entry loop on a non-empty table. *)
Definition finish_symtab (tab : list sym) : symtab :=
  let sorted := remove_duplicates (Libc.qsort addrsort tab) in
  mk_symtab sorted (build_sym_names sorted) true.

(** [load_symtab]: the return value and the table left behind. *)
Definition load_symtab (symtab0 : symtab) (file : option (option Elf.image))
    (offset fl : Z) : Z * symtab :=
  match file with
  | None => (-1, symtab0)
  | Some None => (-1, symtab0)
  | Some (Some elf) =>
      match adjust_offset elf offset fl with
      | None => (-1, symtab0)
      | Some offset' =>
          match Elf.e_shstrndx elf with
          | None => (-1, symtab0)
          | Some _ =>
              match scan_symtab (Elf.e_scn elf) None with
              | None => (-1, symtab0)
              | Some (sym_sec, dynsym_sec) =>
                  match (match sym_sec with Some s => Some s | None => dynsym_sec end) with
                  | None => (-1, symtab0)
                  | Some sec =>
                      if negb (Elf.sh_data sec) then (-1, symtab0)
                      else
                        let '(ok, tab) :=
                          load_entries sec (seq 0 (Elf.sh_nr sec)) offset' fl (syms symtab0) in
                        if negb ok then
                          (-1, mk_symtab tab (sym_names symtab0) (name_sorted symtab0))
                        else if (List.length tab =? 0)%nat then
                          (-1, mk_symtab tab (sym_names symtab0) (name_sorted symtab0))
                        else (0, finish_symtab tab)
                  end
              end
          end
      end
  end.

(** ** The PLT loader *)

Fixpoint find_pos (a : Z) (tab : list sym) (k : nat) : option nat :=
  match tab with
  | [] => None
  | s :: rest => if addr s =? a then Some k else find_pos a rest (S k)
  end.

(** The inner [for (k ...)] loop of [sort_dynsymtab] for one slot: the
    first entry with the saved address; a slot without a match keeps the
    address. *)
Definition resolve_slot (sorted : list sym) (slot : names_slot) : names_slot :=
  match slot with
  | SavedAddr a =>
      match find_pos a sorted 0 with
      | Some k => SymPtr k
      | None => SavedAddr a
      end
  | SymPtr k => SymPtr k
  end.

Definition sort_dynsymtab (d : symtab) : symtab :=
  let saved := map (fun s => SavedAddr (addr s)) (syms d) in
  let sorted := Libc.qsort addrsort (syms d) in
  mk_symtab sorted (map (resolve_slot sorted) saved) false.

(** What the section loop of [load_dynsymtab] collects. *)
Record plt_scan := mk_plt_scan {
  ps_dynsym : option Elf.Shdr;
  ps_relplt : option Elf.Shdr;
  ps_nr_rels : nat;
  ps_rel_type : Z;
  ps_plt_addr : Z;
  ps_plt_entsize : Z
}.

Fixpoint scan_plt (scns : list (option Elf.Shdr)) (st : plt_scan) : option plt_scan :=
  match scns with
  | [] => Some st
  | None :: _ => None
  | Some shdr :: rest =>
      let nm := Elf.sh_name shdr in
      if String.eqb nm ".dynsym" then
        scan_plt rest (mk_plt_scan (Some shdr) (ps_relplt st) (ps_nr_rels st)
                         (ps_rel_type st) (ps_plt_addr st) (ps_plt_entsize st))
      else if String.eqb nm ".rela.plt" then
        scan_plt rest (mk_plt_scan (ps_dynsym st) (Some shdr) (Elf.sh_nr shdr)
                         Elf.SHT_RELA (ps_plt_addr st) (ps_plt_entsize st))
      else if String.eqb nm ".rel.plt" then
        scan_plt rest (mk_plt_scan (ps_dynsym st) (Some shdr) (Elf.sh_nr shdr)
                         Elf.SHT_REL (ps_plt_addr st) (ps_plt_entsize st))
      else if String.eqb nm ".plt" then
        scan_plt rest (mk_plt_scan (ps_dynsym st) (ps_relplt st) (ps_nr_rels st)
                         (ps_rel_type st) (Elf.sh_addr shdr) (Elf.sh_entsize shdr))
      else scan_plt rest st
  end.

(** The entry a relocation at slot [idx] produces from its symbol. *)
Definition plt_entry (st : plt_scan) (offset fl : Z) (idx : nat) (esym : Elf.Sym) : sym :=
  let a0 := if Elf.st_value esym =? 0
            then wrap64 (ps_plt_addr st + (Z.of_nat idx + 1) * ps_plt_entsize st)
            else Elf.st_value esym in
  let a1 := if flag_set fl (SYMTAB_FL_ADJ_OFFSET hdr) then wrap64 (a0 + offset) else a0 in
  let nm := if flag_set fl (SYMTAB_FL_DEMANGLE hdr)
            then demangle hdr (Elf.st_name esym) else Elf.st_name esym in
  mk_sym (if negb (Elf.GELF_ST_TYPE (Elf.st_info esym) =? Elf.STT_FUNC) then 0 else a1)
         (wrap32 (ps_plt_entsize st)) ST_PLT nm.

(** The relocation loop.  Outer [None]: the unchecked [gelf_getsym] on
    the dynamic symbols failed and the entry is built from an
    uninitialised [esym]; inner [None]: the jump to [elf_error]. *)
Fixpoint load_rels (st : plt_scan) (relplt dynsym : Elf.Shdr) (idxs : list nat)
    (offset fl : Z) (tab : list sym) : option (option (list sym)) :=
  match idxs with
  | [] => Some (Some tab)
  | idx :: rest =>
      match Elf.gelf_getrel relplt idx with
      | None => Some None
      | Some r_info =>
          match Elf.gelf_getsym dynsym (Z.to_nat (Elf.GELF_R_SYM r_info)) with
          | None => None
          | Some esym =>
              load_rels st relplt dynsym rest offset fl
                        (tab ++ [plt_entry st offset fl idx esym])
          end
      end
  end.

(** [__unload_symtab]: the arrays are released, [name_sorted] stays. *)
Definition unload_symtab (t : symtab) : symtab :=
  mk_symtab [] [] (name_sorted t).

(** [load_dynsymtab]; [None] stands for the undefined case above. *)
Definition load_dynsymtab (dsymtab0 : symtab) (file : option (option Elf.image))
    (offset fl : Z) : option (Z * symtab) :=
  match file with
  | None => Some (-1, dsymtab0)
  | Some None => Some (-1, unload_symtab dsymtab0)
  | Some (Some elf) =>
      match adjust_offset elf offset fl with
      | None => Some (-1, unload_symtab dsymtab0)
      | Some offset' =>
          match Elf.e_shstrndx elf with
          | None => Some (-1, unload_symtab dsymtab0)
          | Some _ =>
              match scan_plt (Elf.e_scn elf)
                      (mk_plt_scan None None 0 Elf.SHT_NULL 0 1) with
              | None => Some (-1, unload_symtab dsymtab0)
              | Some st =>
                  match ps_dynsym st with
                  | None => Some (0, dsymtab0)
                  | Some dynsym =>
                      if ps_plt_addr st =? 0 then Some (0, dsymtab0)
                      else
                        match ps_relplt st with
                        | None => Some (-1, dsymtab0)
                        | Some relplt =>
                            if negb ((ps_rel_type st =? Elf.SHT_RELA)
                                     || (ps_rel_type st =? Elf.SHT_REL))
                            then Some (-1, dsymtab0)
                            else if negb (Elf.sh_data relplt) then Some (-1, unload_symtab dsymtab0)
                            else if negb (Elf.sh_data dynsym) then Some (-1, unload_symtab dsymtab0)
                            else
                              match load_rels st relplt dynsym (seq 0 (ps_nr_rels st))
                                      offset' fl (syms dsymtab0) with
                              | None => None
                              | Some None => Some (-1, unload_symtab dsymtab0)
                              | Some (Some tab) =>
                                  if (List.length tab =? 0)%nat
                                  then Some (-1, mk_symtab tab (sym_names dsymtab0)
                                                   (name_sorted dsymtab0))
                                  else Some (0, sort_dynsymtab
                                                  (mk_symtab tab (sym_names dsymtab0)
                                                     (name_sorted dsymtab0)))
                              end
                        end
                  end
              end
          end
      end
  end.

(** ** The cache file: reading *)

(** Which table the reader's [stab] pointer designates. *)
Inductive which_tab := InStab | InDsymtab.

(** The reader's variables: the two arrays, [stab], [prev_addr] and
    [prev_type]. *)
Record reader := mk_reader {
  rd_stab : list sym;
  rd_dsymtab : list sym;
  rd_cur : which_tab;
  rd_prev_addr : Z;
  rd_prev_type : ascii
}.

Definition cur_tab (r : reader) : list sym :=
  match rd_cur r with InStab => rd_stab r | InDsymtab => rd_dsymtab r end.

Definition set_tab (r : reader) (w : which_tab) (t : list sym)
    (pa : Z) (pt : ascii) : reader :=
  match w with
  | InStab => mk_reader t (rd_dsymtab r) w pa pt
  | InDsymtab => mk_reader (rd_stab r) t w pa pt
  end.

(** What lies in the line buffer behind the terminator of the line once
    [p = strchr(line, '\n'); if (p) *p = '\0';] is done: the bytes that
    [getline] delivered behind the newline made terminator, or behind
    the first NUL byte of a line that held one.  [None]: the terminator
    is the one [getline] wrote, and what follows it is no part of the
    line: what an earlier, longer line left there, or the end of the
    buffer. *)
Definition behind_line (line : string) : option string :=
  match Libc.strchr (Libc.cstr line) "010" with
  | Some _ => Libc.behind "010" line
  | None => Libc.behind Libc.NUL line
  end.

(** One line up to the name.  The newline is cut and the address read
    with [strtoul]; then [*pos++] must be a space, [type = *pos++] is
    taken whatever it is, [*pos++] must be a space again, and the name
    ends at the first tab.  Inner [None] is [continue].  When the line
    ends right behind the first space, [type] is the terminator and the
    byte tested next lies behind it: it is the first byte of
    [behind_line], or the NUL byte that [getline] wrote when
    [behind_line] is empty; outer [None]: [behind_line] has nothing,
    and the byte is none of the line. *)
Definition parse_line (line : string) : option (option (Z * ascii * string)) :=
  let '(a, pos) := Libc.strtoul16 (Libc.cut_at "010" (Libc.cstr line)) in
  match pos with
  | String " " (String t (String " " nm)) => Some (Some (a, t, Libc.cut_at "009" nm))
  | String " " EmptyString =>
      match behind_line line with
      | None => None
      | Some (String " " nm) =>
          Some (Some (a, Libc.NUL, Libc.cut_at "009" (Libc.cstr nm)))
      | Some _ => Some None
      end
  | _ => Some None
  end.

Definition allowed_types : string := "TtwPK".

(** "for kernel symbols, replace SyS_xxx to sys_xxx": the stored name
    after [strncpy(sym->name, name, 4)] when the three tests hold. *)
Definition sys_rename (stored dup : string) : string :=
  if Libc.starts_with "SyS_" stored && Libc.starts_with "sys_" dup
     && String.eqb (Libc.drop 4 stored) (Libc.drop 4 dup)
  then String.append (Libc.take 4 dup) (Libc.drop 4 stored)
  else stored.

Definition set_name (s : sym) (n : string) : sym :=
  mk_sym (addr s) (size s) (type s) n.
Definition set_size (s : sym) (sz : Z) : sym :=
  mk_sym (addr s) sz (type s) (name s).
Definition set_type (s : sym) (t : ascii) : sym :=
  mk_sym (addr s) (size s) t (name s).

(** [f] applied to [sym[nr_sym - 1]]. *)
Fixpoint map_last (f : sym -> sym) (tab : list sym) : list sym :=
  match tab with
  | [] => []
  | p :: rest =>
      match rest with
      | [] => [f p]
      | _ => p :: map_last f rest
      end
  end.

(** [sym = &stab->sym[stab->nr_sym++]] filled with [s], followed by
    [if (stab->nr_sym > 1) sym[-1].size = sym->addr - sym[-1].addr]. *)
Fixpoint push_sym (tab : list sym) (s : sym) : list sym :=
  match tab with
  | [] => [s]
  | p :: rest =>
      match rest with
      | [] => [set_size p (wrap32 (addr s - addr p)); s]
      | _ => p :: push_sym rest s
      end
  end.

(** The body of the [getline] loop.  [route] tells the two readers
    apart: [load_symbol_file] sends type [P] to the dynamic table,
    [load_module_symbol] has one table only.  [None]: the duplicate
    branch reads [sym[nr_sym - 1]] of an empty table, or the line is
    read behind its end. *)
Definition read_line (route : bool) (offset : Z) (r : reader) (line : string)
  : option reader :=
  match parse_line line with
  | None => None
  | Some None => Some r
  | Some (Some (a, t, nm)) =>
      if (a =? rd_prev_addr r) && Ascii.eqb t (rd_prev_type r) then
        match cur_tab r with
        | [] => None
        | _ :: _ =>
            Some (set_tab r (rd_cur r)
                    (map_last (fun s => set_name s (sys_rename (name s) nm)) (cur_tab r))
                    (rd_prev_addr r) (rd_prev_type r))
        end
      else
        match Libc.strchr allowed_types t with
        | None => Some r
        | Some _ =>
            let w := if route && Ascii.eqb t ST_PLT then InDsymtab else InStab in
            let tab := match w with InStab => rd_stab r | InDsymtab => rd_dsymtab r end in
            Some (set_tab r w
                    (push_sym tab (mk_sym (wrap64 (a + offset)) 0 t (demangle hdr nm)))
                    a t)
        end
  end.

Fixpoint read_lines (route : bool) (offset : Z) (r : reader) (lines : list string)
  : option reader :=
  match lines with
  | [] => Some r
  | l :: rest =>
      match read_line route offset r l with
      | None => None
      | Some r' => read_lines route offset r' rest
      end
  end.

Definition reader_init (s d : list sym) : reader :=
  mk_reader s d InStab ULONG_MAX "X"%char.

(** The static table after the loop: sorted by address, then indexed by
    name. *)
Definition index_symtab (tab : list sym) : symtab :=
  let sorted := Libc.qsort addrsort tab in
  mk_symtab sorted (build_sym_names sorted) true.

(** [load_symbol_file]: [None] is the fault of [read_line]. *)
Definition load_symbol_file (fs : fsys) (tabs : symtabs) (symfile : string)
    (offset : Z) : option (Z * symtabs) :=
  match fs_text fs symfile with
  | None => Some (-1, tabs)
  | Some text =>
      match read_lines true offset
              (reader_init (syms (stab tabs)) (syms (dsymtab tabs)))
              (Libc.getlines text) with
      | None => None
      | Some r =>
          let st := index_symtab (rd_stab r) in
          let dt := mk_symtab (rd_dsymtab r) (sym_names (dsymtab tabs))
                              (name_sorted (dsymtab tabs)) in
          let dt' := if (List.length (rd_dsymtab r) =? 0)%nat then dt
                     else sort_dynsymtab dt in
          Some (0, mk_symtabs (loaded tabs) (dirname tabs) st dt' (flags tabs) (maps tabs))
      end
  end.

(** [load_module_symbol]. *)
Definition load_module_symbol (fs : fsys) (tab : symtab) (symfile : string)
    (offset : Z) : option (Z * symtab) :=
  match fs_text fs symfile with
  | None => Some (-1, tab)
  | Some text =>
      match read_lines false offset (reader_init (syms tab) []) (Libc.getlines text) with
      | None => None
      | Some r => Some (0, index_symtab (rd_stab r))
      end
  end.

(** ** The cache file: writing *)

(** [fprintf(fp, "%016lx %c %s\n", a, t, n)]. *)
Definition fmt_line (a : Z) (t : ascii) (n : string) : string :=
  String.append (Libc.fmt_016lx (wrap64 a))
    (String " " (String t (String " " (String.append n (String "010" EmptyString))))).

Definition deref (tab : list sym) (p : names_slot) : option sym :=
  match p with
  | SymPtr k => nth_error tab k
  | SavedAddr _ => None
  end.

(** The lines of the entries [0 .. nr_sym) read through [sym_names];
    [None] when a slot is no pointer into the table. *)
Fixpoint names_lines (tab : list sym) (names : list names_slot) (idxs : list nat)
    (offset : Z) : option string :=
  match idxs with
  | [] => Some EmptyString
  | i :: rest =>
      match nth_error names i with
      | None => None
      | Some p =>
          match deref tab p, names_lines tab names rest offset with
          | Some s, Some txt =>
              Some (String.append (fmt_line (addr s - offset) (type s) (name s)) txt)
          | _, _ => None
          end
      end
  end.

Fixpoint syms_lines (tab : list sym) (offset : Z) : string :=
  match tab with
  | [] => EmptyString
  | s :: rest =>
      String.append (fmt_line (addr s - offset) (type s) (name s)) (syms_lines rest offset)
  end.

(** The closing line of a table, from its last entry [sym[i-1]]. *)
Definition end_line (tab : list sym) (offset : Z) (endname : string) : string :=
  match rev tab with
  | [] => EmptyString
  | s :: _ => fmt_line (addr s + size s - offset) (type s) endname
  end.

(** The text [save_symbol_file] prints, [None] on a bad slot. *)
Definition symfile_text (tabs : symtabs) (offset : Z) : option string :=
  let d := syms (dsymtab tabs) in
  let s := syms (stab tabs) in
  match names_lines d (sym_names (dsymtab tabs)) (seq 0 (List.length d)) offset with
  | None => None
  | Some dtxt =>
      Some (String.append dtxt
             (String.append (end_line d offset "__dynsym_end")
               (String.append (syms_lines s offset) (end_line s offset "__sym_end"))))
  end.

Definition module_text (tab : symtab) (offset : Z) : string :=
  String.append (syms_lines (syms tab) offset) (end_line (syms tab) offset "__sym_end").

(** The loop of [save_symbol_file] over the program headers. *)
Fixpoint first_load_vaddr (elf : Elf.image) (idxs : list nat) : Z :=
  match idxs with
  | [] => 0
  | i :: rest =>
      match Elf.gelf_getphdr elf i with
      | None => 0
      | Some ph =>
          if Elf.p_type ph =? Elf.PT_LOAD then Elf.p_vaddr ph
          else first_load_vaddr elf rest
      end
  end.

(** The offset taken off every address, and whether the flag
    SYMTAB_FL_ADJ_OFFSET gets set on the way. *)
Definition save_offset (file : option (option Elf.image)) : Z * bool :=
  match file with
  | Some (Some elf) =>
      match Elf.e_phdrnum elf with
      | None => (0, false)
      | Some nr => (first_load_vaddr elf (seq 0 nr), true)
      end
  | _ => (0, false)
  end.

(** [fopen(path, "wx")]. *)
Inductive fopen_wx_result := Created | Eexist | Eother.

Definition fopen_wx (fs : fsys) (path : string) : fopen_wx_result :=
  match fs_text fs path with
  | Some _ => Eexist
  | None => if fs_deny fs path then Eother else Created
  end.

Definition symfile_path (dir : option string) (exename : string) : string :=
  String.append (match dir with Some d => d | None => "(null)"%string end)
    (String.append "/" (String.append (Libc.basename exename) ".sym")).

(** [save_symbol_file]: the file system and the table set afterwards.
    [None]: a slot of the dynamic table was no pointer. *)
Definition save_symbol_file (fs : fsys) (tabs : symtabs) (dir exename : string)
  : option (outcome (fsys * symtabs)) :=
  let symfile := symfile_path (Some dir) exename in
  match fopen_wx fs symfile with
  | Eexist => Some (Done (fs, tabs))
  | Eother => Some Fatal
  | Created =>
      let '(offset, adj) := save_offset (fs_elf fs exename) in
      let tabs' :=
        if adj then mk_symtabs (loaded tabs) (dirname tabs) (stab tabs) (dsymtab tabs)
                      (Z.lor (flags tabs) (SYMTAB_FL_ADJ_OFFSET hdr)) (maps tabs)
        else tabs in
      match symfile_text tabs offset with
      | None => None
      | Some txt => Some (Done (fs_write fs symfile txt, tabs'))
      end
  end.

(** [save_module_symbol]. *)
Definition save_module_symbol (fs : fsys) (tab : symtab) (symfile : string)
    (offset : Z) : outcome fsys :=
  match fopen_wx fs symfile with
  | Eexist => Done fs
  | Eother => Fatal
  | Created => Done (fs_write fs symfile (module_text tab offset))
  end.

(** ** Loading a table set *)

Fixpoint find_map_offset (ms : list ftrace_proc_maps) (filename : string) : Z :=
  match ms with
  | [] => 0
  | m :: rest =>
      if String.eqb (libname m) filename then start m
      else find_map_offset rest filename
  end.

Definition with_stab (tabs : symtabs) (t : symtab) : symtabs :=
  mk_symtabs (loaded tabs) (dirname tabs) t (dsymtab tabs) (flags tabs) (maps tabs).
Definition with_dsymtab (tabs : symtabs) (t : symtab) : symtabs :=
  mk_symtabs (loaded tabs) (dirname tabs) (stab tabs) t (flags tabs) (maps tabs).
Definition with_maps (tabs : symtabs) (ms : list ftrace_proc_maps) : symtabs :=
  mk_symtabs (loaded tabs) (dirname tabs) (stab tabs) (dsymtab tabs) (flags tabs) ms.

(** [load_symtabs]: the cache file first, then the ELF image for each
    table that is still empty. *)
Definition load_symtabs (fs : fsys) (tabs : symtabs) (dir : option string)
    (filename : string) : option symtabs :=
  if loaded tabs then Some tabs
  else
    let tabs0 := mk_symtabs (loaded tabs) dir (stab tabs) (dsymtab tabs)
                            (flags tabs) (maps tabs) in
    let offset := if flag_set (flags tabs0) (SYMTAB_FL_ADJ_OFFSET hdr)
                  then find_map_offset (maps tabs0) filename else 0 in
    let cached :=
      match dir with
      | Some _ =>
          if flag_set (flags tabs0) (SYMTAB_FL_USE_SYMFILE hdr) then
            let symfile := symfile_path dir filename in
            match fs_text fs symfile with
            | Some _ =>
                match load_symbol_file fs tabs0 symfile offset with
                | None => None
                | Some (_, t) => Some t
                end
            | None => Some tabs0
            end
          else Some tabs0
      | None => Some tabs0
      end in
    match cached with
    | None => None
    | Some tabs1 =>
        let tabs2 :=
          if (nr_sym (stab tabs1) =? 0)%nat
          then with_stab tabs1
                 (snd (load_symtab (stab tabs1) (fs_elf fs filename) offset (flags tabs1)))
          else tabs1 in
        let dyn :=
          if (nr_sym (dsymtab tabs2) =? 0)%nat
          then match load_dynsymtab (dsymtab tabs2) (fs_elf fs filename) offset
                       (flags tabs2) with
               | None => None
               | Some (_, d) => Some (with_dsymtab tabs2 d)
               end
          else Some tabs2 in
        match dyn with
        | None => None
        | Some tabs3 =>
            Some (mk_symtabs true (dirname tabs3) (stab tabs3) (dsymtab tabs3)
                             (flags tabs3) (maps tabs3))
        end
    end.

(** ** The kernel table

    The file-scope [ksymtabs] is passed explicitly. *)

Definition load_kernel_symbol (fs : fsys) (ksymtabs : symtabs) : option (Z * symtabs) :=
  if loaded ksymtabs then Some (0, ksymtabs)
  else
    match load_symbol_file fs ksymtabs "/proc/kallsyms" 0 with
    | None => None
    | Some (ret, k) =>
        if ret <? 0 then Some (-1, k)
        else
          let st := mk_symtab (map (fun s => set_type s ST_KERNEL) (syms (stab k)))
                              (sym_names (stab k)) (name_sorted (stab k)) in
          Some (0, mk_symtabs true (dirname k) st (dsymtab k) (flags k) (maps k))
    end.

Definition get_kernel_symtab (ksymtabs : symtabs) : option symtab :=
  if loaded ksymtabs then Some (stab ksymtabs) else None.

(** ** Lookup *)

(** [find_dynsym]: outer [None] is a read past [sym_names], inner [None]
    is NULL. *)
Definition find_dynsym (tabs : symtabs) (idx : nat) : option (option names_slot) :=
  if (nr_sym (dsymtab tabs) <=? idx)%nat then Some None
  else
    match nth_error (sym_names (dsymtab tabs)) idx with
    | None => None
    | Some p => Some (Some p)
    end.

Definition count_dynsym (tabs : symtabs) : nat := nr_sym (dsymtab tabs).

Definition get_real_address (a : Z) : Z :=
  if is_kernel_address hdr a
  then Z.lor a (wrap64 (Z.shiftl ULONG_MAX (KADDR_SHIFT hdr)))
  else a.

(** The [struct sym *] that [find_symtabs] returns: the table it points
    into and the position there. *)
Inductive symref :=
| StabSym (i : nat)
| DsymtabSym (i : nat)
| MapSym (m i : nat)
| KernelSym (i : nat).

(** The walk over [symtabs->maps]: position of the first map with
    [start <= addr < end]. *)
Fixpoint find_map (ms : list ftrace_proc_maps) (a : Z) (k : nat)
  : option (nat * ftrace_proc_maps) :=
  match ms with
  | [] => None
  | m :: rest =>
      if (start m <=? a) && (a <? end_ m) then Some (k, m)
      else find_map rest a (S k)
  end.

Fixpoint set_nth {A} (l : list A) (k : nat) (x : A) : list A :=
  match l, k with
  | [], _ => []
  | _ :: rest, O => x :: rest
  | y :: rest, S k' => y :: set_nth rest k' x
  end.

(** The lazy load of a module's table inside [find_symtabs]. *)
Definition populate_map (fs : fsys) (tabs : symtabs) (m : ftrace_proc_maps)
  : option symtab :=
  if (nr_sym (map_symtab m) =? 0)%nat then
    let from_file :=
      if flag_set (flags tabs) (SYMTAB_FL_USE_SYMFILE hdr) then
        let offset := if flag_set (flags tabs) (SYMTAB_FL_ADJ_OFFSET hdr)
                      then start m else 0 in
        match load_module_symbol fs (map_symtab m)
                (symfile_path (dirname tabs) (libname m)) offset with
        | None => None
        | Some (ret, t) => Some (ret =? 0, t)
        end
      else Some (false, map_symtab m) in
    match from_file with
    | None => None
    | Some (true, t) => Some t
    | Some (false, t) =>
        Some (snd (load_symtab t (fs_elf fs (libname m)) (start m) (flags tabs)))
    end
  else Some (map_symtab m).

(** [find_symtabs]: the symbol found, if any, and the table set, whose
    map list may have gained a module table.  [None] is a fault inside
    the cache reader. *)
Definition find_symtabs (fs : fsys) (ksymtabs tabs : symtabs) (a : Z)
  : option (option symref * symtabs) :=
  if is_kernel_address hdr a then
    match get_kernel_symtab ksymtabs with
    | None => Some (None, tabs)
    | Some ktab =>
        Some (option_map KernelSym
                (Libc.bsearch addrfind (get_real_address a) (syms ktab)), tabs)
    end
  else
    match Libc.bsearch addrfind a (syms (stab tabs)) with
    | Some i => Some (Some (StabSym i), tabs)
    | None =>
        match Libc.bsearch addrfind a (syms (dsymtab tabs)) with
        | Some i => Some (Some (DsymtabSym i), tabs)
        | None =>
            match find_map (maps tabs) a 0 with
            | None => Some (None, tabs)
            | Some (k, m) =>
                match populate_map fs tabs m with
                | None => None
                | Some t =>
                    Some (option_map (MapSym k) (Libc.bsearch addrfind a (syms t)),
                          with_maps tabs
                            (set_nth (maps tabs) k
                               (mk_map (libname m) (start m) (end_ m) t)))
                end
            end
        end
    end.

(** What a symbol reference designates. *)
Definition symref_get (ksymtabs tabs : symtabs) (r : symref) : option sym :=
  match r with
  | StabSym i => nth_error (syms (stab tabs)) i
  | DsymtabSym i => nth_error (syms (dsymtab tabs)) i
  | MapSym m i =>
      match nth_error (maps tabs) m with
      | Some mp => nth_error (syms (map_symtab mp)) i
      | None => None
      end
  | KernelSym i => nth_error (syms (stab ksymtabs)) i
  end.

End Loaders.

(** ** Predicates of the specification *)

(** [a] lies in the half-open range of [s], as [addrfind] tests it. *)
Definition in_range (a : Z) (s : sym) : bool :=
  (addr s <=? a) && (a <? wrap64 (addr s + size s)).

Definition addr_le (a b : sym) : Prop := addr a <= addr b.
Definition addr_lt (a b : sym) : Prop := addr a < addr b.

(** Two neighbours under the invariant of the data model: increasing,
    distinct addresses and [addr_i + size_i <= addr_{i+1}]. *)
Definition disjoint_before (a b : sym) : Prop :=
  addr a < addr b /\ addr a + size a <= addr b.

Definition table_invariant (tab : list sym) : Prop := Sorted disjoint_before tab.

(** The fields are machine integers. *)
Definition sym_in_bounds (s : sym) : Prop :=
  0 <= addr s < 2 ^ 64 /\ 0 <= size s < 2 ^ 32.

(** Every slot of [sym_names] is there and points into the table. *)
Definition slots_valid (t : symtab) : Prop :=
  List.length (sym_names t) = List.length (syms t) /\
  Forall (fun p => exists k, p = SymPtr k /\ (k < List.length (syms t))%nat) (sym_names t).

(** The (address, type, name) view of an entry. *)
Definition triple (s : sym) : Z * ascii * string := (addr s, type s, name s).

(** ** The duplicate removal seen on the live entries

    The two loops of [load_symtab] read and move entries below [nr_sym]
    only; on the list of these entries the [while] loop at [curr = c]
    and the [for] loop are the following functions (shown equal to the
    array code in [remove_duplicates_live]). *)

Fixpoint dedup_tail (c : sym) (l : list sym) : list sym :=
  match l with
  | [] => []
  | next :: rest =>
      if addr c =? addr next then
        if (List.length rest <=? 1)%nat then rest else dedup_tail c rest
      else l
  end.

Fixpoint dedup_from (fuel : nat) (l : list sym) : list sym :=
  match fuel with
  | O => l
  | S fuel' =>
      match l with
      | c :: (_ :: _) as tl => c :: dedup_from fuel' (dedup_tail c tl)
      | _ => l
      end
  end.

(** The table ends in three entries with one address. *)
Fixpoint ends_in_equal_triple (l : list sym) : bool :=
  match l with
  | [] => false
  | x :: tl =>
      match tl with
      | [y; z] => (addr x =? addr y) && (addr y =? addr z)
      | _ => ends_in_equal_triple tl
      end
  end.

(** ** What a cache file keeps of a table *)

(** A name that a line of the file can carry: a C string, which holds
    no NUL byte, without newline or tab. *)
Definition clean_name (n : string) : Prop :=
  Libc.cstr n = n /\ Libc.strchr n "010" = None /\ Libc.strchr n "009" = None.

(** One of the letters of [allowed_types] (T, t, w, P, K); the
    terminator, which [strchr] finds there too, is none. *)
Definition accepted_letter (t : ascii) : Prop :=
  Libc.strchr allowed_types t <> None /\ t <> Libc.NUL.

(** An entry the reader will take back into the static table, and one it
    will take back into the dynamic table. *)
Definition static_entry_ok (s : sym) : Prop :=
  0 <= addr s < 2 ^ 64 /\
  accepted_letter (type s) /\ type s <> ST_PLT /\
  clean_name (name s).

Definition dynamic_entry_ok (s : sym) : Prop :=
  0 <= addr s < 2 ^ 64 /\ type s = ST_PLT /\ clean_name (name s).

(** The (address, type) pair on which the reader collapses lines. *)
Definition same_pair (a b : sym) : bool :=
  (addr a =? addr b) && Ascii.eqb (type a) (type b).

Fixpoint adjacent_distinct (l : list sym) : bool :=
  match l with
  | [] => true
  | a :: tl =>
      match tl with
      | [] => true
      | b :: _ => negb (same_pair a b) && adjacent_distinct tl
      end
  end.

(** The entries of a table in the order of its slots. *)
Definition slot_entries (t : symtab) : list sym :=
  flat_map (fun p => match deref (syms t) p with Some s => [s] | None => [] end)
           (sym_names t).

Section RoundTrip.
Variable hdr : header.

(** The triple the reader stores for a written entry. *)
Definition reread_triple (s : sym) : Z * ascii * string :=
  (addr s, type s, demangle hdr (name s)).

(** The triple of the closing line of a table, [prev] being the entry
    written just before it: nothing when the line repeats the pair of
    [prev]. *)
Definition end_triple (tab : list sym) (prev : option sym) (endname : string)
  : list (Z * ascii * string) :=
  match rev tab, prev with
  | s :: _, Some e =>
      if (wrap64 (addr s + size s) =? addr e) && Ascii.eqb (type s) (type e) then []
      else [(wrap64 (addr s + size s), type s, demangle hdr endname)]
  | _, _ => []
  end.

(** The line written for an entry, the entry the reader makes of it,
    and the reader after it has taken that line as a new entry of the
    table [w]. *)
Definition entry_line (offset : Z) (s : sym) : string :=
  fmt_line (addr s - offset) (type s) (name s).

Definition reread_entry (s : sym) : sym :=
  mk_sym (addr s) 0 (type s) (demangle hdr (name s)).

Definition tab_of (w : which_tab) (r : reader) : list sym :=
  match w with InStab => rd_stab r | InDsymtab => rd_dsymtab r end.

Definition take_entry (offset : Z) (w : which_tab) (r : reader) (s : sym) : reader :=
  set_tab r w (push_sym (tab_of w r) (reread_entry s))
          (wrap64 (addr s - offset)) (type s).

(** The table [load_symbol_file] chooses for a type letter. *)
Definition routed (s : sym) : which_tab :=
  if Ascii.eqb (type s) ST_PLT then InDsymtab else InStab.

(** What the reader asks of a written entry to take it back into the
    table [w], and whether the reader has just seen the pair of [s]. *)
Definition entry_ok (w : which_tab) (s : sym) : Prop :=
  0 <= addr s < 2 ^ 64 /\ accepted_letter (type s) /\
  clean_name (name s) /\ routed s = w.

Definition pair_seen (offset : Z) (r : reader) (s : sym) : bool :=
  (wrap64 (addr s - offset) =? rd_prev_addr r) && Ascii.eqb (type s) (rd_prev_type r).

(** The entry behind the closing line of a table. *)
Definition end_entry (tab : list sym) (endname : string) : option sym :=
  match rev tab with
  | s :: _ => Some (mk_sym (wrap64 (addr s + size s)) 0 (type s) endname)
  | [] => None
  end.

End RoundTrip.

(** ** Lookup by name *)

(** [namefind] with the read through the pointer written out: [None]
    for an element of [sym_names] that points to no entry. *)
Definition namefind_through (tab : list sym) (key : string) (p : names_slot)
  : option Z :=
  match deref tab p with
  | Some s => Some (Libc.strcmp key (name s))
  | None => None
  end.

(** The linear scan of [find_symname]: the first entry with the name. *)
Fixpoint scan_symname (nm : string) (tab : list sym) (i : nat) : option nat :=
  match tab with
  | [] => None
  | s :: rest =>
      if Libc.strcmp nm (name s) =? 0 then Some i else scan_symname nm rest (S i)
  end.

(** [find_symname]: outer [None] is a fault of the search, inner [None]
    is NULL. *)
Definition find_symname (t : symtab) (nm : string) : option (option names_slot) :=
  if name_sorted t then
    match Libc.bsearch_through (namefind_through (syms t)) nm (sym_names t) (nr_sym t) with
    | None => None
    | Some None => Some None
    | Some (Some i) => option_map Some (nth_error (sym_names t) i)
    end
  else Some (option_map SymPtr (scan_symname nm (syms t) 0)).

(** The order in which [namesort] leaves the pointers of [sym_names]. *)
Definition name_le (tab : list sym) (a b : nat) : Prop :=
  exists sa sb, nth_error tab a = Some sa /\ nth_error tab b = Some sb /\
                Libc.strcmp (name sa) (name sb) <= 0.

(** [symbol_getname]: the name of the entry, or the address between
    angle brackets for NULL. *)
Definition symbol_getname (s : option sym) (a : Z) : string :=
  match s with
  | None => String "<" (String.append (Libc.fmt_lx a) ">")
  | Some s' => name s'
  end.

(** ** The list of PLT indexes *)

(** [struct dynsym_idxlist]. *)
Record dynsym_idxlist := mk_idxlist {
  idx : list nat;
  count : nat
}.

(** The inner [for (k ...)] loop of [build_dynsym_idxlist]. *)
Fixpoint name_listed (nm : string) (symlist : list string) : bool :=
  match symlist with
  | [] => false
  | s :: rest => if Libc.strcmp nm s =? 0 then true else name_listed nm rest
  end.

(** The outer loop; with an empty [symlist] no slot is read. *)
Fixpoint build_idx (tab : list sym) (names : list names_slot) (symlist : list string)
    (ixs : list nat) (acc : list nat) : option (list nat) :=
  match ixs with
  | [] => Some acc
  | i :: rest =>
      match symlist with
      | [] => build_idx tab names symlist rest acc
      | _ :: _ =>
          match nth_error names i with
          | None => None
          | Some p =>
              match deref tab p with
              | None => None
              | Some s =>
                  build_idx tab names symlist rest
                            (if name_listed (name s) symlist then acc ++ [i] else acc)
              end
          end
      end
  end.

(** [build_dynsym_idxlist]; [None]: a slot of [sym_names] was no pointer
    into the table. *)
Definition build_dynsym_idxlist (tabs : symtabs) (symlist : list string)
  : option dynsym_idxlist :=
  let d := dsymtab tabs in
  match build_idx (syms d) (sym_names d) symlist (seq 0 (nr_sym d)) [] with
  | None => None
  | Some l => Some (mk_idxlist l (List.length l))
  end.

Definition destroy_dynsym_idxlist (l : dynsym_idxlist) : dynsym_idxlist :=
  mk_idxlist [] 0.

Fixpoint check_idx (l : list nat) (ixs : list nat) (x : nat) : option bool :=
  match ixs with
  | [] => Some false
  | i :: rest =>
      match nth_error l i with
      | None => None
      | Some y => if (x =? y)%nat then Some true else check_idx l rest x
      end
  end.

(** [check_dynsym_idxlist]; [None]: [count] exceeds the array. *)
Definition check_dynsym_idxlist (l : dynsym_idxlist) (x : nat) : option bool :=
  check_idx (idx l) (seq 0 (count l)) x.

(** ** Modules *)

(** The file name inside [libname]: what follows the last slash. *)
Definition mod_name (path : string) : string :=
  match Libc.strrchr path "/" with
  | None => path
  | Some r => Libc.drop 1 r
  end.

(** [find_map_by_name]: the first map whose file name starts with
    [prefix], with its position in the list. *)
Fixpoint find_map_by_name (ms : list ftrace_proc_maps) (prefix : string) (k : nat)
  : option (nat * ftrace_proc_maps) :=
  match ms with
  | [] => None
  | m :: rest =>
      if Libc.strncmp (mod_name (libname m)) prefix (String.length prefix) =? 0
      then Some (k, m)
      else find_map_by_name rest prefix (S k)
  end.

(** The names [load_module_symtabs] passes over. *)
Definition reserved_module (nm : string) : bool :=
  (Libc.strcasecmp nm "main" =? 0) || (Libc.strcasecmp nm "PLT" =? 0)
  || (Libc.strcasecmp nm "kernel" =? 0).

(** [unload_symtabs]. *)
Definition unload_symtabs (tabs : symtabs) : symtabs :=
  mk_symtabs false (dirname tabs) (unload_symtab (stab tabs))
             (unload_symtab (dsymtab tabs)) (flags tabs) (maps tabs).

Section Modules.
Variable hdr : header.

(** What [load_module_symtabs] does to the table of a map it has found
    empty: the cache file when SYMTAB_FL_USE_SYMFILE is set, the ELF
    image when that did not succeed. *)
Definition load_module (fs : fsys) (tabs : symtabs) (m : ftrace_proc_maps)
  : option symtab :=
  if flag_set (flags tabs) (SYMTAB_FL_USE_SYMFILE hdr) then
    let offset := if flag_set (flags tabs) (SYMTAB_FL_ADJ_OFFSET hdr)
                  then start m else 0 in
    match load_module_symbol hdr fs (map_symtab m)
            (symfile_path (dirname tabs) (libname m)) offset with
    | None => None
    | Some (ret, t) =>
        if ret =? 0 then Some t
        else Some (snd (load_symtab hdr t (fs_elf fs (libname m)) (start m) (flags tabs)))
    end
  else
    Some (snd (load_symtab hdr (map_symtab m) (fs_elf fs (libname m)) (start m)
                 (flags tabs))).

(** The loop of [load_module_symtabs] over the names of the module
    list ([struct filter_module], of which only [name] is read). *)
Fixpoint load_modules (fs : fsys) (tabs : symtabs) (head : list string)
  : option symtabs :=
  match head with
  | [] => Some tabs
  | nm :: rest =>
      if reserved_module nm then load_modules fs tabs rest
      else
        match find_map_by_name (maps tabs) nm 0 with
        | None => load_modules fs tabs rest
        | Some (k, m) =>
            if negb (nr_sym (map_symtab m) =? 0)%nat then load_modules fs tabs rest
            else
              match load_module fs tabs m with
              | None => None
              | Some t =>
                  load_modules fs
                    (with_maps tabs
                       (set_nth (maps tabs) k
                          (mk_map (libname m) (start m) (end_ m) t)))
                    rest
              end
        end
  end.

(** [load_module_symtabs]: [Fatal] is the failed [assert(symtabs->maps)],
    [None] a fault inside the cache reader. *)
Definition load_module_symtabs (fs : fsys) (tabs : symtabs) (head : list string)
  : option (outcome symtabs) :=
  match maps tabs with
  | [] => Some Fatal
  | _ :: _ => option_map Done (load_modules fs tabs head)
  end.

End Modules.

(** [save_module_symtabs]: a cache file for every name of the list that
    designates a map. *)
Fixpoint save_module_symtabs (fs : fsys) (tabs : symtabs) (modules : list string)
  : outcome fsys :=
  match modules with
  | [] => Done fs
  | nm :: rest =>
      match find_map_by_name (maps tabs) nm 0 with
      | None => save_module_symtabs fs tabs rest
      | Some (_, m) =>
          match save_module_symbol fs (map_symtab m)
                  (symfile_path (dirname tabs) (libname m)) (start m) with
          | Fatal => Fatal
          | Done fs' => save_module_symtabs fs' tabs rest
          end
      end
  end.

(** ** What the further properties speak of *)

(** Whether the entry behind slot [i] has one of the names of [symlist]. *)
Definition slot_listed (tab : list sym) (names : list names_slot)
    (symlist : list string) (i : nat) : bool :=
  match nth_error names i with
  | Some p =>
      match deref tab p with
      | Some s => name_listed (name s) symlist
      | None => false
      end
  | None => false
  end.

(** The file name of the map [m] starts with [prefix]. *)
Definition names_module (prefix : string) (m : ftrace_proc_maps) : Prop :=
  exists rest, mod_name (libname m) = String.append prefix rest.

(** The part of a map that no loader changes. *)
Definition map_region (m : ftrace_proc_maps) : string * Z * Z :=
  (libname m, start m, end_ m).

(** The entry [load_symtab] makes of one ELF symbol: none for a symbol
    of size 0 or of a type other than STT_FUNC. *)
Definition entry_of_symbol (hdr : header) (offset fl : Z) (es : Elf.Sym) : option sym :=
  if Elf.st_size es =? 0 then None
  else if negb (Elf.GELF_ST_TYPE (Elf.st_info es) =? Elf.STT_FUNC) then None
  else Some (mk_sym (wrap64 (Elf.st_value es + offset))
                    (wrap32 (Elf.st_size es))
                    (bind_type hdr (Elf.st_info es))
                    (stored_name hdr fl (Elf.st_name es))).

(** The sizes the cache reader leaves in a table it has filled: the
    distance to the entry read next, and its own size for the last. *)
Fixpoint gap_sizes (l : list sym) : list sym :=
  match l with
  | a :: (b :: _) as tl => set_size a (wrap32 (addr b - addr a)) :: gap_sizes tl
  | _ => l
  end.

(** Two neighbours less than 4 GiB apart. *)
Definition near_before (a b : sym) : Prop := addr b - addr a < 2 ^ 32.

(** A string of hexadecimal digits as [printf] writes them. *)
Fixpoint all_hex (s : string) : Prop :=
  match s with
  | EmptyString => True
  | String c s' => (exists d, 0 <= d < 16 /\ c = Libc.hexchar d) /\ all_hex s'
  end.

(** The symbol that relocation [idx] of the PLT refers to. *)
Definition rel_symbol (relplt dynsym : Elf.Shdr) (idx : nat) : option Elf.Sym :=
  match Elf.gelf_getrel relplt idx with
  | Some r_info => Elf.gelf_getsym dynsym (Z.to_nat (Elf.GELF_R_SYM r_info))
  | None => None
  end.

(** The entries that the symbol at index [i] of a section adds to a
    static table: one or none. *)
Definition entries_of_index (hdr : header) (sec : Elf.Shdr) (offset fl : Z) (i : nat)
  : list sym :=
  match Elf.gelf_getsym sec i with
  | Some es =>
      match entry_of_symbol hdr offset fl es with
      | Some s => [s]
      | None => []
      end
  | None => []
  end.



(** ** Concrete inputs *)

Module Ex.
Local Open Scope string_scope.

(** The header values on x86_64 with an identity demangler. *)
Definition x86_64 : header :=
  mk_header 1 2 4 "?"%char 47 (fun a => Z.testbit a 47) (fun s => s).

Definition no_files : fsys :=
  mk_fsys (fun _ => None) (fun _ => None) (fun _ => false).

Definition foo : sym := mk_sym 0x1000 16 ST_GLOBAL "foo".
Definition bar : sym := mk_sym 0x1020 32 ST_GLOBAL "bar".

Definition foo_bar : symtabs :=
  mk_symtabs true None (mk_symtab [foo; bar] [SymPtr 1; SymPtr 0] true)
             empty_symtab 0 [].

(** info byte of a function symbol with global binding, and of an
    untyped one. *)
Definition GLOBAL_FUNC : Z := 18.
Definition GLOBAL_NOTYPE : Z := 16.

Definition section (nm : string) (a entsize : Z) (es : list (option Elf.Sym))
    (rs : list (option Z)) (n : nat) : Elf.Shdr :=
  Elf.mk_Shdr nm a entsize n true es rs.

Definition image_of (scns : list Elf.Shdr) : Elf.image :=
  Elf.mk_image (Some 1%nat) [Some (Elf.mk_Phdr Elf.PT_LOAD 0)] (Some 1%nat)
               (map Some scns).

(** A PLT with two relocations whose symbols are untyped: both entries
    get the address 0. *)
Definition untyped_a : Elf.Sym := Elf.mk_Sym "a" 0 0 GLOBAL_NOTYPE.
Definition untyped_b : Elf.Sym := Elf.mk_Sym "b" 0 0 GLOBAL_NOTYPE.

Definition two_untyped_plt : Elf.image :=
  image_of
    [section ".dynsym" 0 24 [Some (Elf.mk_Sym "" 0 0 0); Some untyped_a; Some untyped_b] [] 3;
     section ".rela.plt" 0 24 [] [Some (Z.shiftl 1 32 + 7); Some (Z.shiftl 2 32 + 7)] 2;
     section ".plt" 0x400 16 [] [] 3].

Definition app_files (img : Elf.image) : fsys :=
  mk_fsys (fun _ => None)
          (fun p => if String.eqb p "/bin/app" then Some (Some img) else None)
          (fun _ => false).

(** A symbol table announced with two entries of which the second
    cannot be read. *)
Definition main_sym : Elf.Sym := Elf.mk_Sym "main" 0x1100 64 GLOBAL_FUNC.

Definition truncated_symtab : Elf.image :=
  image_of [section ".symtab" 0 24 [Some main_sym; None] [] 2].

(** Two lines of a kernel symbol dump with one address and a type
    letter the reader does not take, and a syscall with its alias. *)
Definition data_line_a : string := "0000000000001000 D a".
Definition data_line_b : string := "0000000000001000 D b".
Definition SyS_read_line : string := "ffffffff81200000 T SyS_read".
Definition sys_read_line : string := "ffffffff81200000 T sys_read".


Definition three_aliases : Elf.image :=
  image_of
    [section ".symtab" 0 24
       [Some (Elf.mk_Sym "f" 0x1000 16 GLOBAL_FUNC);
        Some (Elf.mk_Sym "f_alias1" 0x1000 16 GLOBAL_FUNC);
        Some (Elf.mk_Sym "f_alias2" 0x1000 16 GLOBAL_FUNC)] [] 3].

(** A main table with two functions inside a third one, and a map
    list whose first module covers the same addresses. *)
Definition nested_funcs : Elf.image :=
  image_of
    [section ".symtab" 0 24
       [Some (Elf.mk_Sym "outer" 0x1000 0x100 GLOBAL_FUNC);
        Some (Elf.mk_Sym "in1" 0x1010 0x10 GLOBAL_FUNC);
        Some (Elf.mk_Sym "in2" 0x1020 0x10 GLOBAL_FUNC)] [] 3].

Definition libfoo_map : ftrace_proc_maps :=
  mk_map "/lib/libfoo.so" 0x1000 0x2000
         (mk_symtab [mk_sym 0x1030 0x10 ST_GLOBAL "foo_helper"] [SymPtr 0] true).

Definition nested_tabs : symtabs :=
  mk_symtabs true None
    (snd (load_symtab x86_64 empty_symtab (Some (Some nested_funcs)) 0 0))
    empty_symtab 0 [libfoo_map].

(** An executable with one function and the PLT of [two_untyped_plt];
    its table set, the file system after the cache file is written, and
    the table set read back from that file. *)
Definition app_image : Elf.image :=
  image_of
    [section ".symtab" 0 24 [Some main_sym] [] 1;
     section ".dynsym" 0 24 [Some (Elf.mk_Sym "" 0 0 0); Some untyped_a; Some untyped_b] [] 3;
     section ".rela.plt" 0 24 [] [Some (Z.shiftl 1 32 + 7); Some (Z.shiftl 2 32 + 7)] 2;
     section ".plt" 0x400 16 [] [] 3].

Definition app_tabs : symtabs :=
  match load_symtabs x86_64 (app_files app_image) empty_symtabs None "/bin/app" with
  | Some t => t
  | None => empty_symtabs
  end.

Definition app_saved : fsys :=
  match save_symbol_file x86_64 (app_files app_image) app_tabs "cache" "/bin/app" with
  | Some (Done (fs', _)) => fs'
  | _ => app_files app_image
  end.

Definition app_reloaded : symtabs :=
  match load_symbol_file x86_64 app_saved empty_symtabs "cache/app.sym" 0 with
  | Some (_, t) => t
  | None => empty_symtabs
  end.

(** An executable with two functions and two PLT relocations, the first
    to a symbol with a value of its own, so that the slots come in the
    reverse of the address order; and its table set. *)
Definition puts_plt : sym := mk_sym 0x430 16 ST_PLT "puts".
Definition exit_plt : sym := mk_sym 0x420 16 ST_PLT "exit".

Definition small_image : Elf.image :=
  image_of
    [section ".symtab" 0 24
       [Some (Elf.mk_Sym "bar" 0x1020 32 GLOBAL_FUNC);
        Some (Elf.mk_Sym "foo" 0x1000 16 GLOBAL_FUNC)] [] 2;
     section ".dynsym" 0 24
       [Some (Elf.mk_Sym "" 0 0 0);
        Some (Elf.mk_Sym "puts" 0x430 0 GLOBAL_FUNC);
        Some (Elf.mk_Sym "exit" 0 0 GLOBAL_FUNC)] [] 3;
     section ".rela.plt" 0 24 [] [Some (Z.shiftl 1 32 + 7); Some (Z.shiftl 2 32 + 7)] 2;
     section ".plt" 0x400 16 [] [] 3].

Definition small_tabs : symtabs :=
  match load_symtabs x86_64 (app_files small_image) empty_symtabs None "/bin/app" with
  | Some t => t
  | None => empty_symtabs
  end.

(** A PLT relocation section announced with two entries of which the
    second cannot be read. *)
Definition truncated_plt : Elf.image :=
  image_of
    [section ".dynsym" 0 24
       [Some (Elf.mk_Sym "" 0 0 0); Some (Elf.mk_Sym "puts" 0 0 GLOBAL_FUNC)] [] 2;
     section ".rela.plt" 0 24 [] [Some (Z.shiftl 1 32 + 7); None] 2;
     section ".plt" 0x400 16 [] [] 3].

(** File systems in which the cache file of /bin/app is already there,
    and in which nothing can be created. *)
Definition cached_files : fsys :=
  mk_fsys (fun p => if String.eqb p "cache/app.sym" then Some "" else None)
          (fun _ => None) (fun _ => false).

Definition readonly_files : fsys :=
  mk_fsys (fun _ => None) (fun _ => None) (fun _ => true).

(** An address with bit 47 set. *)
Definition kernel_addr : Z := 0x800000001000.

(** A shared object with one function, its map with an empty table, a
    table set with that map only, the file system that holds the object
    and the table the object loads at the start of the map. *)
Definition libbar_image : Elf.image :=
  image_of [section ".symtab" 0 24 [Some (Elf.mk_Sym "helper" 0x100 0x20 GLOBAL_FUNC)] [] 1].

Definition libbar_map : ftrace_proc_maps :=
  mk_map "/lib/libbar.so" 0x7000 0x8000 empty_symtab.

Definition libbar_tabs : symtabs :=
  mk_symtabs true None empty_symtab empty_symtab 0 [libbar_map].

Definition libbar_files : fsys :=
  mk_fsys (fun _ => None)
          (fun p => if String.eqb p "/lib/libbar.so" then Some (Some libbar_image) else None)
          (fun _ => false).

Definition libbar_table : symtab :=
  snd (load_symtab x86_64 empty_symtab (Some (Some libbar_image)) 0x7000 0).

Definition libbar_loaded : symtabs :=
  mk_symtabs true None empty_symtab empty_symtab 0
    [mk_map "/lib/libbar.so" 0x7000 0x8000 libbar_table].

(** A table set whose only entries are those of the module libfoo, and
    the file system after its cache file is written. *)
Definition libfoo_tabs : symtabs :=
  mk_symtabs true None empty_symtab empty_symtab 0 [libfoo_map].

Definition libfoo_saved : fsys :=
  match save_module_symtabs no_files libfoo_tabs ["libfoo"] with
  | Done f => f
  | Fatal => no_files
  end.

(** A kernel symbol dump of three lines, the file system that holds it
    and the kernel table read from it. *)
Definition newline : string := String "010" EmptyString.

Definition kallsyms : string :=
  SyS_read_line ++ newline ++ sys_read_line ++ newline
  ++ "ffffffff81200040 T sys_write" ++ newline.

Definition kallsyms_files : fsys :=
  mk_fsys (fun p => if String.eqb p "/proc/kallsyms" then Some kallsyms else None)
          (fun _ => None) (fun _ => false).

Definition kernel_tabs : symtabs :=
  match load_kernel_symbol x86_64 kallsyms_files empty_symtabs with
  | Some (_, k) => k
  | None => empty_symtabs
  end.

(** The static table of [small_image], a PLT table before it is sorted,
    an image with a versioned symbol and an image whose first loadable
    segment starts at 0x400000. *)
Definition small_static : symtab :=
  snd (load_symtab x86_64 empty_symtab (Some (Some small_image)) 0 0).

Definition plt_unsorted : symtab := mk_symtab [puts_plt; exit_plt] [] false.

Definition versioned_image : Elf.image :=
  image_of
    [section ".symtab" 0 24 [Some (Elf.mk_Sym "memcpy@@GLIBC_2.14" 0x2000 48 GLOBAL_FUNC)] [] 1].

Definition main_at_400000 : Elf.Sym := Elf.mk_Sym "main" 0x401100 64 GLOBAL_FUNC.

Definition shifted_image : Elf.image :=
  Elf.mk_image (Some 1%nat) [Some (Elf.mk_Phdr Elf.PT_LOAD 0x400000)] (Some 1%nat)
               [Some (section ".symtab" 0 24 [Some main_at_400000] [] 1)].

(** A library whose two PLT relocations both refer to undefined
    functions, and what the scan of its sections finds. *)
Definition lazy_dynsym : Elf.Shdr :=
  section ".dynsym" 0 24
    [Some (Elf.mk_Sym "" 0 0 0);
     Some (Elf.mk_Sym "puts" 0 0 GLOBAL_FUNC);
     Some (Elf.mk_Sym "exit" 0 0 GLOBAL_FUNC)] [] 3.

Definition lazy_relplt : Elf.Shdr :=
  section ".rela.plt" 0 24 [] [Some (Z.shiftl 1 32 + 7); Some (Z.shiftl 2 32 + 7)] 2.

Definition lazy_plt : Elf.image :=
  image_of [lazy_dynsym; lazy_relplt; section ".plt" 0x400 16 [] [] 3].

Definition lazy_plt_scan : plt_scan :=
  mk_plt_scan (Some lazy_dynsym) (Some lazy_relplt) 2 Elf.SHT_RELA 0x400 16.

(** A cache file that ends, without newline, behind the space after an
    address, and one with a line whose type byte is NUL. *)
Definition cut_cache : string :=
  "0000000000001000 T main" ++ newline ++ "0000000000002000 ".

Definition cut_files : fsys :=
  mk_fsys (fun p => if String.eqb p "cache/app.sym" then Some cut_cache else None)
          (fun _ => None) (fun _ => false).

Definition nul_typed_cache : string :=
  "0000000000001000 T main" ++ newline
  ++ "0000000000001400 P puts" ++ newline
  ++ "0000000000002000 " ++ String Libc.NUL " helper" ++ newline.

Definition nul_typed_files : fsys :=
  mk_fsys (fun p => if String.eqb p "cache/app.sym" then Some nul_typed_cache else None)
          (fun _ => None) (fun _ => false).

Definition nul_typed_tabs : symtabs :=
  match load_symbol_file x86_64 nul_typed_files empty_symtabs "cache/app.sym" 0 with
  | Some (_, t) => t
  | None => empty_symtabs
  end.






End Ex.

(** * Properties *)

Arguments wrap64 : simpl never.
Arguments wrap32 : simpl never.
Arguments ULONG_MAX : simpl never.
Arguments plt_entry : simpl never.
Arguments stored_name : simpl never.
Arguments bind_type : simpl never.
Arguments Elf.GELF_R_SYM : simpl never.
Arguments Elf.GELF_ST_TYPE : simpl never.
Arguments Elf.GELF_ST_BIND : simpl never.
Arguments Libc.fmt_016lx : simpl never.
Arguments Libc.strtoul16 : simpl never.
Arguments parse_line : simpl never.
Arguments sys_rename : simpl never.

(** ** Sorting and searching *)

Module LibcFacts.
Import Libc.

Section SortingFacts.
Context {A : Type}.
Variable compar : A -> A -> Z.

Lemma insert_sorted_perm (x : A) (l : list A) :
  Permutation (insert_sorted compar x l) (x :: l).
Proof.
  induction l as [|y l IH]; simpl.
  - apply Permutation_refl.
  - destruct (0 <? compar x y).
    + eapply Permutation_trans; [apply perm_skip, IH | apply perm_swap].
    + apply Permutation_refl.
Qed.

Lemma qsort_perm (l : list A) : Permutation (qsort compar l) l.
Proof.
  induction l as [|x l IH]; simpl.
  - constructor.
  - eapply Permutation_trans; [apply insert_sorted_perm | now apply perm_skip].
Qed.

Lemma qsort_length (l : list A) : List.length (qsort compar l) = List.length l.
Proof. apply Permutation_length, qsort_perm. Qed.

(** Sortedness for a comparator that is a total preorder read through
    its sign. *)
Variable le : A -> A -> Prop.
Hypothesis le_of_sign : forall x y, compar x y <= 0 -> le x y.
Hypothesis le_of_pos : forall x y, 0 < compar x y -> le y x.

Lemma insert_sorted_hdrel (x a : A) (l : list A) :
  le a x -> HdRel le a l -> HdRel le a (insert_sorted compar x l).
Proof.
  intros Hax Hl. destruct l as [|y l]; simpl.
  - now constructor.
  - destruct (0 <? compar x y); constructor; auto.
    now inversion Hl.
Qed.

Lemma insert_sorted_sorted (x : A) (l : list A) :
  Sorted le l -> Sorted le (insert_sorted compar x l).
Proof.
  induction 1 as [|y l Hs IH Hd]; simpl.
  - repeat constructor.
  - destruct (0 <? compar x y) eqn:E.
    + constructor; [exact IH|].
      apply insert_sorted_hdrel; [|exact Hd].
      apply le_of_pos. now apply Z.ltb_lt.
    + constructor; [now constructor|].
      constructor. apply le_of_sign. apply Z.ltb_ge in E. exact E.
Qed.

Lemma qsort_sorted (l : list A) : Sorted le (qsort compar l).
Proof.
  induction l as [|x l IH]; simpl.
  - constructor.
  - now apply insert_sorted_sorted.
Qed.
End SortingFacts.

Section SearchingFacts.
Context {K A : Type}.
Variable compar : K -> A -> Z.

(** Whatever [bsearch] returns compares equal to the key. *)
Lemma bsearch_loop_hit (fuel : nat) (key : K) (base : list A) (l u i : nat) :
  bsearch_loop compar fuel key base l u = Some i ->
  exists p, nth_error base i = Some p /\ compar key p = 0.
Proof.
  revert l u. induction fuel as [|fuel IH]; intros l u; cbn [bsearch_loop]; [discriminate|].
  cbv zeta.
  destruct (l <? u)%nat; [|discriminate].
  destruct (nth_error base ((l + u) / 2)) as [p|] eqn:Hp; [|discriminate].
  destruct (compar key p <? 0) eqn:E1; [apply IH|].
  destruct (0 <? compar key p) eqn:E2; [apply IH|].
  intros H; inversion H; subst. exists p. split; [exact Hp|].
  apply Z.ltb_ge in E1, E2. lia.
Qed.

Lemma bsearch_hit (key : K) (base : list A) (i : nat) :
  bsearch compar key base = Some i ->
  exists p, nth_error base i = Some p /\ compar key p = 0.
Proof. apply bsearch_loop_hit. Qed.

Lemma bsearch_miss (key : K) (base : list A) :
  (forall p, In p base -> compar key p <> 0) -> bsearch compar key base = None.
Proof.
  intros H. destruct (bsearch compar key base) as [i|] eqn:E; [|reflexivity].
  destruct (bsearch_hit _ _ _ E) as (p & Hp & Hc).
  exfalso. eapply H; [eapply nth_error_In; eauto | exact Hc].
Qed.

(** On an array that is partitioned around position [t] the loop
    reaches [t]. *)
Lemma bsearch_loop_find (key : K) (base : list A) (t : nat) (p : A) :
  nth_error base t = Some p -> compar key p = 0 ->
  (forall i q, (i < t)%nat -> nth_error base i = Some q -> 0 < compar key q) ->
  (forall i q, (t < i)%nat -> nth_error base i = Some q -> compar key q < 0) ->
  forall fuel l u, (l <= t < u)%nat -> (u <= List.length base)%nat ->
    (u - l <= fuel)%nat ->
    bsearch_loop compar fuel key base l u = Some t.
Proof.
  intros Ht Hc Hlo Hhi. induction fuel as [|fuel IH]; intros l u Hr Hu Hf; [lia|].
  cbn [bsearch_loop]. cbv zeta. destruct (Nat.ltb_spec l u); [|lia].
  assert (Hm : (l <= (l + u) / 2 < u)%nat).
  { pose proof (Nat.div_mod_eq (l + u) 2) as Hd.
    pose proof (Nat.mod_upper_bound (l + u) 2) as Hm. lia. }
  destruct (nth_error base ((l + u) / 2)) as [q|] eqn:Hq.
  2:{ apply nth_error_None in Hq. lia. }
  destruct (Nat.lt_trichotomy ((l + u) / 2) t) as [Hlt|[Heq|Hgt]].
  - assert (0 < compar key q) by (eapply Hlo; eauto).
    destruct (Z.ltb_spec (compar key q) 0); [lia|].
    destruct (Z.ltb_spec 0 (compar key q)); [|lia].
    apply IH; lia.
  - rewrite Heq in Hq. rewrite Ht in Hq. inversion Hq; subst q.
    rewrite Hc, Z.ltb_irrefl. cbv iota. now rewrite Heq.
  - assert (compar key q < 0) by (eapply Hhi; eauto).
    destruct (Z.ltb_spec (compar key q) 0); [|lia].
    apply IH; lia.
Qed.

(** Fuel beyond [u - l] changes nothing: the model's bound on the
    number of probes is never the reason for a miss. *)
Lemma bsearch_loop_fuel (key : K) (base : list A) (fuel fuel' l u : nat) :
  (u - l <= fuel)%nat -> (u - l <= fuel')%nat ->
  bsearch_loop compar fuel key base l u = bsearch_loop compar fuel' key base l u.
Proof.
  revert fuel' l u. induction fuel as [|fuel IH]; intros fuel' l u H1 H2.
  - destruct fuel'; cbn [bsearch_loop]; [reflexivity|].
    destruct (Nat.ltb_spec l u); [lia|reflexivity].
  - destruct fuel' as [|fuel']; cbn [bsearch_loop]; cbv zeta.
    + destruct (Nat.ltb_spec l u); [lia|reflexivity].
    + destruct (Nat.ltb_spec l u); [|reflexivity].
      assert (Hm : (l <= (l + u) / 2 < u)%nat).
      { pose proof (Nat.div_mod_eq (l + u) 2) as Hd.
        pose proof (Nat.mod_upper_bound (l + u) 2) as Hm. lia. }
      destruct (nth_error base ((l + u) / 2)) as [p|]; [|reflexivity].
      destruct (compar key p <? 0); [apply IH; lia|].
      destruct (0 <? compar key p); [apply IH; lia|reflexivity].
Qed.

Lemma bsearch_find (key : K) (base : list A) (t : nat) (p : A) :
  nth_error base t = Some p -> compar key p = 0 ->
  (forall i q, (i < t)%nat -> nth_error base i = Some q -> 0 < compar key q) ->
  (forall i q, (t < i)%nat -> nth_error base i = Some q -> compar key q < 0) ->
  bsearch compar key base = Some t.
Proof.
  intros Ht Hc Hlo Hhi. unfold bsearch.
  assert (t < List.length base)%nat by (apply nth_error_Some; congruence).
  eapply bsearch_loop_find; eauto; lia.
Qed.
End SearchingFacts.

End LibcFacts.

(** ** Address lookup *)

Lemma addrfind_zero (a : Z) (s : sym) : addrfind a s = 0 <-> in_range a s = true.
Proof.
  unfold addrfind, in_range.
  destruct ((addr s <=? a) && (a <? wrap64 (addr s + size s))); [tauto|].
  destruct (a <? addr s); split; intros; discriminate.
Qed.

Lemma wrap64_le (z : Z) : 0 <= z -> wrap64 z <= z.
Proof. intros. unfold wrap64. apply Z.mod_le; lia. Qed.

Lemma table_invariant_strong (tab : list sym) :
  table_invariant tab -> StronglySorted disjoint_before tab.
Proof.
  apply Sorted_StronglySorted.
  intros x y z [H1 H2] [H3 H4]. unfold disjoint_before. lia.
Qed.

Lemma strongly_sorted_nth {A} (R : A -> A -> Prop) (l : list A) :
  StronglySorted R l ->
  forall i j x y, (i < j)%nat -> nth_error l i = Some x -> nth_error l j = Some y -> R x y.
Proof.
  induction 1 as [|a l Hs IH Hall]; intros i j x y Hij Hi Hj.
  - destruct i; discriminate.
  - destruct j as [|j]; [lia|]. destruct i as [|i]; simpl in *.
    + inversion Hi; subst. rewrite Forall_forall in Hall.
      apply Hall. eapply nth_error_In; eauto.
    + apply (IH i j x y); [lia | exact Hi | exact Hj].
Qed.

(** On a table that satisfies the invariant, [bsearch] with [addrfind]
    reaches the entry whose range holds the address. *)
Lemma bsearch_addrfind_find (tab : list sym) (a : Z) (i : nat) (s : sym) :
  table_invariant tab -> Forall sym_in_bounds tab ->
  nth_error tab i = Some s -> in_range a s = true ->
  Libc.bsearch addrfind a tab = Some i.
Proof.
  intros Hinv Hb Hi Hr.
  apply table_invariant_strong in Hinv.
  assert (Hs : sym_in_bounds s).
  { rewrite Forall_forall in Hb. apply Hb. eapply nth_error_In; eauto. }
  unfold in_range in Hr. apply andb_prop in Hr as [Hr1 Hr2].
  apply Z.leb_le in Hr1. apply Z.ltb_lt in Hr2.
  assert (Hw : wrap64 (addr s + size s) <= addr s + size s).
  { apply wrap64_le. destruct Hs. lia. }
  eapply LibcFacts.bsearch_find; eauto.
  - apply addrfind_zero. unfold in_range.
    apply andb_true_intro; split; [now apply Z.leb_le | now apply Z.ltb_lt].
  - intros j q Hj Hq.
    assert (Hd : disjoint_before q s) by (eapply strongly_sorted_nth; eauto).
    assert (Hqb : sym_in_bounds q).
    { rewrite Forall_forall in Hb. apply Hb. eapply nth_error_In; eauto. }
    destruct Hd as [Hd1 Hd2].
    assert (wrap64 (addr q + size q) <= addr q + size q).
    { apply wrap64_le. destruct Hqb. lia. }
    unfold addrfind.
    destruct (Z.leb_spec (addr q) a); [|lia].
    destruct (Z.ltb_spec a (wrap64 (addr q + size q))); [lia|]. simpl.
    destruct (Z.ltb_spec a (addr q)); lia.
  - intros j q Hj Hq.
    assert (Hd : disjoint_before s q) by (eapply strongly_sorted_nth; eauto).
    destruct Hd as [Hd1 Hd2].
    unfold addrfind.
    destruct (Z.leb_spec (addr q) a); [lia|]. simpl.
    destruct (Z.ltb_spec a (addr q)); lia.
Qed.

Section Lookup.
Variable hdr : header.

(** C9.  Address range search uses the half-open interval
    [addr, addr + size): in the table with foo at 0x1000 of size 16 and
    bar at 0x1020 of size 32, 0x1005 resolves to foo, 0x1018 to nothing
    and 0x1030 to bar, in the search of the table and, the dynamic table
    and the map list being empty, in [find_symtabs]; in any table, an
    address that no entry's interval holds (below all, above all, in a
    gap) is not found, and what is found holds the address in its
    interval. *)
Theorem range_search_half_open (fs : fsys) (k tabs : symtabs)
    (tab : list sym) (a : Z) :
  syms (stab tabs) = [Ex.foo; Ex.bar] ->
  syms (dsymtab tabs) = [] -> maps tabs = [] ->
  is_kernel_address hdr 0x1005 = false ->
  is_kernel_address hdr 0x1018 = false ->
  is_kernel_address hdr 0x1030 = false ->
  (forall s, In s tab -> in_range a s = false) ->
  Libc.bsearch addrfind 0x1005 [Ex.foo; Ex.bar] = Some 0%nat /\
  Libc.bsearch addrfind 0x1018 [Ex.foo; Ex.bar] = None /\
  Libc.bsearch addrfind 0x1030 [Ex.foo; Ex.bar] = Some 1%nat /\
  find_symtabs hdr fs k tabs 0x1005 = Some (Some (StabSym 0), tabs) /\
  find_symtabs hdr fs k tabs 0x1018 = Some (None, tabs) /\
  find_symtabs hdr fs k tabs 0x1030 = Some (Some (StabSym 1), tabs) /\
  Libc.bsearch addrfind a tab = None /\
  (forall b i, Libc.bsearch addrfind b tab = Some i ->
     exists s, nth_error tab i = Some s /\ addr s <= b < wrap64 (addr s + size s)).
Proof.
  intros Hs Hd Hm K1 K2 K3 Hgap.
  unfold find_symtabs. rewrite K1, K2, K3, Hs, Hd, Hm.
  repeat split; try reflexivity.
  - apply LibcFacts.bsearch_miss. intros p Hp Hz.
    apply addrfind_zero in Hz. rewrite (Hgap p Hp) in Hz. discriminate.
  - intros b i Hb. destruct (LibcFacts.bsearch_hit _ _ _ _ Hb) as (p & Hp & Hz).
    exists p. split; [exact Hp|].
    apply addrfind_zero in Hz. unfold in_range in Hz.
    apply andb_prop in Hz as [H1 H2].
    apply Z.leb_le in H1. apply Z.ltb_lt in H2. lia.
Qed.

(** C5, as amended.  For a non-kernel address held by an entry of a main
    static table that satisfies the invariant of the data model,
    [find_symtabs] returns that entry, whatever the dynamic table and
    the map list hold; and an address the static table misses but the
    dynamic table finds is answered from the dynamic table, before the
    map list is looked at. *)
Theorem static_table_first (fs : fsys) (k tabs : symtabs) (a : Z) (i : nat) (s : sym) :
  is_kernel_address hdr a = false ->
  table_invariant (syms (stab tabs)) ->
  Forall sym_in_bounds (syms (stab tabs)) ->
  nth_error (syms (stab tabs)) i = Some s ->
  in_range a s = true ->
  find_symtabs hdr fs k tabs a = Some (Some (StabSym i), tabs) /\
  (forall tabs' b j,
     is_kernel_address hdr b = false ->
     Libc.bsearch addrfind b (syms (stab tabs')) = None ->
     Libc.bsearch addrfind b (syms (dsymtab tabs')) = Some j ->
     find_symtabs hdr fs k tabs' b = Some (Some (DsymtabSym j), tabs')).
Proof.
  intros Hk Hinv Hb Hi Hr. split.
  - unfold find_symtabs. rewrite Hk.
    now rewrite (bsearch_addrfind_find _ _ _ _ Hinv Hb Hi Hr).
  - intros tabs' b j Hkb Hs Hd. unfold find_symtabs. now rewrite Hkb, Hs, Hd.
Qed.

(** C6.  A kernel address is answered from the kernel table alone: the
    result is the search of [ksymtabs] at the real address whatever the
    user tables are, the user tables are left as they were, and it is
    "not found" while the kernel table is not loaded.  A non-kernel
    address is answered the same way whatever the kernel table is. *)
Theorem kernel_user_separation (fs : fsys) (k tabs : symtabs) (a : Z) :
  (is_kernel_address hdr a = true ->
     find_symtabs hdr fs k tabs a =
       Some (match get_kernel_symtab k with
             | None => None
             | Some ktab =>
                 option_map KernelSym
                   (Libc.bsearch addrfind (get_real_address hdr a) (syms ktab))
             end, tabs) /\
     (forall fs' tabs',
        option_map fst (find_symtabs hdr fs' k tabs' a) =
        option_map fst (find_symtabs hdr fs k tabs a)) /\
     (loaded k = false -> find_symtabs hdr fs k tabs a = Some (None, tabs))) /\
  (is_kernel_address hdr a = false ->
     forall k', find_symtabs hdr fs k' tabs a = find_symtabs hdr fs k tabs a).
Proof.
  split.
  - intros Hk. unfold find_symtabs. rewrite Hk. repeat split.
    + destruct (get_kernel_symtab k); reflexivity.
    + intros fs' tabs'. destruct (get_kernel_symtab k); reflexivity.
    + intros Hl. unfold get_kernel_symtab. now rewrite Hl.
  - intros Hk k'. unfold find_symtabs. now rewrite Hk.
Qed.

(** C8.  Writing a cache file creates it exclusively: when the file is
    there, [save_symbol_file] and [save_module_symbol] return with the
    files and the table set as they were; when the file cannot be
    opened for another reason, they end in [pr_err]. *)
Theorem save_exclusive_create (fs : fsys) (tabs : symtabs) (dir exename : string)
    (tab : symtab) (symfile : string) (offset : Z) :
  (fs_text fs (symfile_path (Some dir) exename) <> None ->
     save_symbol_file hdr fs tabs dir exename = Some (Done (fs, tabs))) /\
  (fopen_wx fs (symfile_path (Some dir) exename) = Eother ->
     save_symbol_file hdr fs tabs dir exename = Some Fatal) /\
  (fs_text fs symfile <> None ->
     save_module_symbol fs tab symfile offset = Done fs) /\
  (fopen_wx fs symfile = Eother ->
     save_module_symbol fs tab symfile offset = Fatal).
Proof.
  unfold save_symbol_file, save_module_symbol, fopen_wx. repeat split.
  - intros H. destruct (fs_text fs (symfile_path (Some dir) exename)); [reflexivity|congruence].
  - destruct (fs_text fs (symfile_path (Some dir) exename)); [discriminate|].
    destruct (fs_deny fs _); [reflexivity|discriminate].
  - intros H. destruct (fs_text fs symfile); [reflexivity|congruence].
  - destruct (fs_text fs symfile); [discriminate|].
    destruct (fs_deny fs _); [reflexivity|discriminate].
Qed.

End Lookup.

(** ** The slots of the dynamic table *)

Lemma find_pos_bound (a : Z) (tab : list sym) (k j : nat) :
  find_pos a tab k = Some j -> (k <= j < k + List.length tab)%nat.
Proof.
  revert k. induction tab as [|s tab IH]; intros k; simpl; [discriminate|].
  destruct (addr s =? a).
  - intros H; inversion H; lia.
  - intros H. apply IH in H. lia.
Qed.

Lemma find_pos_nth (a : Z) (tab : list sym) (k j : nat) :
  find_pos a tab k = Some j ->
  exists s, nth_error tab (j - k) = Some s /\ addr s = a.
Proof.
  revert k. induction tab as [|s tab IH]; intros k; simpl; [discriminate|].
  destruct (Z.eqb_spec (addr s) a).
  - intros H; inversion H; subst. rewrite Nat.sub_diag. simpl. eauto.
  - intros H. pose proof (find_pos_bound _ _ _ _ H) as Hb.
    apply IH in H. destruct H as (s' & Hs & Ha).
    replace (j - k)%nat with (S (j - S k)) by lia. simpl. eauto.
Qed.

Lemma find_pos_in (tab : list sym) (s : sym) (k : nat) :
  In s tab -> exists j, find_pos (addr s) tab k = Some j.
Proof.
  revert k. induction tab as [|x tab IH]; intros k Hin; simpl; [contradiction|].
  destruct (addr x =? addr s) eqn:E; [eauto|].
  destruct Hin as [->|Hin]; [rewrite Z.eqb_refl in E; discriminate|].
  now apply IH.
Qed.

(** After [sort_dynsymtab] every slot is a pointer into the table. *)
Lemma sort_dynsymtab_slots_valid (d : symtab) : slots_valid (sort_dynsymtab d).
Proof.
  unfold slots_valid, sort_dynsymtab; simpl. split.
  - now rewrite !length_map, LibcFacts.qsort_length.
  - rewrite map_map. apply Forall_forall. intros p Hp.
    apply in_map_iff in Hp as (s & <- & Hs). simpl.
    assert (Hin : In s (Libc.qsort addrsort (syms d))).
    { eapply Permutation_in; [apply Permutation_sym, LibcFacts.qsort_perm | exact Hs]. }
    destruct (find_pos_in _ _ 0%nat Hin) as (j & Hj). rewrite Hj.
    exists j. split; [reflexivity|].
    apply find_pos_bound in Hj. lia.
Qed.

Lemma slots_valid_nil (b : bool) (t0 : symtab) :
  slots_valid t0 -> syms t0 = [] -> slots_valid (mk_symtab [] (sym_names t0) b).
Proof.
  intros [Hl Hf] He. unfold slots_valid; simpl. rewrite He in Hl.
  destruct (sym_names t0); [split; [reflexivity|constructor] | discriminate].
Qed.

Lemma slots_valid_unload (t : symtab) : slots_valid (unload_symtab t).
Proof. split; [reflexivity | constructor]. Qed.

Section Slots.
Variable hdr : header.

Lemma load_rels_length (st : plt_scan) (relplt dynsym : Elf.Shdr) (idxs : list nat)
    (offset fl : Z) (tab tab' : list sym) :
  load_rels hdr st relplt dynsym idxs offset fl tab = Some (Some tab') ->
  (List.length tab <= List.length tab')%nat.
Proof.
  revert tab. induction idxs as [|i idxs IH]; intros tab; cbn [load_rels].
  - intros H; inversion H; lia.
  - destruct (Elf.gelf_getrel relplt i); [|discriminate].
    destruct (Elf.gelf_getsym dynsym _); [|discriminate].
    intros H. apply IH in H. rewrite length_app in H. simpl in H. lia.
Qed.

Lemma load_dynsymtab_slots_valid (d0 : symtab) (file : option (option Elf.image))
    (offset fl ret : Z) (d : symtab) :
  slots_valid d0 ->
  load_dynsymtab hdr d0 file offset fl = Some (ret, d) -> slots_valid d.
Proof.
  intros Hv. unfold load_dynsymtab.
  repeat match goal with
  | |- Some _ = Some _ -> _ =>
      let H := fresh in intros H; inversion H; subst; clear H;
      try exact Hv; try apply slots_valid_unload
  | |- None = Some _ -> _ => discriminate
  | |- context [match ?x with _ => _ end] => destruct x eqn:?
  end.
  - match goal with
    | H : load_rels _ _ _ _ _ _ _ _ = Some (Some ?l), E : (List.length ?l =? 0)%nat = true |- _ =>
        apply load_rels_length in H; apply Nat.eqb_eq in E;
        assert (He : syms d0 = []) by (destruct (syms d0); [reflexivity | simpl in *; lia]);
        destruct l; [|discriminate]
    end.
    apply slots_valid_nil; assumption.
  - apply sort_dynsymtab_slots_valid.
Qed.

Lemma push_sym_length (tab : list sym) (s : sym) :
  List.length (push_sym tab s) = S (List.length tab).
Proof.
  induction tab as [|p [|q rest] IH]; simpl in *; try reflexivity.
  now rewrite IH.
Qed.

Lemma map_last_length (f : sym -> sym) (tab : list sym) :
  List.length (map_last f tab) = List.length tab.
Proof.
  induction tab as [|p [|q rest] IH]; simpl in *; try reflexivity.
  now rewrite IH.
Qed.

Lemma read_line_dsymtab_length (route : bool) (offset : Z) (r r' : reader) (line : string) :
  read_line hdr route offset r line = Some r' ->
  (List.length (rd_dsymtab r) <= List.length (rd_dsymtab r'))%nat.
Proof.
  unfold read_line.
  destruct (parse_line line) as [[[[a t] nm]|]|];
    [|intros H; inversion H; lia|discriminate].
  destruct ((a =? rd_prev_addr r) && Ascii.eqb t (rd_prev_type r)).
  - unfold cur_tab, set_tab. destruct (rd_cur r).
    + destruct (rd_stab r); [discriminate|]. intros H; inversion H; simpl; lia.
    + pose proof (map_last_length (fun s => set_name s (sys_rename (name s) nm))
                    (rd_dsymtab r)) as Hm.
      destruct (rd_dsymtab r) eqn:E; [discriminate|]. intros [= <-].
      apply Nat.eq_le_incl. symmetry. exact Hm.
  - destruct (Libc.strchr allowed_types t); [|intros H; inversion H; lia].
    destruct (route && Ascii.eqb t ST_PLT); intros H; inversion H; simpl; [|lia].
    rewrite push_sym_length. lia.
Qed.

Lemma read_lines_dsymtab_length (route : bool) (offset : Z) (lines : list string)
    (r r' : reader) :
  read_lines hdr route offset r lines = Some r' ->
  (List.length (rd_dsymtab r) <= List.length (rd_dsymtab r'))%nat.
Proof.
  revert r. induction lines as [|l lines IH]; intros r; simpl.
  - intros H; inversion H; lia.
  - destruct (read_line hdr route offset r l) as [r1|] eqn:E; [|discriminate].
    intros H. apply IH in H. apply read_line_dsymtab_length in E. lia.
Qed.

Lemma load_symbol_file_slots_valid (fs : fsys) (tabs tabs' : symtabs) (symfile : string)
    (offset ret : Z) :
  slots_valid (dsymtab tabs) ->
  load_symbol_file hdr fs tabs symfile offset = Some (ret, tabs') ->
  slots_valid (dsymtab tabs').
Proof.
  intros Hv. unfold load_symbol_file.
  destruct (fs_text fs symfile); [|intros H; inversion H; subst; exact Hv].
  destruct (read_lines _ _ _ _ _) as [r|] eqn:E; [|discriminate].
  intros H; inversion H; subst; clear H. simpl.
  apply read_lines_dsymtab_length in E. simpl in E.
  destruct (Nat.eqb_spec (List.length (rd_dsymtab r)) 0) as [Hz|Hz].
  - destruct (rd_dsymtab r); [|discriminate].
    apply slots_valid_nil; [exact Hv|].
    destruct (syms (dsymtab tabs)); [reflexivity | simpl in *; lia].
  - apply sort_dynsymtab_slots_valid.
Qed.

Lemma load_symtabs_slots_valid (fs : fsys) (tabs0 tabs : symtabs) (dir : option string)
    (filename : string) :
  slots_valid (dsymtab tabs0) ->
  load_symtabs hdr fs tabs0 dir filename = Some tabs ->
  slots_valid (dsymtab tabs).
Proof.
  intros Hv. unfold load_symtabs.
  destruct (loaded tabs0); [intros H; inversion H; subst; exact Hv|].
  set (tabs1 := mk_symtabs false dir _ _ _ _).
  set (offset := if flag_set _ _ then _ else _).
  match goal with |- match ?c with _ => _ end = _ -> _ => destruct c as [t1|] eqn:Ec end;
    [|discriminate].
  assert (Hv1 : slots_valid (dsymtab t1)).
  { destruct dir; [|inversion Ec; subst; exact Hv].
    destruct (flag_set _ _); [|inversion Ec; subst; exact Hv].
    destruct (fs_text fs _); [|inversion Ec; subst; exact Hv].
    destruct (load_symbol_file _ _ _ _ _) as [[r t]|] eqn:El; [|discriminate].
    inversion Ec; subst. eapply load_symbol_file_slots_valid; [|exact El]. exact Hv. }
  set (t2 := if (nr_sym (stab t1) =? 0)%nat then _ else t1).
  assert (Hv2 : slots_valid (dsymtab t2)).
  { unfold t2. destruct (nr_sym (stab t1) =? 0)%nat; exact Hv1. }
  destruct (nr_sym (dsymtab t2) =? 0)%nat.
  - destruct (load_dynsymtab _ _ _ _ _) as [[r d]|] eqn:Ed; [|discriminate].
    intros H; inversion H; subst; simpl.
    eapply load_dynsymtab_slots_valid; [|exact Ed]. exact Hv2.
  - intros H; inversion H; subst; simpl. exact Hv2.
Qed.

(** C10.  In a table set that [load_symtabs] has produced, [find_dynsym]
    returns NULL for every index at or above the number of dynamic
    symbols and otherwise a pointer to an entry of the dynamic table; it
    never reads outside [sym_names]. *)
Theorem find_dynsym_bounds (fs : fsys) (tabs0 tabs : symtabs) (dir : option string)
    (filename : string) (idx : nat) :
  slots_valid (dsymtab tabs0) ->
  load_symtabs hdr fs tabs0 dir filename = Some tabs ->
  ((count_dynsym tabs <= idx)%nat -> find_dynsym tabs idx = Some None) /\
  ((idx < count_dynsym tabs)%nat ->
     exists k, find_dynsym tabs idx = Some (Some (SymPtr k)) /\
               (k < count_dynsym tabs)%nat).
Proof.
  intros Hv Hl.
  destruct (load_symtabs_slots_valid _ _ _ _ _ Hv Hl) as [Hlen Hall].
  unfold find_dynsym, count_dynsym, nr_sym. split; intros Hi.
  - destruct (Nat.leb_spec (List.length (syms (dsymtab tabs))) idx); [reflexivity|lia].
  - destruct (Nat.leb_spec (List.length (syms (dsymtab tabs))) idx); [lia|].
    destruct (nth_error (sym_names (dsymtab tabs)) idx) as [p|] eqn:Hp.
    + rewrite Forall_forall in Hall.
      destruct (Hall p (nth_error_In _ _ Hp)) as (k & -> & Hk). eauto.
    + apply nth_error_None in Hp. lia.
Qed.

End Slots.

(** ** PLT slots after the sort *)

Lemma nodup_map_inj {A B} (f : A -> B) (l : list A) (x y : A) :
  NoDup (map f l) -> In x l -> In y l -> f x = f y -> x = y.
Proof.
  induction l as [|a l IH]; simpl; [contradiction|].
  intros Hn Hx Hy Hf. inversion Hn as [|? ? Hna Hn']; subst.
  destruct Hx as [->|Hx], Hy as [->|Hy]; auto.
  - exfalso. apply Hna. rewrite Hf. now apply in_map.
  - exfalso. apply Hna. rewrite <- Hf. now apply in_map.
Qed.

(** When the addresses of the entries are pairwise distinct, slot [i] of
    the sorted table points to the entry that stood at position [i]
    before the sort. *)
Lemma sort_dynsymtab_slot (d : symtab) (i : nat) (s : sym) :
  NoDup (map addr (syms d)) ->
  nth_error (syms d) i = Some s ->
  exists k, nth_error (sym_names (sort_dynsymtab d)) i = Some (SymPtr k) /\
            nth_error (syms (sort_dynsymtab d)) k = Some s.
Proof.
  intros Hn Hi. unfold sort_dynsymtab; simpl.
  set (sorted := Libc.qsort addrsort (syms d)).
  assert (Hperm : Permutation sorted (syms d)) by apply LibcFacts.qsort_perm.
  assert (Hin : In s sorted).
  { eapply Permutation_in; [apply Permutation_sym, Hperm|]. eapply nth_error_In; eauto. }
  destruct (find_pos_in _ _ 0%nat Hin) as (k & Hk).
  exists k. split.
  - rewrite map_map. rewrite nth_error_map, Hi. simpl. now rewrite Hk.
  - destruct (find_pos_nth _ _ _ _ Hk) as (s' & Hs' & Ha).
    rewrite Nat.sub_0_r in Hs'. rewrite Hs'. f_equal.
    eapply (nodup_map_inj addr (syms d)); auto.
    + eapply Permutation_in; [exact Hperm|]. eapply nth_error_In; eauto.
    + eapply nth_error_In; eauto.
Qed.

(** Two entries with one address share one slot value, whatever order
    the sort leaves them in: the search of [sort_dynsymtab] only looks at
    the address. *)
Lemma sort_dynsymtab_alias (d : symtab) (i j : nat) (s1 s2 : sym) :
  nth_error (syms d) i = Some s1 -> nth_error (syms d) j = Some s2 ->
  addr s1 = addr s2 ->
  nth_error (sym_names (sort_dynsymtab d)) i = nth_error (sym_names (sort_dynsymtab d)) j.
Proof.
  intros Hi Hj Ha. unfold sort_dynsymtab. cbn [sym_names].
  rewrite map_map, !nth_error_map, Hi, Hj. cbn [option_map]. now rewrite Ha.
Qed.

(** C3, the failing input.  Two PLT relocations whose symbols are not
    functions both get the address 0; after the sort both slots point to
    the first entry, so index 1 answers with the symbol of relocation 0
    ("a") where relocation 1 names "b". *)
Theorem plt_slot_lost_on_equal_addresses :
  exists tabs,
    load_symtabs Ex.x86_64 (Ex.app_files Ex.two_untyped_plt) empty_symtabs None
                 "/bin/app" = Some tabs /\
    map name (syms (dsymtab tabs)) = ["a"; "b"]%string /\
    find_dynsym tabs 0 = Some (Some (SymPtr 0)) /\
    find_dynsym tabs 1 = Some (Some (SymPtr 0)) /\
    option_map name (deref (syms (dsymtab tabs)) (SymPtr 0)) = Some "a"%string.
Proof.
  eexists. split; [vm_compute; reflexivity|]. vm_compute. repeat split.
Qed.

(** ** Failure of the ELF loaders *)

Section Failure.
Variable hdr : header.

(** A failure met before the first entry is read (no string table index
    for the section headers, program headers that cannot be read, a
    section header that cannot be read) returns -1 and leaves the table
    as it was. *)
Lemma load_symtab_early_failure (t0 : symtab) (elf : Elf.image) (offset fl : Z) :
  adjust_offset hdr elf offset fl = None \/
  Elf.e_shstrndx elf = None \/
  scan_symtab (Elf.e_scn elf) None = None ->
  load_symtab hdr t0 (Some (Some elf)) offset fl = (-1, t0).
Proof.
  unfold load_symtab. intros [H|[H|H]].
  - now rewrite H.
  - destruct (adjust_offset hdr elf offset fl); [|reflexivity]. now rewrite H.
  - destruct (adjust_offset hdr elf offset fl); [|reflexivity].
    destruct (Elf.e_shstrndx elf); [|reflexivity]. now rewrite H.
Qed.

(** The PLT loader empties its table on the same failures, and when a
    relocation cannot be read. *)
Lemma load_dynsymtab_failure_unloads (d0 : symtab) (elf : Elf.image) (offset fl : Z) :
  adjust_offset hdr elf offset fl = None \/
  Elf.e_shstrndx elf = None \/
  scan_plt (Elf.e_scn elf) (mk_plt_scan None None 0 Elf.SHT_NULL 0 1) = None ->
  load_dynsymtab hdr d0 (Some (Some elf)) offset fl = Some (-1, unload_symtab d0).
Proof.
  unfold load_dynsymtab. intros [H|[H|H]].
  - now rewrite H.
  - destruct (adjust_offset hdr elf offset fl); [|reflexivity]. now rewrite H.
  - destruct (adjust_offset hdr elf offset fl); [|reflexivity].
    destruct (Elf.e_shstrndx elf); [|reflexivity]. now rewrite H.
Qed.

End Failure.

(** C4, the failing input.  The symbol table announces two entries, the
    first is a function and the second cannot be read: [load_symtab]
    returns -1 and the table keeps the first entry, unsorted and without
    name index, where the PLT loader would have emptied it. *)
Theorem load_symtab_keeps_partial_table :
  load_symtab Ex.x86_64 empty_symtab (Some (Some Ex.truncated_symtab)) 0 0 =
    (-1, mk_symtab [mk_sym 0x1100 64 ST_GLOBAL "main"] [] false).
Proof. vm_compute. reflexivity. Qed.

(** The same defect in the relocation section of the PLT loader: the
    entry read so far is released. *)
Lemma load_dynsymtab_drops_partial_table :
  load_dynsymtab Ex.x86_64 empty_symtab (Some (Some Ex.truncated_plt)) 0 0 =
    Some (-1, empty_symtab).
Proof. vm_compute. reflexivity. Qed.

(** ** Duplicate lines in the cache reader *)

Lemma push_sym_cons2 (p q : sym) (rest : list sym) (s : sym) :
  push_sym (p :: q :: rest) s = p :: push_sym (q :: rest) s.
Proof. reflexivity. Qed.

Lemma map_last_cons2 (f : sym -> sym) (p q : sym) (rest : list sym) :
  map_last f (p :: q :: rest) = p :: map_last f (q :: rest).
Proof. reflexivity. Qed.

Lemma push_sym_not_nil (tab : list sym) (s : sym) : push_sym tab s <> [].
Proof.
  intros H. pose proof (f_equal (@List.length sym) H) as Hl.
  rewrite push_sym_length in Hl. discriminate.
Qed.

Lemma map_last_push_sym (f : sym -> sym) (tab : list sym) (s : sym) :
  addr (f s) = addr s ->
  map_last f (push_sym tab s) = push_sym tab (f s).
Proof.
  intros Hf. induction tab as [|p tab IH]; [reflexivity|].
  destruct tab as [|q rest].
  - simpl. now rewrite Hf.
  - rewrite !push_sym_cons2.
    destruct (push_sym (q :: rest) s) as [|x l] eqn:E; [now apply push_sym_not_nil in E|].
    rewrite map_last_cons2. now rewrite IH.
Qed.

Lemma starts_with_append (lit rest : string) :
  Libc.starts_with lit (String.append lit rest) = true.
Proof.
  unfold Libc.starts_with. induction lit as [|c lit IH]; simpl.
  - now destruct rest.
  - destruct (ascii_dec c c); [exact IH|congruence].
Qed.

(** The rename: [SyS_xxx] stored, [sys_xxx] read, the same [xxx]. *)
Lemma sys_rename_alias (rest : string) :
  sys_rename (String.append "SyS_" rest) (String.append "sys_" rest)
  = String.append "sys_" rest.
Proof.
  unfold sys_rename. rewrite !starts_with_append. simpl.
  now rewrite String.eqb_refl.
Qed.

Section Reader.
Variable hdr : header.

Lemma read_line_fresh (route : bool) (offset : Z) (r : reader) (l : string)
    (a : Z) (t : ascii) (nm : string) :
  parse_line l = Some (Some (a, t, nm)) ->
  Libc.strchr allowed_types t <> None ->
  (a =? rd_prev_addr r) && Ascii.eqb t (rd_prev_type r) = false ->
  read_line hdr route offset r l =
    Some (let w := if route && Ascii.eqb t ST_PLT then InDsymtab else InStab in
          set_tab r w
            (push_sym (match w with InStab => rd_stab r | InDsymtab => rd_dsymtab r end)
               (mk_sym (wrap64 (a + offset)) 0 t (demangle hdr nm)))
            a t).
Proof.
  intros Hp Ha Hn. unfold read_line. rewrite Hp, Hn.
  destruct (Libc.strchr allowed_types t); [reflexivity|congruence].
Qed.


(** The lines that repeat the pair of a freshly stored entry only act on
    its name. *)
Lemma read_lines_duplicates (route : bool) (offset : Z) (w : which_tab)
    (a : Z) (t : ascii) (dups : list string) (lines : list string) :
  map parse_line lines = map (fun n => Some (Some (a, t, n))) dups ->
  forall (r : reader) (tab : list sym) (s : sym),
    rd_cur r = w -> rd_prev_addr r = a -> rd_prev_type r = t ->
    cur_tab r = push_sym tab s ->
    read_lines hdr route offset r lines =
      Some (set_tab r w
              (push_sym tab (set_name s (fold_left sys_rename dups (name s)))) a t).
Proof.
  revert dups. induction lines as [|l lines IH]; intros [|n dups] Hm; try discriminate;
    intros r tab s Hw Ha Ht Hc.
  - cbn [read_lines fold_left]. f_equal. unfold cur_tab in Hc. rewrite Hw in Hc.
    destruct r as [rs rd rc pa pt]; cbn in Hw, Ha, Ht, Hc |- *; subst rc pa pt.
    destruct s; destruct w; cbn in Hc; rewrite Hc; reflexivity.
  - cbn [map] in Hm. injection Hm as Hl Hrest. cbn [read_lines].
    unfold read_line. rewrite Hl, Ha, Ht, Z.eqb_refl, Ascii.eqb_refl. cbn [andb].
    rewrite Hc. destruct (push_sym tab s) eqn:E; [now apply push_sym_not_nil in E|].
    rewrite <- E, map_last_push_sym by reflexivity.
    rewrite Hw.
    rewrite (IH dups Hrest _ tab (set_name s (sys_rename (name s) n))).
    + f_equal. destruct r as [rs rd rc pa pt]; destruct w; reflexivity.
    + destruct w; reflexivity.
    + destruct w; reflexivity.
    + destruct w; reflexivity.
    + unfold cur_tab. destruct w; reflexivity.
Qed.

(** C7, as amended.  A run of consecutive lines with one (address, type)
    pair whose type letter is accepted, met after a different pair,
    stores exactly one entry, in the table the type selects; each line
    after the first only renames it, and a stored [SyS_xxx] followed by
    [sys_xxx] becomes [sys_xxx]. *)
Theorem duplicate_lines_collapse (route : bool) (offset : Z) (r : reader)
    (l1 : string) (lines : list string) (a : Z) (t : ascii) (n1 : string)
    (dups : list string) :
  parse_line l1 = Some (Some (a, t, n1)) ->
  map parse_line lines = map (fun n => Some (Some (a, t, n))) dups ->
  Libc.strchr allowed_types t <> None ->
  (a =? rd_prev_addr r) && Ascii.eqb t (rd_prev_type r) = false ->
  let w := if route && Ascii.eqb t ST_PLT then InDsymtab else InStab in
  let tab := match w with InStab => rd_stab r | InDsymtab => rd_dsymtab r end in
  read_lines hdr route offset r (l1 :: lines) =
    Some (set_tab r w
            (push_sym tab
               (mk_sym (wrap64 (a + offset)) 0 t
                       (fold_left sys_rename dups (demangle hdr n1))))
            a t) /\
  (forall rest, sys_rename (String.append "SyS_" rest) (String.append "sys_" rest)
                = String.append "sys_" rest).
Proof.
  intros Hp Hm Ha Hn w tab. split; [|apply sys_rename_alias].
  cbn [read_lines]. rewrite (read_line_fresh route offset r l1 a t n1 Hp Ha Hn).
  cbv zeta. fold w. fold tab.
  set (s1 := mk_sym (wrap64 (a + offset)) 0 t (demangle hdr n1)).
  rewrite (read_lines_duplicates route offset w a t dups lines Hm
             (set_tab r w (push_sym tab s1) a t) tab s1).
  - destruct r, w; reflexivity.
  - destruct w; reflexivity.
  - destruct w; reflexivity.
  - destruct w; reflexivity.
  - unfold cur_tab. destruct w; reflexivity.
Qed.

End Reader.

(** C7 as stated fails for a type letter outside the accepted set: two
    consecutive lines with the pair (0x1000, D) store no entry at all. *)
Lemma duplicate_lines_rejected_type :
  parse_line Ex.data_line_a = Some (Some (0x1000, "D"%char, "a"%string)) /\
  parse_line Ex.data_line_b = Some (Some (0x1000, "D"%char, "b"%string)) /\
  read_lines Ex.x86_64 true 0 (reader_init [] []) [Ex.data_line_a; Ex.data_line_b]
    = Some (reader_init [] []).
Proof. vm_compute. repeat split. Qed.

(** ** The static table after a load *)

Lemma qsort_addrsort_sorted (l : list sym) : Sorted addr_le (Libc.qsort addrsort l).
Proof.
  apply LibcFacts.qsort_sorted; intros x y; unfold addrsort, addr_le;
    destruct (Z.ltb_spec (addr y) (addr x)); destruct (Z.ltb_spec (addr x) (addr y)); lia.
Qed.

Section DedupLive.

Lemma nth_error_mid (pre : list sym) (c : sym) (post : list sym) :
  nth_error (pre ++ c :: post) (List.length pre) = Some c.
Proof. rewrite nth_error_app2, Nat.sub_diag by lia. reflexivity. Qed.

Lemma nth_error_mid1 (pre : list sym) (c next : sym) (post : list sym) :
  nth_error (pre ++ c :: next :: post) (List.length pre + 1) = Some next.
Proof. rewrite nth_error_app2, Nat.add_comm, Nat.add_sub by lia. reflexivity. Qed.

Lemma firstn_len_app (l1 l2 : list sym) : firstn (List.length l1) (l1 ++ l2) = l1.
Proof. induction l1; simpl; [reflexivity | now f_equal]. Qed.

Lemma skipn_len_app (l1 l2 : list sym) (n : nat) :
  skipn (List.length l1 + n) (l1 ++ l2) = skipn n l2.
Proof. induction l1; simpl; [reflexivity | assumption]. Qed.

Lemma memmove_step (pre : list sym) (c next : sym) (rest stale : list sym) :
  memmove_sym (pre ++ c :: next :: rest ++ stale)
              (List.length pre + 1) (List.length pre + 2) (List.length rest)
  = pre ++ c :: rest ++ skipn (List.length rest) (next :: rest ++ stale).
Proof.
  set (arr := pre ++ c :: next :: rest ++ stale).
  assert (H1 : firstn (List.length pre + 1) arr = pre ++ [c]).
  { unfold arr. replace (pre ++ c :: next :: rest ++ stale)
      with ((pre ++ [c]) ++ next :: rest ++ stale) by (now rewrite <- app_assoc).
    replace (List.length pre + 1)%nat with (List.length (pre ++ [c]))
      by (rewrite length_app; reflexivity).
    apply firstn_len_app. }
  assert (H2 : skipn (List.length pre + 2) arr = rest ++ stale).
  { unfold arr. apply (skipn_len_app pre (c :: next :: rest ++ stale) 2). }
  assert (H3 : skipn (List.length pre + 1 + List.length rest) arr
               = skipn (List.length rest) (next :: rest ++ stale)).
  { unfold arr. rewrite <- Nat.add_assoc.
    apply (skipn_len_app pre (c :: next :: rest ++ stale) (1 + List.length rest)). }
  unfold memmove_sym. rewrite H1, H2, H3, firstn_len_app.
  now rewrite <- app_assoc.
Qed.

(** The [while] loop on an array whose live part is [pre ++ c :: l]. *)
Lemma dedup_while_live (l : list sym) :
  l <> [] ->
  forall (fuel : nat) (pre : list sym) (c : sym) (stale : list sym),
    (List.length l <= fuel)%nat ->
    exists stale',
      dedup_while fuel (List.length pre) (pre ++ c :: l ++ stale)
                  (List.length pre + 1 + List.length l)
      = (pre ++ c :: dedup_tail c l ++ stale',
         (List.length pre + 1 + List.length (dedup_tail c l))%nat).
Proof.
  induction l as [|next rest IH]; intros Hne fuel pre c stale Hf; [congruence|].
  destruct fuel as [|fuel]; [simpl in Hf; lia|].
  cbn [dedup_while]. rewrite nth_error_mid.
  change ((next :: rest) ++ stale) with (next :: rest ++ stale).
  rewrite nth_error_mid1. cbn [dedup_tail].
  destruct (addr c =? addr next); [|exists stale; reflexivity].
  replace (List.length pre + 1 + List.length (next :: rest) - List.length pre - 2)%nat
    with (List.length rest) by (simpl; lia).
  rewrite memmove_step.
  replace (List.length pre + 1 + List.length (next :: rest) - 1)%nat
    with (List.length pre + 1 + List.length rest)%nat by (simpl; lia).
  destruct (Nat.leb_spec (List.length pre + 1 + List.length rest) (List.length pre + 2));
    destruct (Nat.leb_spec (List.length rest) 1); try lia.
  - eexists; reflexivity.
  - apply IH; [destruct rest; simpl in *; [lia|congruence] | simpl in Hf; lia].
Qed.

Lemma dedup_tail_length (c : sym) (l : list sym) :
  (List.length (dedup_tail c l) <= List.length l)%nat.
Proof.
  induction l as [|x rest IH]; simpl; [lia|].
  destruct (addr c =? addr x); [|simpl; lia].
  destruct (List.length rest <=? 1)%nat; lia.
Qed.

(** The [for] loop on an array whose live part is [pre ++ l]. *)
Lemma dedup_for_live (fuel : nat) :
  forall (pre l stale : list sym),
    (List.length l <= fuel)%nat ->
    exists stale',
      dedup_for fuel (List.length pre) (pre ++ l ++ stale)
                (List.length pre + List.length l)
      = (pre ++ dedup_from fuel l ++ stale',
         (List.length pre + List.length (dedup_from fuel l))%nat).
Proof.
  induction fuel as [|fuel IH]; intros pre l stale Hf.
  - destruct l; [|simpl in Hf; lia]. exists stale. reflexivity.
  - cbn [dedup_for dedup_from].
    destruct l as [|c [|x tl]].
    + simpl. rewrite Nat.add_0_r.
      destruct (Nat.ltb_spec (List.length pre) (List.length pre - 1)); [lia|].
      exists stale. reflexivity.
    + simpl List.length.
      destruct (Nat.ltb_spec (List.length pre) (List.length pre + 1 - 1)); [lia|].
      exists stale. reflexivity.
    + destruct (Nat.ltb_spec (List.length pre) (List.length pre + List.length (c :: x :: tl) - 1));
        [|simpl in *; lia].
      destruct (dedup_while_live (x :: tl) ltac:(congruence)
                  (List.length pre + List.length (c :: x :: tl))%nat pre c stale
                  ltac:(simpl; lia)) as (stale1 & Hw).
      replace (List.length pre + 1 + List.length (x :: tl))%nat
        with (List.length pre + List.length (c :: x :: tl))%nat in Hw by (simpl; lia).
      change (pre ++ (c :: x :: tl) ++ stale) with (pre ++ c :: (x :: tl) ++ stale).
      rewrite Hw.
      pose proof (dedup_tail_length c (x :: tl)) as Hlen.
      remember (dedup_tail c (x :: tl)) as T eqn:HT.
      destruct (IH (pre ++ [c]) T stale1 ltac:(simpl in *; lia)) as (stale2 & Hfor).
      rewrite length_app in Hfor. cbn [List.length] in Hfor.
      rewrite <- app_assoc in Hfor. cbn [app] in Hfor.
      rewrite Hfor. exists stale2. f_equal.
      * now rewrite <- app_assoc.
      * simpl. lia.
Qed.

(** The array code removes what the list functions remove; the fuel of
    the model never runs out. *)
Lemma remove_duplicates_live (tab : list sym) :
  remove_duplicates tab = dedup_from (List.length tab) tab.
Proof.
  unfold remove_duplicates.
  destruct (dedup_for_live (List.length tab) [] tab [] (Nat.le_refl _)) as (stale & H).
  simpl in H. rewrite app_nil_r in H. rewrite H.
  rewrite firstn_app, firstn_all, Nat.sub_diag, firstn_O, app_nil_r. reflexivity.
Qed.

End DedupLive.

Section DedupSorted.

Lemma dedup_tail_suffix (c : sym) (l : list sym) :
  exists pre, l = pre ++ dedup_tail c l.
Proof.
  induction l as [|x rest IH]; [exists []; reflexivity|].
  cbn [dedup_tail]. destruct (addr c =? addr x); [|exists []; reflexivity].
  destruct (List.length rest <=? 1)%nat.
  - exists [x]. reflexivity.
  - destruct IH as (pre & Hp). exists (x :: pre). simpl. now f_equal.
Qed.





Lemma ends_in_equal_triple_skip (c x : sym) (rest : list sym) :
  addr c = addr x -> (2 <= List.length rest)%nat ->
  ends_in_equal_triple (c :: rest) = ends_in_equal_triple (c :: x :: rest).
Proof.
  intros He Hl. destruct rest as [|y [|z [|u r]]]; simpl in Hl; try lia.
  - cbn [ends_in_equal_triple]. now rewrite He.
  - reflexivity.
Qed.


Lemma dedup_from_short (fuel : nat) (l : list sym) :
  (List.length l <= 1)%nat -> dedup_from fuel l = l.
Proof.
  destruct fuel; [reflexivity|]. destruct l as [|c [|x tl]]; simpl; try reflexivity; lia.
Qed.



(** Fuel beyond the length of the list changes nothing. *)
Lemma dedup_from_fuel (fuel fuel' : nat) (l : list sym) :
  (List.length l <= fuel)%nat -> (List.length l <= fuel')%nat ->
  dedup_from fuel l = dedup_from fuel' l.
Proof.
  revert fuel' l. induction fuel as [|fuel IH]; intros fuel' l H1 H2.
  - destruct l; [|simpl in H1; lia]. now destruct fuel'.
  - destruct fuel' as [|fuel']; [destruct l; [reflexivity|simpl in H2; lia]|].
    destruct l as [|c [|x tl]]; try reflexivity.
    cbn [dedup_from]. f_equal.
    pose proof (dedup_tail_length c (x :: tl)) as Hlen.
    apply IH; simpl in *; lia.
Qed.





(** The other direction, for the record: a sorted table that ends in
    three entries with one address keeps two of them. *)
Lemma dedup_tail_closing_run (c : sym) (l : list sym) :
  ends_in_equal_triple (c :: l) = true ->
  (exists r, dedup_tail c l = [r] /\ addr r = addr c) \/
  ends_in_equal_triple (dedup_tail c l) = true.
Proof.
  induction l as [|x rest IH]; intros He; [discriminate|].
  cbn [dedup_tail].
  destruct (Z.eqb_spec (addr c) (addr x)) as [Hcx|Hne].
  - destruct (Nat.leb_spec (List.length rest) 1).
    + destruct rest as [|r [|r2 rest2]]; [discriminate| |simpl in *; lia].
      cbn [ends_in_equal_triple] in He. apply andb_prop in He as [_ He].
      apply Z.eqb_eq in He. left. exists r. split; [reflexivity|lia].
    + apply IH. rewrite (ends_in_equal_triple_skip c x rest Hcx) by lia. exact He.
  - right. destruct rest as [|y [|z rest2]]; try discriminate.
    + cbn [ends_in_equal_triple] in He. apply andb_prop in He as [He _].
      apply Z.eqb_eq in He. contradiction.
    + exact He.
Qed.

Lemma dedup_from_closing_run (fuel : nat) (l : list sym) :
  (List.length l <= fuel)%nat ->
  ends_in_equal_triple l = true -> ~ Sorted addr_lt (dedup_from fuel l).
Proof.
  revert l. induction fuel as [|fuel IH]; intros l Hf He.
  - destruct l; [discriminate|simpl in Hf; lia].
  - destruct l as [|c [|x tl]]; try discriminate.
    cbn [dedup_from].
    pose proof (dedup_tail_length c (x :: tl)) as Hlen.
    destruct (dedup_tail_closing_run c (x :: tl) He) as [(r & Hr & Ha)|Ht].
    + rewrite Hr, dedup_from_short by (simpl; lia).
      intros H. inversion H as [|? ? _ Hd]; subst. inversion Hd; subst.
      unfold addr_lt in *. lia.
    + intros H. inversion H; subst.
      eapply (IH (dedup_tail c (x :: tl))); [simpl in *; lia|exact Ht|assumption].
Qed.

Lemma remove_duplicates_closing_run (tab : list sym) :
  ends_in_equal_triple tab = true -> ~ Sorted addr_lt (remove_duplicates tab).
Proof.
  intros He. rewrite remove_duplicates_live. now apply dedup_from_closing_run.
Qed.

End DedupSorted.

Section StaticTable.
Variable hdr : header.

Lemma load_symtab_success (t0 : symtab) (file : option (option Elf.image))
    (offset fl : Z) (t : symtab) :
  load_symtab hdr t0 file offset fl = (0, t) ->
  exists entries, t = finish_symtab entries.
Proof.
  unfold load_symtab.
  repeat match goal with
  | |- (_, _) = (_, _) -> _ =>
      let H := fresh in intros H; inversion H; subst; clear H; eauto
  | |- context [match ?x with _ => _ end] => destruct x eqn:?
  end.
Qed.

(** The entry loop adds, index by index, the entries of the function
    symbols. *)
Lemma load_entries_exact (sec : Elf.Shdr) (offset fl : Z) (idxs : list nat) :
  forall tab tab',
    load_entries hdr sec idxs offset fl tab = (true, tab') ->
    tab' = tab ++ flat_map (entries_of_index hdr sec offset fl) idxs.
Proof.
  induction idxs as [|i rest IH]; intros tab tab'; cbn [load_entries flat_map].
  - intros H. inversion H. now rewrite app_nil_r.
  - unfold entries_of_index at 1, entry_of_symbol.
    destruct (Elf.gelf_getsym sec i) as [es|]; [|discriminate].
    destruct (Elf.st_size es =? 0); [cbn [app]; apply IH|].
    destruct (negb (Elf.GELF_ST_TYPE (Elf.st_info es) =? Elf.STT_FUNC));
      [cbn [app]; apply IH|].
    intros H. apply IH in H. rewrite H, <- app_assoc. reflexivity.
Qed.




End StaticTable.



(** The closing run of three: the loop stops one entry early and two
    entries with the address 0x1000 stay in the table. *)
Lemma dedup_leaves_equal_pair :
  map triple
      (syms (snd (load_symtab Ex.x86_64 empty_symtab (Some (Some Ex.three_aliases)) 0 0)))
  = [(0x1000, ST_GLOBAL, "f"%string); (0x1000, ST_GLOBAL, "f_alias2"%string)].
Proof. vm_compute. reflexivity. Qed.

(** ** The text of a cache file *)

Section Text.
Import Libc.
Local Open Scope string_scope.

Lemma digit_cases (d : Z) :
  0 <= d < 16 -> In d [0; 1; 2; 3; 4; 5; 6; 7; 8; 9; 10; 11; 12; 13; 14; 15].
Proof. intros H. simpl. lia. Qed.

Ltac each_digit d H :=
  apply digit_cases in H; simpl in H;
  repeat (destruct H as [<-|H]; [vm_compute; intuition congruence|]);
  contradiction.

Lemma hexval_hexchar (d : Z) : 0 <= d < 16 -> hexval (hexchar d) = Some d.
Proof. intros H. each_digit d H. Qed.

Lemma hexchar_plain (d : Z) :
  0 <= d < 16 ->
  isspace (hexchar d) = false /\ hexchar d <> "-"%char /\ hexchar d <> "+"%char /\
  hexchar d <> "x"%char /\ hexchar d <> "X"%char /\ hexchar d <> "010"%char.
Proof. intros H. each_digit d H. Qed.

Lemma hexchar_not_nul (d : Z) : 0 <= d < 16 -> hexchar d <> NUL.
Proof. intros H. each_digit d H. Qed.

Lemma hex_digits_app (n : nat) (v : Z) (acc rest : string) :
  hex_digits n v acc ++ rest = hex_digits n v (acc ++ rest).
Proof.
  revert v acc. induction n as [|n IH]; intros v acc; simpl; [reflexivity|].
  now rewrite IH.
Qed.

Lemma hex_digits_head2 (n : nat) (v : Z) (acc : string) :
  exists d1 d2 rest, 0 <= d1 < 16 /\ 0 <= d2 < 16 /\
    hex_digits (S (S n)) v acc = String (hexchar d1) (String (hexchar d2) rest).
Proof.
  revert v acc. induction n as [|n IH]; intros v acc.
  - exists ((v / 16) mod 16), (v mod 16), acc. repeat split;
      try (apply Z.mod_pos_bound; lia).
  - change (hex_digits (S (S (S n))) v acc)
      with (hex_digits (S (S n)) (v / 16) (String (hexchar (v mod 16)) acc)).
    apply IH.
Qed.

(** No newline among the digits. *)
Lemma hex_digits_no_newline (n : nat) (v : Z) (acc : string) :
  cut_at "010" (hex_digits n v acc) = hex_digits n v (cut_at "010" acc).
Proof.
  revert v acc. induction n as [|n IH]; intros v acc; simpl; [reflexivity|].
  rewrite IH. simpl.
  destruct (hexchar_plain (v mod 16) (Z.mod_pos_bound v 16 ltac:(lia))) as (_ & _ & _ & _ & _ & Hn).
  destruct (Ascii.eqb_spec (hexchar (v mod 16)) "010"%char); [contradiction|reflexivity].
Qed.

(** No NUL byte among them either. *)
Lemma hex_digits_no_nul (n : nat) (v : Z) (acc : string) :
  cstr (hex_digits n v acc) = hex_digits n v (cstr acc).
Proof.
  unfold cstr. revert v acc. induction n as [|n IH]; intros v acc; simpl; [reflexivity|].
  rewrite IH. simpl.
  pose proof (hexchar_not_nul (v mod 16) (Z.mod_pos_bound v 16 ltac:(lia))) as Hn.
  destruct (Ascii.eqb_spec (hexchar (v mod 16)) NUL); [contradiction|reflexivity].
Qed.

(** The digit loop reads back what [%016lx] printed. *)
Lemma strtoul_digits_hex (n : nat) (v acc : Z) (ovf : bool) (rest : string) :
  0 <= v < 16 ^ Z.of_nat n -> 0 <= acc ->
  acc * 16 ^ Z.of_nat n + v <= ULONG_MAX ->
  strtoul_digits acc ovf (hex_digits n v rest)
  = strtoul_digits (acc * 16 ^ Z.of_nat n + v) ovf rest.
Proof.
  revert v rest. induction n as [|n IH]; intros v rest Hv Ha Hmax.
  - simpl in *. f_equal. f_equal. lia.
  - cbn [hex_digits].
    assert (Hp : 16 ^ Z.of_nat (S n) = 16 * 16 ^ Z.of_nat n).
    { rewrite Nat2Z.inj_succ, Z.pow_succ_r by lia. reflexivity. }
    assert (Hpos : 0 < 16 ^ Z.of_nat n) by (apply Z.pow_pos_nonneg; lia).
    pose proof (Z.div_mod v 16 ltac:(lia)) as Hdm.
    pose proof (Z.mod_pos_bound v 16 ltac:(lia)) as Hm.
    assert (Hq : 0 <= v / 16 < 16 ^ Z.of_nat n).
    { split; [apply Z.div_pos; lia|]. apply Z.div_lt_upper_bound; lia. }
    rewrite IH; [|exact Hq|exact Ha|nia].
    cbn [strtoul_digits]. rewrite hexval_hexchar by exact Hm.
    assert (He : (acc * 16 ^ Z.of_nat n + v / 16) * 16 + v mod 16
                 = acc * 16 ^ Z.of_nat (S n) + v) by nia.
    rewrite He.
    destruct (Z.ltb_spec ULONG_MAX (acc * 16 ^ Z.of_nat (S n) + v)); [lia|reflexivity].
Qed.

Lemma strtoul16_fmt (v : Z) (rest : string) :
  0 <= v < 2 ^ 64 ->
  strtoul16 (fmt_016lx v ++ String " " rest) = (v, String " " rest).
Proof.
  intros Hv. unfold fmt_016lx. rewrite hex_digits_app. cbn [append].
  destruct (hex_digits_head2 14 v (String " " rest)) as (d1 & d2 & tl & H1 & H2 & Hh).
  assert (Hd : strtoul_digits 0 false (hex_digits 16 v (String " " rest))
               = (v, false, String " " rest)).
  { rewrite strtoul_digits_hex; [reflexivity| | lia |].
    - change (16 ^ Z.of_nat 16) with (2 ^ 64). exact Hv.
    - unfold ULONG_MAX. change (16 ^ Z.of_nat 16) with (2 ^ 64). lia. }
  unfold strtoul16. rewrite Hh in *.
  destruct (hexchar_plain d1 H1) as (Hs & Hminus & Hplus & _).
  destruct (hexchar_plain d2 H2) as (_ & _ & _ & Hx & HX & _).
  apply Ascii.eqb_neq in Hminus, Hplus, Hx, HX.
  cbn [skip_spaces]. rewrite Hs. cbn [strip_sign]. rewrite Hminus, Hplus.
  cbn [strip_0x]. rewrite Hx, HX, andb_false_r. cbn [andb].
  cbn [is_hexdigit_head]. rewrite (hexval_hexchar d1 H1).
  now rewrite Hd.
Qed.

Lemma append_assoc (s1 s2 s3 : string) : (s1 ++ s2) ++ s3 = s1 ++ (s2 ++ s3).
Proof. induction s1 as [|c s1 IH]; simpl; [reflexivity | now rewrite IH]. Qed.

Lemma append_nil_r (s : string) : s ++ "" = s.
Proof. induction s as [|c s IH]; simpl; [reflexivity | now rewrite IH]. Qed.

Lemma cut_at_absent (c : ascii) (s : string) : strchr s c = None -> cut_at c s = s.
Proof.
  induction s as [|a s IH]; simpl; [reflexivity|].
  destruct (Ascii.eqb a c); [discriminate|]. intros H. now rewrite IH.
Qed.

Lemma cut_at_app (c : ascii) (s rest : string) :
  strchr s c = None -> cut_at c (s ++ String c rest) = s.
Proof.
  induction s as [|a s IH]; simpl.
  - now rewrite Ascii.eqb_refl.
  - destruct (Ascii.eqb a c); [discriminate|]. intros H. now rewrite IH.
Qed.

Lemma cut_at_fixed_app (c : ascii) (s1 s2 : string) :
  cut_at c s1 = s1 -> cut_at c (s1 ++ s2) = s1 ++ cut_at c s2.
Proof.
  induction s1 as [|a s IH]; simpl; [reflexivity|].
  destruct (Ascii.eqb a c); [discriminate|]. intros H. injection H as H.
  now rewrite IH.
Qed.

Lemma strchr_nul (s : string) : strchr s NUL <> None.
Proof.
  induction s as [|a s IH]; simpl; [discriminate|].
  destruct (Ascii.eqb a NUL); [discriminate|exact IH].
Qed.

Lemma getlines_app (s rest : string) :
  strchr s "010" = None ->
  getlines (s ++ String "010" rest) = (s ++ String "010" EmptyString) :: getlines rest.
Proof.
  induction s as [|a s IH]; intros H.
  - reflexivity.
  - cbn [append getlines]. simpl in H.
    destruct (Ascii.eqb a "010"); [discriminate|]. now rewrite (IH H).
Qed.

Lemma strchr_app_none (c : ascii) (s1 s2 : string) :
  strchr s1 c = None -> strchr s2 c = None -> strchr (s1 ++ s2) c = None.
Proof.
  induction s1 as [|a s IH]; simpl; [auto|].
  destruct (Ascii.eqb a c); [discriminate|]. auto.
Qed.

Lemma strchr_hex_digits (n : nat) (v : Z) (acc : string) :
  strchr acc "010" = None -> strchr (hex_digits n v acc) "010" = None.
Proof.
  revert v acc. induction n as [|n IH]; intros v acc H; simpl; [exact H|].
  apply IH. simpl.
  destruct (hexchar_plain (v mod 16) (Z.mod_pos_bound v 16 ltac:(lia))) as (_ & _ & _ & _ & _ & Hn).
  apply Ascii.eqb_neq in Hn. now rewrite Hn.
Qed.

End Text.

(** ** Reading back what was written *)

Lemma wrap64_range (z : Z) : 0 <= wrap64 z < 2 ^ 64.
Proof. unfold wrap64. apply Z.mod_pos_bound. lia. Qed.

Lemma wrap64_small (z : Z) : 0 <= z < 2 ^ 64 -> wrap64 z = z.
Proof. intros. unfold wrap64. apply Z.mod_small. lia. Qed.

Lemma wrap64_back (a off : Z) : 0 <= a < 2 ^ 64 -> wrap64 (wrap64 (a - off) + off) = a.
Proof.
  intros H. unfold wrap64. rewrite Zplus_mod_idemp_l.
  replace (a - off + off) with a by lia. apply Z.mod_small. lia.
Qed.

Lemma wrap64_sub_inj (a b off : Z) :
  0 <= a < 2 ^ 64 -> 0 <= b < 2 ^ 64 ->
  wrap64 (a - off) = wrap64 (b - off) -> a = b.
Proof.
  intros Ha Hb H.
  rewrite <- (wrap64_back a off Ha), <- (wrap64_back b off Hb). now rewrite H.
Qed.

Lemma wrap64_sub_wrap (z off : Z) : wrap64 (wrap64 z - off) = wrap64 (z - off).
Proof. unfold wrap64. apply Zminus_mod_idemp_l. Qed.

(** A line of the writer holds no NUL byte. *)
Lemma cstr_fmt_line (a : Z) (t : ascii) (n : string) :
  t <> Libc.NUL -> Libc.cstr n = n ->
  Libc.cstr (fmt_line a t n) = fmt_line a t n.
Proof.
  intros Ht Hn. unfold fmt_line. apply Ascii.eqb_neq in Ht.
  unfold Libc.fmt_016lx. rewrite hex_digits_app, hex_digits_no_nul.
  f_equal. unfold Libc.cstr in *. cbn [String.append Libc.cut_at]. rewrite Ht.
  change (Ascii.eqb " " Libc.NUL) with false. cbv iota.
  do 3 f_equal. rewrite cut_at_fixed_app by exact Hn. reflexivity.
Qed.

Lemma parse_line_fmt (a : Z) (t : ascii) (n : string) :
  t <> "010"%char -> t <> Libc.NUL -> clean_name n ->
  parse_line (fmt_line a t n) = Some (Some (wrap64 a, t, n)).
Proof.
  intros Ht Ht0 (Hc & Hnl & Htab). unfold parse_line.
  rewrite cstr_fmt_line by assumption. unfold fmt_line.
  apply Ascii.eqb_neq in Ht.
  assert (Hcut : Libc.cut_at "010"
            (String.append (Libc.fmt_016lx (wrap64 a))
               (String " " (String t (String " " (String.append n (String "010" EmptyString))))))
          = String.append (Libc.fmt_016lx (wrap64 a)) (String " " (String t (String " " n)))).
  { replace (String.append (Libc.fmt_016lx (wrap64 a))
               (String " " (String t (String " " (String.append n (String "010" EmptyString))))))
      with (String.append
              (String.append (Libc.fmt_016lx (wrap64 a)) (String " " (String t (String " " n))))
              (String "010" EmptyString)).
    - apply cut_at_app. apply strchr_app_none.
      + apply strchr_hex_digits. reflexivity.
      + cbn [Libc.strchr]. rewrite Ht. exact Hnl.
    - rewrite append_assoc. reflexivity. }
  rewrite Hcut, strtoul16_fmt by apply wrap64_range.
  now rewrite cut_at_absent.
Qed.

Lemma getlines_fmt_line (a : Z) (t : ascii) (n rest : string) :
  t <> "010"%char -> clean_name n ->
  Libc.getlines (String.append (fmt_line a t n) rest) = fmt_line a t n :: Libc.getlines rest.
Proof.
  intros Ht (_ & Hnl & Htab). apply Ascii.eqb_neq in Ht.
  assert (E : fmt_line a t n
    = String.append
        (String.append (Libc.fmt_016lx (wrap64 a)) (String " " (String t (String " " n))))
        (String "010" EmptyString)).
  { unfold fmt_line. rewrite append_assoc. reflexivity. }
  rewrite E at 1. rewrite append_assoc. cbn [String.append].
  rewrite getlines_app.
  - now rewrite E.
  - apply strchr_app_none.
    + apply strchr_hex_digits. reflexivity.
    + cbn [Libc.strchr]. rewrite Ht. exact Hnl.
Qed.

Lemma allowed_not_newline (t : ascii) :
  accepted_letter t -> t <> "010"%char /\ t <> "X"%char.
Proof. intros [H _]; split; intros ->; apply H; reflexivity. Qed.

Lemma map_last_id (tab : list sym) :
  map_last (fun s => set_name s (name s)) tab = tab.
Proof.
  induction tab as [|p [|q rest] IH]; [reflexivity| destruct p; reflexivity |].
  rewrite map_last_cons2, IH. reflexivity.
Qed.

Lemma map_last_ext (f g : sym -> sym) (tab : list sym) :
  (forall s, f s = g s) -> map_last f tab = map_last g tab.
Proof.
  intros H. induction tab as [|p [|q rest] IH]; [reflexivity| simpl; now rewrite H |].
  rewrite !map_last_cons2, IH. reflexivity.
Qed.

Section ReadBack.
Variable hdr : header.

(** A written entry is read back as a new entry when its pair differs
    from the one before. *)
Lemma read_entry_line (off : Z) (r : reader) (s : sym) :
  0 <= addr s < 2 ^ 64 ->
  accepted_letter (type s) ->
  clean_name (name s) ->
  (wrap64 (addr s - off) =? rd_prev_addr r) && Ascii.eqb (type s) (rd_prev_type r) = false ->
  read_line hdr true off r (entry_line off s) = Some (take_entry hdr off (routed s) r s).
Proof.
  intros Hb Ha Hc Hn. unfold entry_line.
  destruct (allowed_not_newline _ Ha) as [Hnl _].
  rewrite (read_line_fresh hdr true off r _ _ _ _ (parse_line_fmt _ _ _ Hnl (proj2 Ha) Hc)
             (proj1 Ha) Hn).
  cbv zeta. unfold take_entry, reread_entry, routed, tab_of. cbn [andb].
  rewrite wrap64_back by exact Hb. reflexivity.
Qed.

(** A written entry that repeats the pair before it and is no [sys_]
    alias leaves the reader as it was. *)
Lemma read_entry_line_dup (off : Z) (r : reader) (s : sym) :
  accepted_letter (type s) ->
  clean_name (name s) ->
  Libc.starts_with "sys_" (name s) = false ->
  cur_tab r <> [] ->
  (wrap64 (addr s - off) =? rd_prev_addr r) && Ascii.eqb (type s) (rd_prev_type r) = true ->
  read_line hdr true off r (entry_line off s) = Some r.
Proof.
  intros Ha Hc Hsys Hne Hp. unfold entry_line, read_line.
  destruct (allowed_not_newline _ Ha) as [Hnl _].
  rewrite (parse_line_fmt _ _ _ Hnl (proj2 Ha) Hc), Hp.
  destruct (cur_tab r) eqn:E; [congruence|]. rewrite <- E. f_equal.
  assert (Hid : map_last (fun s0 => set_name s0 (sys_rename (name s0) (name s))) (cur_tab r)
                = cur_tab r).
  { rewrite <- (map_last_id (cur_tab r)) at 2.
    apply map_last_ext. intros x. unfold sys_rename.
    now rewrite Hsys, andb_false_r. }
  rewrite Hid. unfold cur_tab, set_tab. destruct r as [rs rd rc pa pt]; destruct rc; reflexivity.
Qed.

End ReadBack.

Lemma triple_push_sym (tab : list sym) (e : sym) :
  map triple (push_sym tab e) = map triple tab ++ [triple e].
Proof.
  induction tab as [|p [|q rest] IH]; [reflexivity|reflexivity|].
  rewrite push_sym_cons2. cbn [map app]. now rewrite IH.
Qed.

Lemma triple_fold_push (es tab : list sym) :
  map triple (fold_left push_sym es tab) = map triple tab ++ map triple es.
Proof.
  revert tab. induction es as [|e es IH]; intros tab; cbn [fold_left map].
  - now rewrite app_nil_r.
  - rewrite IH, triple_push_sym, <- app_assoc. reflexivity.
Qed.

Lemma read_lines_app (hdr : header) (route : bool) (off : Z) (l1 l2 : list string)
    (r : reader) :
  read_lines hdr route off r (l1 ++ l2) =
    match read_lines hdr route off r l1 with
    | Some r1 => read_lines hdr route off r1 l2
    | None => None
    end.
Proof.
  revert r. induction l1 as [|l l1 IH]; intros r; cbn [app read_lines]; [reflexivity|].
  destruct (read_line hdr route off r l); [apply IH|reflexivity].
Qed.

Section ReadRun.
Variable hdr : header.
Variable off : Z.
Variable w : which_tab.

Lemma take_entry_fields (r : reader) (s : sym) :
  tab_of w (take_entry hdr off w r s) = push_sym (tab_of w r) (reread_entry hdr s) /\
  (forall w', w' <> w -> tab_of w' (take_entry hdr off w r s) = tab_of w' r) /\
  rd_cur (take_entry hdr off w r s) = w /\
  rd_prev_addr (take_entry hdr off w r s) = wrap64 (addr s - off) /\
  rd_prev_type (take_entry hdr off w r s) = type s.
Proof.
  unfold take_entry, set_tab, tab_of. destruct w; cbn; repeat split;
    intros [] H; congruence.
Qed.

(** The reader after a run of entries, field by field. *)
Lemma run_fields (entries : list sym) (r : reader) :
  let r1 := fold_left (take_entry hdr off w) entries r in
  tab_of w r1 = fold_left push_sym (map (reread_entry hdr) entries) (tab_of w r) /\
  (forall w', w' <> w -> tab_of w' r1 = tab_of w' r) /\
  (forall e, hd_error (rev entries) = Some e ->
     rd_cur r1 = w /\ rd_prev_addr r1 = wrap64 (addr e - off) /\ rd_prev_type r1 = type e).
Proof.
  induction entries as [|x l IH] using rev_ind; cbv zeta.
  - cbn. repeat split; try discriminate; auto.
  - rewrite fold_left_app. cbn [fold_left].
    destruct IH as (I1 & I2 & I3).
    destruct (take_entry_fields (fold_left (take_entry hdr off w) l r) x)
      as (T1 & T2 & T3 & T4 & T5).
    split; [|split].
    + rewrite T1, I1, map_app, fold_left_app. reflexivity.
    + intros w' Hw. rewrite (T2 w' Hw). now apply I2.
    + intros e He. rewrite rev_app_distr in He. cbn in He. inversion He; subst. auto.
Qed.

Lemma read_run (entries : list sym) :
  Forall (entry_ok w) entries ->
  adjacent_distinct entries = true ->
  forall r,
    (forall s, hd_error entries = Some s -> pair_seen off r s = false) ->
    read_lines hdr true off r (map (entry_line off) entries)
    = Some (fold_left (take_entry hdr off w) entries r).
Proof.
  induction entries as [|s tl IH]; intros Hok Hadj r Hfirst; [reflexivity|].
  inversion Hok as [|? ? Hs Hok']; subst. destruct Hs as (Hb & Ha & Hc & Hr).
  cbn [map read_lines fold_left].
  rewrite read_entry_line; auto; [|exact (Hfirst s eq_refl)].
  rewrite Hr. apply IH; [exact Hok'| |].
  - destruct tl; [reflexivity|]. cbn [adjacent_distinct] in Hadj.
    apply andb_prop in Hadj. tauto.
  - intros b Hb'. destruct tl as [|b' tl']; [discriminate|].
    cbn in Hb'. inversion Hb'; subst b'.
    cbn [adjacent_distinct] in Hadj. apply andb_prop in Hadj as [Hn _].
    apply negb_true_iff in Hn. unfold same_pair in Hn.
    unfold pair_seen.
    destruct (take_entry_fields r s) as (_ & _ & _ & T4 & T5). rewrite T4, T5.
    inversion Hok' as [|? ? Hs' _]; subst. destruct Hs' as (Hbb & _).
    apply andb_false_iff. apply andb_false_iff in Hn as [Hn|Hn].
    + left. apply Z.eqb_neq. apply Z.eqb_neq in Hn. intros E.
      apply Hn. symmetry. eapply wrap64_sub_inj; eauto.
    + right. rewrite Ascii.eqb_sym. exact Hn.
Qed.

Lemma fold_push_not_nil (es tab : list sym) :
  es <> [] -> fold_left push_sym es tab <> [].
Proof.
  intros Hne H. pose proof (f_equal (map triple) H) as Ht.
  rewrite triple_fold_push in Ht. destruct es; [congruence|].
  apply (f_equal (@List.length _)) in Ht. rewrite length_app in Ht. simpl in Ht. lia.
Qed.

Lemma end_entry_inv (endtab : list sym) (endname : string) (e : sym) :
  end_entry endtab endname = Some e ->
  exists s l, rev endtab = s :: l /\
              e = mk_sym (wrap64 (addr s + size s)) 0 (type s) endname.
Proof.
  unfold end_entry. destruct (rev endtab) as [|s l]; [discriminate|].
  intros [= <-]. exists s, l. split; reflexivity.
Qed.

(** A run of entries followed by the closing line of their table. *)
Lemma read_table (entries endtab : list sym) (endname : string) (e_end e_last : sym)
    (r : reader) :
  Forall (entry_ok w) entries ->
  adjacent_distinct entries = true ->
  (forall s, hd_error entries = Some s -> pair_seen off r s = false) ->
  hd_error (rev entries) = Some e_last ->
  end_entry endtab endname = Some e_end ->
  accepted_letter (type e_end) ->
  routed e_end = w ->
  clean_name endname ->
  Libc.starts_with "sys_" endname = false ->
  exists r',
    read_lines hdr true off r (map (entry_line off) entries ++ [entry_line off e_end])
      = Some r' /\
    map triple (tab_of w r')
      = map triple (tab_of w r) ++ map (reread_triple hdr) entries
        ++ end_triple hdr endtab (Some e_last) endname /\
    (forall w', w' <> w -> tab_of w' r' = tab_of w' r) /\
    (rd_prev_type r' = type e_last \/ rd_prev_type r' = type e_end).
Proof.
  intros Hok Hadj Hfirst Hlast Hend Hal Hrt Hcl Hsys.
  rewrite read_lines_app, (read_run entries Hok Hadj r Hfirst).
  set (r1 := fold_left (take_entry hdr off w) entries r).
  destruct (run_fields entries r) as (F1 & F2 & F3). fold r1 in F1, F2, F3.
  destruct (F3 e_last Hlast) as (C1 & C2 & C3).
  destruct (end_entry_inv _ _ _ Hend) as (s & rl & Hs & He).
  assert (Hname : name e_end = endname) by (subst e_end; reflexivity).
  assert (Hlast_ok : entry_ok w e_last).
  { rewrite Forall_forall in Hok. apply Hok. apply in_rev.
    destruct (rev entries); [discriminate|]. inversion Hlast; subst. now left. }
  destruct Hlast_ok as (Hlb & _).
  assert (Hne : entries <> []) by (intros ->; discriminate).
  assert (Htr : map triple (tab_of w r1)
                = map triple (tab_of w r) ++ map (reread_triple hdr) entries).
  { rewrite F1, triple_fold_push, map_map. reflexivity. }
  assert (Haddr : addr e_end = wrap64 (addr s + size s)) by (subst e_end; reflexivity).
  assert (Htype : type e_end = type s) by (subst e_end; reflexivity).
  cbn [read_lines].
  destruct (pair_seen off r1 e_end) eqn:Hp.
  - rewrite read_entry_line_dup; auto; try (rewrite Hname; assumption).
    + exists r1. split; [reflexivity|]. split; [|split; [exact F2|left; exact C3]].
      rewrite Htr. f_equal. unfold end_triple. rewrite Hs.
      unfold pair_seen in Hp. rewrite C2, C3 in Hp.
      apply andb_prop in Hp as [Hp1 Hp2]. apply Z.eqb_eq in Hp1.
      apply wrap64_sub_inj in Hp1; [|rewrite Haddr; apply wrap64_range|exact Hlb].
      rewrite <- Haddr, <- Htype, Hp1, Z.eqb_refl, Hp2. now rewrite app_nil_r.
    + unfold cur_tab. rewrite C1. fold (tab_of w r1). rewrite F1.
      apply fold_push_not_nil. destruct entries; [congruence|discriminate].
  - rewrite read_entry_line; auto; try (rewrite Hname; assumption);
      [|rewrite Haddr; apply wrap64_range].
    rewrite Hrt.
    destruct (take_entry_fields r1 e_end) as (T1 & T2 & T3 & T4 & T5).
    exists (take_entry hdr off w r1 e_end). split; [reflexivity|].
    split; [|split; [|right; exact T5]].
    + rewrite T1, triple_push_sym, Htr, <- app_assoc. f_equal. f_equal.
      unfold end_triple. rewrite Hs.
      unfold pair_seen in Hp. rewrite C2, C3 in Hp.
      rewrite <- Haddr, <- Htype.
      destruct (Z.eqb_spec (addr e_end) (addr e_last)) as [Ea|Ea].
      * rewrite Ea, Z.eqb_refl in Hp. cbn [andb] in Hp |- *. rewrite Hp.
        unfold triple, reread_entry. cbn. now rewrite Hname.
      * cbn [andb]. unfold triple, reread_entry. cbn. now rewrite Hname.
    + intros w' Hw. rewrite (T2 w' Hw). now apply F2.
Qed.

(** The same with the empty table, which writes no line at all. *)
Lemma read_part (entries endtab : list sym) (endname : string) (r : reader) :
  Forall (entry_ok w) entries ->
  adjacent_distinct entries = true ->
  (forall s, hd_error entries = Some s -> pair_seen off r s = false) ->
  List.length entries = List.length endtab ->
  (forall e, end_entry endtab endname = Some e ->
     accepted_letter (type e) /\ routed e = w) ->
  clean_name endname ->
  Libc.starts_with "sys_" endname = false ->
  exists r',
    read_lines hdr true off r
      (map (entry_line off) entries
       ++ match end_entry endtab endname with
          | Some e => [entry_line off e]
          | None => []
          end) = Some r' /\
    map triple (tab_of w r')
      = map triple (tab_of w r) ++ map (reread_triple hdr) entries
        ++ end_triple hdr endtab (hd_error (rev entries)) endname /\
    (forall w', w' <> w -> tab_of w' r' = tab_of w' r) /\
    (rd_prev_type r' = rd_prev_type r \/
     In (rd_prev_type r') (map type entries ++ map type endtab)).
Proof.
  intros Hok Hadj Hfirst Hlen Hend Hcl Hsys.
  destruct (end_entry endtab endname) as [e_end|] eqn:Ee.
  - destruct (end_entry_inv _ _ _ Ee) as (s & rl & Hs & He).
    destruct (rev entries) as [|e_last rest] eqn:Er.
    { apply (f_equal (@List.length _)) in Er, Hs. rewrite length_rev in Er, Hs.
      simpl in *. lia. }
    destruct (Hend e_end eq_refl) as (Hal & Hrt).
    destruct (read_table entries endtab endname e_end e_last r Hok Hadj Hfirst
                ltac:(rewrite Er; reflexivity) Ee Hal Hrt Hcl Hsys)
      as (r' & R1 & R2 & R3 & R4).
    exists r'. split; [exact R1|]. split; [exact R2|]. split; [exact R3|].
    right. apply in_or_app. destruct R4 as [R4|R4]; rewrite R4.
    + left. apply in_map. apply in_rev. rewrite Er. now left.
    + right. subst e_end. cbn. apply in_map. apply in_rev. rewrite Hs. now left.
  - assert (Hn : endtab = []).
    { unfold end_entry in Ee. destruct (rev endtab) eqn:Er; [|discriminate].
      apply (f_equal (@rev _)) in Er. now rewrite rev_involutive in Er. }
    subst endtab. destruct entries; [|discriminate].
    exists r. cbn. rewrite app_nil_r. repeat split; auto.
Qed.

End ReadRun.

(** ** The text of a table *)

Lemma getlines_syms_lines (l : list sym) (off : Z) (rest : string) :
  Forall (fun s => accepted_letter (type s) /\ clean_name (name s)) l ->
  Libc.getlines (String.append (syms_lines l off) rest)
  = map (entry_line off) l ++ Libc.getlines rest.
Proof.
  induction 1 as [|s l [Ha Hc] _ IH]; [reflexivity|].
  cbn [syms_lines map app]. rewrite append_assoc.
  rewrite getlines_fmt_line; [|apply (allowed_not_newline _ Ha)|exact Hc].
  now rewrite IH.
Qed.

Lemma end_line_entry (tab : list sym) (off : Z) (endname : string) :
  end_line tab off endname
  = match end_entry tab endname with
    | Some e => entry_line off e
    | None => EmptyString
    end.
Proof.
  unfold end_line, end_entry, entry_line. destruct (rev tab) as [|s l]; [reflexivity|].
  cbn [addr type name]. unfold fmt_line. now rewrite wrap64_sub_wrap.
Qed.

Lemma names_lines_slots (tab : list sym) (off : Z) (names' : list names_slot) :
  Forall (fun p => exists k, p = SymPtr k /\ (k < List.length tab)%nat) names' ->
  forall pre,
    names_lines tab (pre ++ names') (seq (List.length pre) (List.length names')) off
    = Some (syms_lines
              (flat_map (fun p => match deref tab p with Some s => [s] | None => [] end)
                        names') off).
Proof.
  induction 1 as [|p rest (k & -> & Hk) _ IH]; intros pre; [reflexivity|].
  cbn [List.length seq names_lines].
  rewrite nth_error_app2, Nat.sub_diag by lia. cbn [nth_error deref flat_map].
  destruct (nth_error tab k) as [s|] eqn:Es; [|apply nth_error_None in Es; lia].
  specialize (IH (pre ++ [SymPtr k])).
  rewrite <- app_assoc, length_app, Nat.add_comm in IH. cbn in IH. rewrite IH.
  reflexivity.
Qed.

(** ** Round trip through the cache file *)

Section RoundTripProof.
Variable hdr : header.

Lemma slot_entries_in (t : symtab) (s : sym) :
  In s (slot_entries t) -> In s (syms t).
Proof.
  unfold slot_entries. intros H. apply in_flat_map in H as (p & _ & Hp).
  destruct p as [k|a]; cbn in Hp; [|contradiction].
  destruct (nth_error (syms t) k) eqn:E; [|contradiction].
  destruct Hp as [<-|[]]. eapply nth_error_In; eauto.
Qed.

Lemma end_entry_type_in (tab : list sym) (endname : string) (e : sym) :
  end_entry tab endname = Some e -> exists s, In s tab /\ type e = type s.
Proof.
  intros H. destruct (end_entry_inv _ _ _ H) as (s & l & Hs & ->).
  exists s. split; [|reflexivity]. apply in_rev. rewrite Hs. now left.
Qed.

(** C2, as amended.  Let the static entries carry accepted type letters
    other than P, the dynamic entries the letter P with one valid slot
    each, all names be C strings free of tab and newline, and no two entries that
    are written one after the other share address and type.  Then the
    file [save_symbol_file] creates, read by [load_symbol_file] into
    empty tables at the offset the writer took off, gives for each table,
    up to order, the (address, type, demangled name) triples of its
    entries, followed by the triple of the table's closing line unless
    that line repeats the pair of the line before it. *)
Theorem cache_round_trip (fs : fsys) (tabs fresh : symtabs) (dir exename : string) :
  Forall static_entry_ok (syms (stab tabs)) ->
  adjacent_distinct (syms (stab tabs)) = true ->
  Forall dynamic_entry_ok (syms (dsymtab tabs)) ->
  slots_valid (dsymtab tabs) ->
  Permutation (slot_entries (dsymtab tabs)) (syms (dsymtab tabs)) ->
  adjacent_distinct (slot_entries (dsymtab tabs)) = true ->
  syms (stab fresh) = [] -> syms (dsymtab fresh) = [] ->
  fopen_wx fs (symfile_path (Some dir) exename) = Created ->
  exists fs' tabs' tabs'',
    save_symbol_file hdr fs tabs dir exename = Some (Done (fs', tabs')) /\
    load_symbol_file hdr fs' fresh (symfile_path (Some dir) exename)
                     (fst (save_offset (fs_elf fs exename))) = Some (0, tabs'') /\
    Permutation (map triple (syms (stab tabs'')))
      (map (reread_triple hdr) (syms (stab tabs))
       ++ end_triple hdr (syms (stab tabs)) (hd_error (rev (syms (stab tabs))))
            "__sym_end") /\
    Permutation (map triple (syms (dsymtab tabs'')))
      (map (reread_triple hdr) (syms (dsymtab tabs))
       ++ end_triple hdr (syms (dsymtab tabs))
            (hd_error (rev (slot_entries (dsymtab tabs)))) "__dynsym_end").
Proof.
  intros Hs Hsadj Hd Hv Hperm Hdadj Hf1 Hf2 Hopen.
  destruct Hv as [Hvl Hvf].
  set (path := symfile_path (Some dir) exename) in *.
  destruct (save_offset (fs_elf fs exename)) as [off adj] eqn:Eoff. cbn [fst].
  set (S := syms (stab tabs)) in *. set (D := syms (dsymtab tabs)) in *.
  set (Dw := slot_entries (dsymtab tabs)) in *.
  (* what is written *)
  assert (Hnl : names_lines D (sym_names (dsymtab tabs)) (seq 0 (List.length D)) off
                = Some (syms_lines Dw off)).
  { rewrite <- Hvl. apply (names_lines_slots D off _ Hvf []). }
  set (txt := String.append (syms_lines Dw off)
                (String.append (end_line D off "__dynsym_end")
                   (String.append (syms_lines S off) (end_line S off "__sym_end")))).
  assert (Htxt : symfile_text tabs off = Some txt).
  { unfold symfile_text. fold D. fold S. now rewrite Hnl. }
  unfold save_symbol_file. fold path. rewrite Hopen, Eoff, Htxt.
  exists (fs_write fs path txt).
  eexists. 
  assert (Hread : fs_text (fs_write fs path txt) path = Some txt).
  { unfold fs_write. cbn. now rewrite String.eqb_refl. }
  unfold load_symbol_file. rewrite Hread, Hf1, Hf2.
  (* the lines of the file *)
  assert (Hdok : Forall (fun s => 0 <= addr s < 2 ^ 64 /\
                                  accepted_letter (type s) /\
                                  clean_name (name s) /\ routed s = InDsymtab) Dw).
  { apply Forall_forall. intros s Hin. apply slot_entries_in in Hin.
    rewrite Forall_forall in Hd. destruct (Hd s Hin) as (Hb & Ht & Hc).
    split; [exact Hb|]. split; [rewrite Ht; split; discriminate|]. split; [exact Hc|].
    unfold routed. now rewrite Ht. }
  assert (Hsok : Forall (fun s => 0 <= addr s < 2 ^ 64 /\
                                  accepted_letter (type s) /\
                                  clean_name (name s) /\ routed s = InStab) S).
  { apply Forall_forall. intros s Hin.
    rewrite Forall_forall in Hs. destruct (Hs s Hin) as (Hb & Ha & Ht & Hc).
    split; [exact Hb|]. split; [exact Ha|]. split; [exact Hc|].
    unfold routed. apply Ascii.eqb_neq in Ht. now rewrite Ht. }
  assert (Hlines : Libc.getlines txt
            = (map (entry_line off) Dw
               ++ match end_entry D "__dynsym_end" with
                  | Some e => [entry_line off e] | None => [] end)
              ++ (map (entry_line off) S
                  ++ match end_entry S "__sym_end" with
                     | Some e => [entry_line off e] | None => [] end)).
  { unfold txt. rewrite getlines_syms_lines
      by (eapply Forall_impl; [|exact Hdok]; cbv beta; tauto).
    rewrite <- app_assoc. f_equal.
    assert (Hend : forall tab nm rest,
              (forall e, end_entry tab nm = Some e ->
                 accepted_letter (type e)) ->
              clean_name nm ->
              Libc.getlines (String.append (end_line tab off nm) rest)
              = match end_entry tab nm with
                | Some e => [entry_line off e] | None => [] end ++ Libc.getlines rest).
    { intros tab nm rest Hal Hc. rewrite end_line_entry.
      destruct (end_entry tab nm) as [e|] eqn:Ee; [|reflexivity].
      destruct (end_entry_inv _ _ _ Ee) as (s & l & _ & He).
      unfold entry_line. rewrite getlines_fmt_line; [reflexivity| |].
      - apply (allowed_not_newline _ (Hal e eq_refl)).
      - subst e. exact Hc. }
    rewrite Hend.
    - f_equal. rewrite getlines_syms_lines
        by (eapply Forall_impl; [|exact Hsok]; cbv beta; tauto).
      f_equal. rewrite <- (append_nil_r (end_line S off "__sym_end")).
      rewrite Hend.
      + cbn [Libc.getlines]. now rewrite app_nil_r.
      + intros e He. destruct (end_entry_type_in _ _ _ He) as (s & Hin & ->).
        rewrite Forall_forall in Hs. destruct (Hs s Hin). tauto.
      + repeat split.
    - intros e He. destruct (end_entry_type_in _ _ _ He) as (s & Hin & ->).
      rewrite Forall_forall in Hd. destruct (Hd s Hin) as (_ & -> & _). split; discriminate.
    - repeat split. }
  rewrite Hlines, read_lines_app.
  assert (HtypeD : forall s, In s D -> type s = ST_PLT).
  { intros s Hin. rewrite Forall_forall in Hd. destruct (Hd s Hin). tauto. }
  (* the dynamic part *)
  destruct (read_part hdr off InDsymtab Dw D "__dynsym_end" (reader_init [] []) Hdok Hdadj)
    as (r2 & R1 & R2 & R3 & R4).
  { intros s Hhd. unfold pair_seen. cbn [rd_prev_type reader_init].
    assert (Hin : In s Dw) by (destruct Dw; [discriminate|]; inversion Hhd; now left).
    apply slot_entries_in in Hin. rewrite (HtypeD s Hin). apply andb_false_r. }
  { now apply Permutation_length. }
  { intros e He. destruct (end_entry_type_in _ _ _ He) as (s & Hin & Et).
    unfold routed. rewrite Et, (HtypeD s Hin). split; [split; discriminate|reflexivity]. }
  { repeat split. }
  { reflexivity. }
  rewrite R1.
  (* the static part *)
  destruct (read_part hdr off InStab S S "__sym_end" r2 Hsok Hsadj)
    as (r4 & Q1 & Q2 & Q3 & Q4).
  { intros s Hhd.
    assert (Hin : In s S) by (destruct S; [discriminate|]; inversion Hhd; now left).
    rewrite Forall_forall in Hs. destruct (Hs s Hin) as (_ & Ha & Hp & _).
    unfold pair_seen. apply andb_false_iff. right. apply Ascii.eqb_neq. intros E.
    destruct R4 as [R4|R4].
    - rewrite R4 in E. cbn in E. rewrite E in Ha. destruct Ha as [Ha _]. apply Ha.
      reflexivity.
    - apply Hp. rewrite E. apply in_app_or in R4.
      destruct R4 as [R4|R4]; apply in_map_iff in R4 as (x & <- & Hx).
      + apply HtypeD. now apply slot_entries_in.
      + now apply HtypeD. }
  { reflexivity. }
  { intros e He. destruct (end_entry_type_in _ _ _ He) as (s & Hin & Et).
    rewrite Forall_forall in Hs. destruct (Hs s Hin) as (_ & Ha & Hp & _).
    unfold routed. rewrite Et. apply Ascii.eqb_neq in Hp. rewrite Hp. tauto. }
  { repeat split. }
  { reflexivity. }
  rewrite Q1.
  eexists. split; [reflexivity|]. split; [reflexivity|].
  cbn [stab dsymtab index_symtab syms].
  assert (Hst : map triple (rd_stab r4)
                = map (reread_triple hdr) S
                  ++ end_triple hdr S (hd_error (rev S)) "__sym_end").
  { change (rd_stab r4) with (tab_of InStab r4). rewrite Q2.
    rewrite (R3 InStab ltac:(discriminate)). reflexivity. }
  assert (Hdt : map triple (rd_dsymtab r4)
                = map (reread_triple hdr) Dw
                  ++ end_triple hdr D (hd_error (rev Dw)) "__dynsym_end").
  { change (rd_dsymtab r4) with (tab_of InDsymtab r4).
    rewrite (Q3 InDsymtab ltac:(discriminate)), R2. reflexivity. }
  split.
  - rewrite <- Hst. apply Permutation_map, LibcFacts.qsort_perm.
  - apply Permutation_trans with (map triple (rd_dsymtab r4)).
    + apply Permutation_map.
      destruct (List.length (rd_dsymtab r4) =? 0)%nat; cbn [syms sort_dynsymtab];
        [apply Permutation_refl | apply LibcFacts.qsort_perm].
    + rewrite Hdt. apply Permutation_app_tail, Permutation_map, Hperm.
Qed.

End RoundTripProof.

(** ** Slots and entries after a load *)

(** After [sort_dynsymtab] on entries with pairwise distinct addresses
    the slots give back the entries in their order before the sort, so
    each entry has exactly one slot. *)
Lemma slot_entries_sorted (d : symtab) :
  NoDup (map addr (syms d)) -> slot_entries (sort_dynsymtab d) = syms d.
Proof.
  intros Hn. unfold slot_entries, sort_dynsymtab. cbn [syms sym_names].
  set (sorted := Libc.qsort addrsort (syms d)).
  assert (Hperm : Permutation sorted (syms d)) by apply LibcFacts.qsort_perm.
  rewrite map_map, flat_map_concat_map, map_map.
  assert (Hall : forall l, incl l (syms d) ->
            List.concat (map (fun s => match deref sorted
                                          (resolve_slot sorted (SavedAddr (addr s))) with
                                  | Some s' => [s'] | None => [] end) l) = l).
  { induction l as [|s l IH]; intros Hincl; [reflexivity|].
    cbn [map List.concat]. rewrite IH by (intros x Hx; apply Hincl; now right).
    assert (Hs : In s (syms d)) by (apply Hincl; now left).
    assert (Hin : In s sorted) by (eapply Permutation_in; [apply Permutation_sym, Hperm|exact Hs]).
    destruct (find_pos_in _ _ 0%nat Hin) as (k & Hk).
    cbn [resolve_slot]. rewrite Hk. cbn [deref].
    destruct (find_pos_nth _ _ _ _ Hk) as (s' & Hs' & Ha).
    rewrite Nat.sub_0_r in Hs'. rewrite Hs'.
    assert (s' = s).
    { eapply (nodup_map_inj addr (syms d)); auto.
      eapply Permutation_in; [exact Hperm|]. eapply nth_error_In; eauto. }
    now subst. }
  apply Hall. apply incl_refl.
Qed.

Lemma slot_entries_sorted_perm (d : symtab) :
  NoDup (map addr (syms d)) ->
  Permutation (slot_entries (sort_dynsymtab d)) (syms (sort_dynsymtab d)).
Proof.
  intros Hn. rewrite slot_entries_sorted by exact Hn.
  apply Permutation_sym, LibcFacts.qsort_perm.
Qed.

(** ** The theorems at concrete inputs *)

Lemma range_search_half_open_witness :
  Libc.bsearch addrfind 0x1005 [Ex.foo; Ex.bar] = Some 0%nat /\
  Libc.bsearch addrfind 0x1018 [Ex.foo; Ex.bar] = None /\
  Libc.bsearch addrfind 0x1030 [Ex.foo; Ex.bar] = Some 1%nat /\
  find_symtabs Ex.x86_64 Ex.no_files empty_symtabs Ex.foo_bar 0x1005
    = Some (Some (StabSym 0), Ex.foo_bar) /\
  find_symtabs Ex.x86_64 Ex.no_files empty_symtabs Ex.foo_bar 0x1018
    = Some (None, Ex.foo_bar) /\
  find_symtabs Ex.x86_64 Ex.no_files empty_symtabs Ex.foo_bar 0x1030
    = Some (Some (StabSym 1), Ex.foo_bar) /\
  Libc.bsearch addrfind 0x1018 [Ex.foo; Ex.bar] = None /\
  (forall b i, Libc.bsearch addrfind b [Ex.foo; Ex.bar] = Some i ->
     exists s, nth_error [Ex.foo; Ex.bar] i = Some s /\
               addr s <= b < wrap64 (addr s + size s)).
Proof.
  apply (range_search_half_open Ex.x86_64 Ex.no_files empty_symtabs Ex.foo_bar
           [Ex.foo; Ex.bar] 0x1018); try reflexivity.
  intros s [<-|[<-|[]]]; reflexivity.
Defined.

Lemma static_table_first_witness :
  find_symtabs Ex.x86_64 Ex.no_files empty_symtabs Ex.foo_bar 0x1005
    = Some (Some (StabSym 0), Ex.foo_bar).
Proof.
  apply (static_table_first Ex.x86_64 Ex.no_files empty_symtabs Ex.foo_bar 0x1005 0 Ex.foo).
  - reflexivity.
  - repeat constructor; simpl; lia.
  - repeat constructor; simpl; lia.
  - reflexivity.
  - reflexivity.
Defined.

Lemma kernel_user_separation_witness :
  find_symtabs Ex.x86_64 Ex.no_files empty_symtabs Ex.foo_bar Ex.kernel_addr
    = Some (None, Ex.foo_bar).
Proof.
  apply (proj1 (kernel_user_separation Ex.x86_64 Ex.no_files empty_symtabs Ex.foo_bar
                  Ex.kernel_addr)); reflexivity.
Defined.

Lemma save_exclusive_create_witness :
  save_symbol_file Ex.x86_64 Ex.cached_files Ex.foo_bar "cache" "/bin/app"
    = Some (Done (Ex.cached_files, Ex.foo_bar)) /\
  save_symbol_file Ex.x86_64 Ex.readonly_files Ex.foo_bar "cache" "/bin/app"
    = Some Fatal.
Proof.
  split.
  - apply (save_exclusive_create Ex.x86_64 Ex.cached_files Ex.foo_bar "cache" "/bin/app"
             empty_symtab "cache/app.sym" 0).
    vm_compute. discriminate.
  - apply (save_exclusive_create Ex.x86_64 Ex.readonly_files Ex.foo_bar "cache" "/bin/app"
             empty_symtab "cache/app.sym" 0).
    reflexivity.
Defined.

Lemma find_dynsym_bounds_witness :
  find_dynsym Ex.app_tabs 2 = Some None /\
  exists k, find_dynsym Ex.app_tabs 1 = Some (Some (SymPtr k)) /\
            (k < count_dynsym Ex.app_tabs)%nat.
Proof.
  assert (Hv : slots_valid (dsymtab empty_symtabs)) by (split; [reflexivity|constructor]).
  assert (Hl : load_symtabs Ex.x86_64 (Ex.app_files Ex.app_image) empty_symtabs None
                 "/bin/app" = Some Ex.app_tabs) by (vm_compute; reflexivity).
  split.
  - apply (find_dynsym_bounds Ex.x86_64 _ _ _ _ _ 2%nat Hv Hl). vm_compute. lia.
  - apply (find_dynsym_bounds Ex.x86_64 _ _ _ _ _ 1%nat Hv Hl). vm_compute. lia.
Defined.

Lemma duplicate_lines_collapse_witness :
  read_lines Ex.x86_64 true 0 (reader_init [] []) [Ex.SyS_read_line; Ex.sys_read_line]
  = Some (mk_reader [mk_sym 0xffffffff81200000 0 ST_GLOBAL "sys_read"] [] InStab
                    0xffffffff81200000 ST_GLOBAL).
Proof.
  refine (eq_trans
            (proj1 (duplicate_lines_collapse Ex.x86_64 true 0 (reader_init [] [])
                      Ex.SyS_read_line [Ex.sys_read_line] 0xffffffff81200000 ST_GLOBAL
                      "SyS_read" ["sys_read"%string] _ _ _ _)) _).
  - vm_compute. reflexivity.
  - vm_compute. reflexivity.
  - vm_compute. discriminate.
  - vm_compute. reflexivity.
  - vm_compute. reflexivity.
Defined.


Ltac solve_entries :=
  repeat constructor; try (simpl; lia); try (vm_compute; discriminate);
  try reflexivity.

Lemma cache_round_trip_witness :
  exists fs' tabs' tabs'',
    save_symbol_file Ex.x86_64 (Ex.app_files Ex.small_image) Ex.small_tabs
                     "cache" "/bin/app" = Some (Done (fs', tabs')) /\
    load_symbol_file Ex.x86_64 fs' empty_symtabs "cache/app.sym" 0 = Some (0, tabs'') /\
    Permutation (map triple (syms (stab tabs'')))
      [triple Ex.foo; triple Ex.bar; (0x1040, ST_GLOBAL, "__sym_end"%string)] /\
    Permutation (map triple (syms (dsymtab tabs'')))
      [triple Ex.exit_plt; triple Ex.puts_plt; (0x440, ST_PLT, "__dynsym_end"%string)].
Proof.
  apply (cache_round_trip Ex.x86_64 (Ex.app_files Ex.small_image) Ex.small_tabs
           empty_symtabs "cache" "/bin/app").
  - change (Forall static_entry_ok [Ex.foo; Ex.bar]). solve_entries.
  - reflexivity.
  - change (Forall dynamic_entry_ok [Ex.exit_plt; Ex.puts_plt]). solve_entries.
  - split; [reflexivity|].
    change (Forall (fun p => exists k, p = SymPtr k /\ (k < 2)%nat) [SymPtr 1; SymPtr 0]).
    repeat constructor; eexists; (split; [reflexivity|lia]).
  - change (Permutation [Ex.puts_plt; Ex.exit_plt] [Ex.exit_plt; Ex.puts_plt]).
    apply perm_swap.
  - reflexivity.
  - reflexivity.
  - reflexivity.
  - reflexivity.
Defined.

(** ** The claims that fail, at concrete inputs *)

(** C2 as stated fails on the table set of an executable with one
    function and two PLT relocations to untyped symbols: the dynamic
    table read back holds "a" and the closing entry but not "b", and the
    static table read back holds one triple more than the original, the
    one of its closing line. *)
Lemma cache_round_trip_loses_entry :
  load_symtabs Ex.x86_64 (Ex.app_files Ex.app_image) empty_symtabs None "/bin/app"
    = Some Ex.app_tabs /\
  map triple (syms (stab Ex.app_tabs)) = [(0x1100, ST_GLOBAL, "main"%string)] /\
  map triple (syms (dsymtab Ex.app_tabs))
    = [(0, ST_PLT, "a"%string); (0, ST_PLT, "b"%string)] /\
  option_map (fun o => match o with
                       | Done (fs', _) => fs_text fs' "cache/app.sym"
                       | Fatal => None
                       end)
             (save_symbol_file Ex.x86_64 (Ex.app_files Ex.app_image) Ex.app_tabs
                               "cache" "/bin/app")
    = Some (fs_text Ex.app_saved "cache/app.sym") /\
  load_symbol_file Ex.x86_64 Ex.app_saved empty_symtabs "cache/app.sym" 0
    = Some (0, Ex.app_reloaded) /\
  map triple (syms (stab Ex.app_reloaded))
    = [(0x1100, ST_GLOBAL, "main"%string); (0x1140, ST_GLOBAL, "__sym_end"%string)] /\
  map triple (syms (dsymtab Ex.app_reloaded))
    = [(0, ST_PLT, "a"%string); (0x10, ST_PLT, "__dynsym_end"%string)] /\
  ~ In (0, ST_PLT, "b"%string) (map triple (syms (dsymtab Ex.app_reloaded))).
Proof.
  repeat split; try (vm_compute; reflexivity).
  vm_compute. intros [H|[H|[]]]; discriminate.
Qed.

(** C5 as stated fails when the main static table holds overlapping
    entries, which the ELF loader does not exclude: 0x1030 lies in the
    range of "outer", the binary search probes "in1" and "in2" only, and
    the answer comes from the module that is mapped over the address. *)
Lemma static_first_needs_invariant :
  is_kernel_address Ex.x86_64 0x1030 = false /\
  map triple (syms (stab Ex.nested_tabs))
    = [(0x1000, ST_GLOBAL, "outer"%string); (0x1010, ST_GLOBAL, "in1"%string);
       (0x1020, ST_GLOBAL, "in2"%string)] /\
  option_map (in_range 0x1030) (nth_error (syms (stab Ex.nested_tabs)) 0) = Some true /\
  find_symtabs Ex.x86_64 Ex.no_files empty_symtabs Ex.nested_tabs 0x1030
    = Some (Some (MapSym 0 0), Ex.nested_tabs).
Proof. vm_compute. repeat split. Qed.

(** ** Strings as the lookups by name compare them *)

Module StringFacts.
Import Libc.

Lemma strcmp_refl (a : string) : strcmp a a = 0.
Proof.
  induction a as [|x a IH]; cbn [strcmp]; [reflexivity|].
  now rewrite Nat.ltb_irrefl.
Qed.

Lemma strcmp_zero (a b : string) : strcmp a b = 0 -> a = b.
Proof.
  revert b. induction a as [|x a IH]; intros [|y b]; cbn [strcmp];
    try discriminate; [reflexivity|].
  destruct (Nat.ltb_spec (nat_of_ascii x) (nat_of_ascii y)); [discriminate|].
  destruct (Nat.ltb_spec (nat_of_ascii y) (nat_of_ascii x)); [discriminate|].
  intros E. assert (Hxy : nat_of_ascii x = nat_of_ascii y) by lia.
  rewrite <- (ascii_nat_embedding x), <- (ascii_nat_embedding y), Hxy.
  f_equal. now apply IH.
Qed.

Lemma strcmp_zero_iff (a b : string) : strcmp a b = 0 <-> a = b.
Proof. split; [apply strcmp_zero | intros ->; apply strcmp_refl]. Qed.

Lemma strcmp_antisym (a b : string) : strcmp b a = - strcmp a b.
Proof.
  revert b. induction a as [|x a IH]; intros [|y b]; cbn [strcmp]; try reflexivity.
  destruct (Nat.ltb_spec (nat_of_ascii x) (nat_of_ascii y));
    destruct (Nat.ltb_spec (nat_of_ascii y) (nat_of_ascii x)); try lia; try reflexivity.
  apply IH.
Qed.

Lemma strcmp_trans (a b c : string) :
  strcmp a b <= 0 -> strcmp b c <= 0 ->
  strcmp a c <= 0 /\ (strcmp a b < 0 \/ strcmp b c < 0 -> strcmp a c < 0).
Proof.
  revert b c. induction a as [|x a IH]; intros [|y b] [|z c]; cbn [strcmp];
    try lia.
  destruct (Nat.ltb_spec (nat_of_ascii x) (nat_of_ascii y));
    destruct (Nat.ltb_spec (nat_of_ascii y) (nat_of_ascii x));
    destruct (Nat.ltb_spec (nat_of_ascii y) (nat_of_ascii z));
    destruct (Nat.ltb_spec (nat_of_ascii z) (nat_of_ascii y));
    destruct (Nat.ltb_spec (nat_of_ascii x) (nat_of_ascii z));
    destruct (Nat.ltb_spec (nat_of_ascii z) (nat_of_ascii x));
    try lia.
  apply IH.
Qed.

(** [strncmp(s, p, strlen(p)) == 0] says that [s] starts with [p]. *)
Lemma strncmp_prefix (s p : string) :
  strncmp s p (String.length p) = 0 <-> exists rest, s = String.append p rest.
Proof.
  revert s. induction p as [|y p IH]; intros s; simpl.
  - split; [intros _; now exists s | reflexivity].
  - destruct s as [|x s].
    + split; [discriminate | intros [rest H]; discriminate].
    + destruct (Nat.ltb_spec (nat_of_ascii x) (nat_of_ascii y)) as [H1|H1].
      * split; [discriminate|]. intros [rest E]. cbn in E. inversion E; subst. lia.
      * destruct (Nat.ltb_spec (nat_of_ascii y) (nat_of_ascii x)) as [H2|H2].
        -- split; [discriminate|]. intros [rest E]. cbn in E. inversion E; subst. lia.
        -- assert (Hxy : x = y).
           { rewrite <- (ascii_nat_embedding x), <- (ascii_nat_embedding y).
             f_equal. lia. }
           subst y. rewrite IH. split; intros [rest E]; exists rest.
           ++ cbn. now rewrite E.
           ++ cbn in E. now inversion E.
Qed.

Lemma strchr_none_app (s1 s2 : string) (c : ascii) :
  strchr (String.append s1 s2) c = None -> strchr s1 c = None /\ strchr s2 c = None.
Proof.
  induction s1 as [|a s1 IH]; cbn [String.append strchr].
  - intros H. split; [|exact H].
    destruct (Ascii.eqb_spec c NUL) as [->|]; [|reflexivity].
    now apply strchr_nul in H.
  - destruct (Ascii.eqb a c); [discriminate | exact IH].
Qed.

Lemma strrchr_none (s : string) (c : ascii) : strchr s c = None -> strrchr s c = None.
Proof.
  induction s as [|a s IH]; cbn [strchr strrchr]; [intros _; reflexivity|].
  destruct (Ascii.eqb a c); [discriminate|]. intros H. now rewrite (IH H).
Qed.

(** [strrchr] on [dir ++ "/" ++ file] where [file] holds no slash. *)
Lemma strrchr_last (dir file : string) (c : ascii) :
  strchr file c = None ->
  strrchr (String.append dir (String c file)) c = Some (String c file).
Proof.
  intros Hf. induction dir as [|a dir IH]; cbn [String.append strrchr].
  - rewrite (strrchr_none _ _ Hf), Ascii.eqb_refl. reflexivity.
  - now rewrite IH.
Qed.

End StringFacts.

(** The file name inside a path: the whole of a path without slash, and
    what follows the last slash otherwise. *)
Lemma mod_name_plain (file : string) :
  Libc.strchr file "/" = None -> mod_name file = file.
Proof. intros H. unfold mod_name. now rewrite (StringFacts.strrchr_none _ _ H). Qed.

Lemma mod_name_in_dir (dir file : string) :
  Libc.strchr file "/" = None ->
  mod_name (String.append dir (String "/" file)) = file.
Proof. intros H. unfold mod_name. now rewrite (StringFacts.strrchr_last _ _ _ H). Qed.

(** ** Searching an array of pointers *)

Module ThroughFacts.
Import Libc.

Section Through.
Context {K A : Type}.
Variable compar : K -> A -> option Z.
Variable key : K.
Variable base : list A.
Variable n : nat.
Variable sg : nat -> Z.

(** Every element below [n] can be compared, with sign [sg i], and the
    signs fall along the array: the order of an array sorted the way the
    key is compared. *)
Hypothesis readable :
  forall i, (i < n)%nat -> exists p, nth_error base i = Some p /\ compar key p = Some (sg i).
Hypothesis below : forall i j, (i < j < n)%nat -> sg i < 0 -> sg j < 0.
Hypothesis above : forall i j, (i < j < n)%nat -> 0 < sg j -> 0 < sg i.

Lemma bsearch_through_loop_sorted (fuel l u : nat) :
  (u <= n)%nat -> (u - l <= fuel)%nat ->
  (exists i, bsearch_through_loop compar fuel key base l u = Some (Some i) /\
             (l <= i < u)%nat /\ sg i = 0) \/
  (bsearch_through_loop compar fuel key base l u = Some None /\
   forall i, (l <= i < u)%nat -> sg i <> 0).
Proof.
  revert l u. induction fuel as [|fuel IH]; intros l u Hu Hf.
  - right. split; [reflexivity|]. intros i Hi. lia.
  - cbn [bsearch_through_loop]. cbv zeta.
    destruct (Nat.ltb_spec l u) as [Hlu|Hlu].
    2:{ right. split; [reflexivity|]. intros i Hi. lia. }
    assert (Hm : (l <= (l + u) / 2 < u)%nat).
    { pose proof (Nat.div_mod_eq (l + u) 2) as Hd.
      pose proof (Nat.mod_upper_bound (l + u) 2) as Hm. lia. }
    destruct (readable ((l + u) / 2)) as (p & Hp & Hc); [lia|].
    rewrite Hp, Hc.
    destruct (Z.ltb_spec (sg ((l + u) / 2)) 0) as [Hneg|Hneg].
    { destruct (IH l ((l + u) / 2)%nat) as [(i & E & Hi & Hz)|(E & Hno)]; [lia|lia| |].
      - left. exists i. repeat split; try exact E; try exact Hz; lia.
      - right. split; [exact E|]. intros i Hi.
        destruct (Nat.lt_ge_cases i ((l + u) / 2)) as [Hlt|Hge]; [apply Hno; lia|].
        destruct (Nat.eq_dec i ((l + u) / 2)) as [->|Hne]; [lia|].
        assert (sg i < 0) by (apply (below ((l + u) / 2)%nat i); [lia|exact Hneg]).
        lia. }
    destruct (Z.ltb_spec 0 (sg ((l + u) / 2))) as [Hpos|Hpos].
    { destruct (IH ((l + u) / 2 + 1)%nat u) as [(i & E & Hi & Hz)|(E & Hno)]; [lia|lia| |].
      - left. exists i. repeat split; try exact E; try exact Hz; lia.
      - right. split; [exact E|]. intros i Hi.
        destruct (Nat.lt_ge_cases ((l + u) / 2) i) as [Hlt|Hge]; [apply Hno; lia|].
        destruct (Nat.eq_dec i ((l + u) / 2)) as [->|Hne]; [lia|].
        assert (0 < sg i) by (apply (above i ((l + u) / 2)%nat); [lia|exact Hpos]).
        lia. }
    left. exists ((l + u) / 2)%nat. repeat split; try lia.
Qed.

Lemma bsearch_through_sorted :
  (exists i, bsearch_through compar key base n = Some (Some i) /\
             (i < n)%nat /\ sg i = 0) \/
  (bsearch_through compar key base n = Some None /\
   forall i, (i < n)%nat -> sg i <> 0).
Proof.
  unfold bsearch_through.
  destruct (bsearch_through_loop_sorted n 0 n) as [(i & E & Hi & Hz)|(E & Hno)]; try lia.
  - left. exists i. repeat split; try exact E; try exact Hz; lia.
  - right. split; [exact E|]. intros i Hi. apply Hno. lia.
Qed.
End Through.

(** Fuel beyond [u - l] changes nothing: the bound on the number of
    probes is never the reason for a miss. *)
Section ThroughFuel.
Context {K A : Type}.
Variable compar : K -> A -> option Z.

Lemma bsearch_through_loop_fuel (key : K) (base : list A) (fuel fuel' l u : nat) :
  (u - l <= fuel)%nat -> (u - l <= fuel')%nat ->
  bsearch_through_loop compar fuel key base l u
  = bsearch_through_loop compar fuel' key base l u.
Proof.
  revert fuel' l u. induction fuel as [|fuel IH]; intros fuel' l u H1 H2.
  - destruct fuel'; cbn [bsearch_through_loop]; [reflexivity|].
    destruct (Nat.ltb_spec l u); [lia|reflexivity].
  - destruct fuel' as [|fuel']; cbn [bsearch_through_loop]; cbv zeta.
    + destruct (Nat.ltb_spec l u); [lia|reflexivity].
    + destruct (Nat.ltb_spec l u); [|reflexivity].
      assert (Hm : (l <= (l + u) / 2 < u)%nat).
      { pose proof (Nat.div_mod_eq (l + u) 2) as Hd.
        pose proof (Nat.mod_upper_bound (l + u) 2) as Hm. lia. }
      destruct (nth_error base ((l + u) / 2)) as [p|]; [|reflexivity].
      destruct (compar key p) as [c|]; [|reflexivity].
      destruct (c <? 0); [apply IH; lia|].
      destruct (0 <? c); [apply IH; lia|reflexivity].
Qed.
End ThroughFuel.

(** Sorting with a comparator that is an order on the elements that
    satisfy [P] only. *)
Section SortingOn.
Context {A : Type}.
Variable compar : A -> A -> Z.
Variable P : A -> Prop.
Variable le : A -> A -> Prop.
Hypothesis le_of_sign : forall x y, P x -> P y -> compar x y <= 0 -> le x y.
Hypothesis le_of_pos : forall x y, P x -> P y -> 0 < compar x y -> le y x.

Lemma insert_sorted_on (x : A) (l : list A) :
  P x -> Forall P l -> Sorted le l -> Sorted le (insert_sorted compar x l).
Proof.
  intros Hx Hall Hs. induction Hs as [|y l Hs IH Hd]; cbn [insert_sorted].
  - repeat constructor.
  - inversion Hall as [|? ? Hy Hall']; subst.
    destruct (Z.ltb_spec 0 (compar x y)) as [E|E].
    + constructor; [now apply IH|].
      destruct l as [|z l]; cbn [insert_sorted].
      * constructor. now apply le_of_pos.
      * destruct (0 <? compar x z); constructor.
        -- now inversion Hd.
        -- now apply le_of_pos.
    + constructor; [now constructor|]. constructor. now apply le_of_sign.
Qed.

Lemma qsort_sorted_on (l : list A) : Forall P l -> Sorted le (qsort compar l).
Proof.
  induction 1 as [|x l Hx Hall IH]; cbn [qsort fold_right].
  - constructor.
  - apply insert_sorted_on; [exact Hx| |exact IH].
    rewrite Forall_forall in *. intros y Hy. apply Hall.
    eapply Permutation_in; [apply LibcFacts.qsort_perm | exact Hy].
Qed.
End SortingOn.

End ThroughFacts.

(** ** Lookup by name *)

Lemma name_le_trans (tab : list sym) (a b c : nat) :
  name_le tab a b -> name_le tab b c -> name_le tab a c.
Proof.
  intros (sa & sb & Ha & Hb & H1) (sb' & sc & Hb' & Hc & H2).
  rewrite Hb in Hb'. inversion Hb'; subst sb'.
  exists sa, sc. repeat split; try assumption.
  now apply (StringFacts.strcmp_trans _ (name sb)).
Qed.

Lemma name_index_sorted (tab : list sym) :
  StronglySorted (name_le tab)
    (Libc.qsort (namesort tab) (seq 0 (List.length tab))).
Proof.
  apply Sorted_StronglySorted; [intros a b c; apply name_le_trans|].
  apply (ThroughFacts.qsort_sorted_on (namesort tab)
           (fun k => (k < List.length tab)%nat)).
  - intros x y Hx Hy. unfold namesort, name_le.
    destruct (nth_error tab x) as [sa|] eqn:Ex; [|apply nth_error_None in Ex; lia].
    destruct (nth_error tab y) as [sb|] eqn:Ey; [|apply nth_error_None in Ey; lia].
    intros H. now exists sa, sb.
  - intros x y Hx Hy. unfold namesort, name_le.
    destruct (nth_error tab x) as [sa|] eqn:Ex; [|apply nth_error_None in Ex; lia].
    destruct (nth_error tab y) as [sb|] eqn:Ey; [|apply nth_error_None in Ey; lia].
    intros H. exists sb, sa. repeat split; try assumption.
    rewrite StringFacts.strcmp_antisym. lia.
  - apply Forall_forall. intros k Hk. apply in_seq in Hk. lia.
Qed.

(** The index by name holds every pointer into the table once. *)
Lemma name_index_perm (tab : list sym) :
  Permutation (Libc.qsort (namesort tab) (seq 0 (List.length tab)))
              (seq 0 (List.length tab)).
Proof. apply LibcFacts.qsort_perm. Qed.

Lemma build_sym_names_valid (tab : list sym) :
  slots_valid (mk_symtab tab (build_sym_names tab) true).
Proof.
  unfold slots_valid, build_sym_names. cbn [sym_names syms]. split.
  - rewrite length_map, LibcFacts.qsort_length. apply length_seq.
  - apply Forall_forall. intros p Hp. apply in_map_iff in Hp as (k & <- & Hk).
    exists k. split; [reflexivity|].
    apply (Permutation_in _ (name_index_perm tab)) in Hk. apply in_seq in Hk. lia.
Qed.

(** [find_symname] on a table with its index by name: the search ends,
    with an entry of that name when the table has one and with NULL
    when it has none. *)
Lemma find_symname_indexed (tab : list sym) (nm : string) :
  (exists k s, find_symname (mk_symtab tab (build_sym_names tab) true) nm
                 = Some (Some (SymPtr k)) /\
               nth_error tab k = Some s /\ name s = nm) \/
  (find_symname (mk_symtab tab (build_sym_names tab) true) nm = Some None /\
   forall s, In s tab -> name s <> nm).
Proof.
  unfold find_symname, build_sym_names, nr_sym. cbn [name_sorted sym_names syms].
  set (q := Libc.qsort (namesort tab) (seq 0 (List.length tab))).
  pose proof (name_index_sorted tab) as Hsorted. fold q in Hsorted.
  pose proof (name_index_perm tab) as Hperm. fold q in Hperm.
  assert (Hlen : List.length q = List.length tab).
  { rewrite (Permutation_length Hperm). apply length_seq. }
  assert (Hvalid : forall i k, nth_error q i = Some k -> exists s, nth_error tab k = Some s).
  { intros i k Hk. apply nth_error_In in Hk.
    apply (Permutation_in _ Hperm) in Hk. apply in_seq in Hk.
    destruct (nth_error tab k) as [s|] eqn:E; [now exists s|].
    apply nth_error_None in E. lia. }
  set (sg := fun i => match nth_error q i with
                      | Some k => match nth_error tab k with
                                  | Some s => Libc.strcmp nm (name s)
                                  | None => 0
                                  end
                      | None => 0
                      end).
  assert (Hsg : forall i, (i < List.length tab)%nat ->
            exists k s, nth_error q i = Some k /\ nth_error tab k = Some s /\
                        sg i = Libc.strcmp nm (name s)).
  { intros i Hi. destruct (nth_error q i) as [k|] eqn:Ek.
    2:{ apply nth_error_None in Ek. lia. }
    destruct (Hvalid _ _ Ek) as [s Hs]. exists k, s. repeat split; try assumption.
    unfold sg. now rewrite Ek, Hs. }
  assert (Hord : forall i j, (i < j < List.length tab)%nat ->
            forall ki si kj sj, nth_error q i = Some ki -> nth_error tab ki = Some si ->
              nth_error q j = Some kj -> nth_error tab kj = Some sj ->
              Libc.strcmp (name si) (name sj) <= 0).
  { intros i j Hij ki si kj sj Hki Hsi Hkj Hsj.
    assert (Hle : name_le tab ki kj).
    { eapply (strongly_sorted_nth _ _ Hsorted i j); [lia|eassumption|eassumption]. }
    destruct Hle as (sa & sb & Ha & Hb & Hc).
    rewrite Hsi in Ha. rewrite Hsj in Hb. inversion Ha; inversion Hb; subst. exact Hc. }
  destruct (ThroughFacts.bsearch_through_sorted (namefind_through tab) nm
              (map SymPtr q) (List.length tab) sg) as [(i & E & Hi & Hz)|(E & Hno)].
  - intros i Hi. destruct (Hsg i Hi) as (k & s & Hk & Hs & Hv).
    exists (SymPtr k). split.
    + rewrite nth_error_map, Hk. reflexivity.
    + unfold namefind_through, deref. rewrite Hs, Hv. reflexivity.
  - intros i j Hij Hneg.
    destruct (Hsg i) as (ki & si & Hki & Hsi & Hvi); [lia|].
    destruct (Hsg j) as (kj & sj & Hkj & Hsj & Hvj); [lia|].
    rewrite Hvi in Hneg. rewrite Hvj.
    pose proof (Hord i j Hij _ _ _ _ Hki Hsi Hkj Hsj) as Hle.
    destruct (StringFacts.strcmp_trans nm (name si) (name sj)) as [_ H]; [lia|exact Hle|].
    apply H. now left.
  - intros i j Hij Hpos.
    destruct (Hsg i) as (ki & si & Hki & Hsi & Hvi); [lia|].
    destruct (Hsg j) as (kj & sj & Hkj & Hsj & Hvj); [lia|].
    rewrite Hvj in Hpos. rewrite Hvi.
    pose proof (Hord i j Hij _ _ _ _ Hki Hsi Hkj Hsj) as Hle.
    assert (Hjn : Libc.strcmp (name sj) nm < 0).
    { rewrite StringFacts.strcmp_antisym. lia. }
    destruct (StringFacts.strcmp_trans (name si) (name sj) nm) as [_ H]; [exact Hle|lia|].
    rewrite (StringFacts.strcmp_antisym (name si) nm).
    assert (Libc.strcmp (name si) nm < 0) by (apply H; now right). lia.
  - left. rewrite E.
    destruct (Hsg i Hi) as (k & s & Hk & Hs & Hv).
    exists k, s. rewrite nth_error_map, Hk. cbn [option_map].
    repeat split; try assumption.
    symmetry. apply StringFacts.strcmp_zero. now rewrite <- Hv.
  - right. rewrite E. split; [reflexivity|].
    intros s Hs Hnm. apply In_nth_error in Hs as [k Hk].
    assert (Hkq : In k q).
    { apply (Permutation_in _ (Permutation_sym Hperm)). apply in_seq.
      assert (k < List.length tab)%nat by (apply nth_error_Some; congruence). lia. }
    apply In_nth_error in Hkq as [i Hi].
    assert (Hil : (i < List.length tab)%nat).
    { rewrite <- Hlen. apply nth_error_Some. congruence. }
    apply (Hno i Hil). unfold sg. rewrite Hi, Hk. rewrite Hnm. apply StringFacts.strcmp_refl.
Qed.

Lemma scan_symname_spec (nm : string) (tab : list sym) (i : nat) :
  (exists k s, scan_symname nm tab i = Some (i + k)%nat /\
               nth_error tab k = Some s /\ name s = nm /\
               forall j s', (j < k)%nat -> nth_error tab j = Some s' -> name s' <> nm) \/
  (scan_symname nm tab i = None /\ forall s, In s tab -> name s <> nm).
Proof.
  revert i. induction tab as [|x tab IH]; intros i; cbn [scan_symname].
  - right. split; [reflexivity|]. intros s [].
  - destruct (Z.eqb_spec (Libc.strcmp nm (name x)) 0) as [E|E].
    + left. exists 0%nat, x. rewrite Nat.add_0_r. repeat split.
      * symmetry. now apply StringFacts.strcmp_zero.
      * intros j s' Hj. lia.
    + destruct (IH (S i)) as [(k & s & Hk & Hs & Hn & Hfirst)|(Hk & Hno)].
      * left. exists (S k), s. rewrite Hk. repeat split; try assumption.
        -- f_equal. lia.
        -- intros [|j] s' Hj Hs'; cbn in Hs'.
           ++ injection Hs' as <-. intros Hx. apply E. rewrite Hx.
              apply StringFacts.strcmp_refl.
           ++ apply (Hfirst j); [lia|exact Hs'].
      * right. split; [exact Hk|]. intros s [<-|Hin]; [|now apply Hno].
        intros Hx. apply E. rewrite Hx. apply StringFacts.strcmp_refl.
Qed.

Section ByName.
Variable hdr : header.

(** X1.  On the static table that a successful [load_symtab],
    [load_module_symbol] or [load_symbol_file] leaves behind,
    [find_symname] never faults: it returns an entry of the table with
    the name asked for when there is one, and NULL when there is none. *)
Theorem find_symname_loaded (t : symtab) (nm : string) :
  (exists t0 file offset fl, load_symtab hdr t0 file offset fl = (0, t)) \/
  (exists fs t0 symfile offset,
     load_module_symbol hdr fs t0 symfile offset = Some (0, t)) \/
  (exists fs tabs symfile offset tabs',
     load_symbol_file hdr fs tabs symfile offset = Some (0, tabs') /\ t = stab tabs') ->
  (exists k s, find_symname t nm = Some (Some (SymPtr k)) /\
               nth_error (syms t) k = Some s /\ name s = nm) \/
  (find_symname t nm = Some None /\ forall s, In s (syms t) -> name s <> nm).
Proof.
  intros H.
  assert (Ht : exists tab, t = mk_symtab tab (build_sym_names tab) true).
  { destruct H as [(t0 & file & offset & fl & H)|[(fs & t0 & symfile & offset & H)|
                   (fs & tabs & symfile & offset & tabs' & H & ->)]].
    - destruct (load_symtab_success hdr _ _ _ _ _ H) as [entries ->].
      eexists. reflexivity.
    - unfold load_module_symbol in H.
      destruct (fs_text fs symfile); [|inversion H].
      destruct (read_lines hdr false offset _ _) as [r|]; inversion H.
      eexists. reflexivity.
    - unfold load_symbol_file in H.
      destruct (fs_text fs symfile); [|inversion H].
      destruct (read_lines hdr true offset _ _) as [r|]; inversion H.
      eexists. reflexivity. }
  destruct Ht as [tab ->]. cbn [syms]. apply find_symname_indexed.
Qed.

End ByName.

(** X2.  On a table that is not indexed by name, as the PLT table after
    [sort_dynsymtab], [find_symname] returns the first entry of the
    array with the name asked for, and NULL when no entry has it. *)
Theorem find_symname_unsorted (t : symtab) (nm : string) :
  name_sorted t = false ->
  (exists k s, find_symname t nm = Some (Some (SymPtr k)) /\
               nth_error (syms t) k = Some s /\ name s = nm /\
               forall j s', (j < k)%nat -> nth_error (syms t) j = Some s' ->
                            name s' <> nm) \/
  (find_symname t nm = Some None /\ forall s, In s (syms t) -> name s <> nm).
Proof.
  intros Hn. unfold find_symname. rewrite Hn.
  destruct (scan_symname_spec nm (syms t) 0) as [(k & s & Hk & Hs)|(Hk & Hno)].
  - left. exists k, s. rewrite Hk. cbn [option_map Nat.add]. split; [reflexivity|exact Hs].
  - right. rewrite Hk. split; [reflexivity|exact Hno].
Qed.

(** ** The list of PLT indexes *)

Lemma name_listed_in (nm : string) (symlist : list string) :
  name_listed nm symlist = true <-> In nm symlist.
Proof.
  induction symlist as [|s rest IH]; cbn [name_listed In].
  - split; [discriminate | tauto].
  - destruct (Z.eqb_spec (Libc.strcmp nm s) 0) as [E|E].
    + apply StringFacts.strcmp_zero in E. subst. tauto.
    + rewrite IH. split; [tauto|]. intros [<-|H]; [|exact H].
      exfalso. apply E. apply StringFacts.strcmp_refl.
Qed.

Lemma name_listed_nil (nm : string) : name_listed nm [] = false.
Proof. reflexivity. Qed.

Lemma build_idx_filter (tab : list sym) (names : list names_slot)
    (symlist : list string) (ixs acc : list nat) :
  (forall i, In i ixs -> exists k s, nth_error names i = Some (SymPtr k) /\
                                     nth_error tab k = Some s) ->
  build_idx tab names symlist ixs acc
  = Some (acc ++ filter (slot_listed tab names symlist) ixs).
Proof.
  revert acc. induction ixs as [|i rest IH]; intros acc Hv; cbn [build_idx filter].
  - now rewrite app_nil_r.
  - destruct (Hv i) as (k & s & Hk & Hs); [now left|].
    assert (Hrest : forall j, In j rest -> exists k s,
              nth_error names j = Some (SymPtr k) /\ nth_error tab k = Some s).
    { intros j Hj. apply Hv. now right. }
    unfold slot_listed at 1. rewrite Hk. cbn [deref]. rewrite Hs.
    destruct symlist as [|s0 symlist].
    + cbn [name_listed]. now apply IH.
    + rewrite (IH _ Hrest).
      destruct (name_listed (name s) (s0 :: symlist)); [|reflexivity].
      now rewrite <- app_assoc.
Qed.

Lemma check_idx_exists (x : nat) (suf pre : list nat) :
  check_idx (pre ++ suf) (seq (List.length pre) (List.length suf)) x
  = Some (existsb (Nat.eqb x) suf).
Proof.
  revert pre. induction suf as [|y suf IH]; intros pre; cbn [List.length seq check_idx existsb].
  - reflexivity.
  - rewrite nth_error_app2, Nat.sub_diag by lia. cbn [nth_error].
    destruct (x =? y)%nat; [reflexivity|]. cbn [orb].
    replace (pre ++ y :: suf) with ((pre ++ [y]) ++ suf) by now rewrite <- app_assoc.
    replace (S (List.length pre)) with (List.length (pre ++ [y]))
      by (rewrite length_app; cbn; lia).
    apply IH.
Qed.

Lemma filter_seq_increasing (f : nat -> bool) (a n : nat) :
  StronglySorted lt (filter f (seq a n)).
Proof.
  revert a. induction n as [|n IH]; intros a; cbn [seq filter]; [constructor|].
  destruct (f a); [|apply IH].
  constructor; [apply IH|].
  apply Forall_forall. intros y Hy. apply filter_In in Hy as [Hy _].
  apply in_seq in Hy. lia.
Qed.

(** X3.  On a PLT table whose slots are valid, [build_dynsym_idxlist]
    returns an increasing list of indexes, and [check_dynsym_idxlist]
    then answers true for exactly the indexes at which [find_dynsym]
    gives an entry that carries one of the listed names; after
    [destroy_dynsym_idxlist] it answers false for every index. *)
Theorem dynsym_idxlist_membership (tabs : symtabs) (symlist : list string) :
  slots_valid (dsymtab tabs) ->
  exists l,
    build_dynsym_idxlist tabs symlist = Some l /\
    count l = List.length (idx l) /\
    StronglySorted lt (idx l) /\
    (forall x, exists b,
       check_dynsym_idxlist l x = Some b /\
       (b = true <->
        exists p s, find_dynsym tabs x = Some (Some p) /\
                    deref (syms (dsymtab tabs)) p = Some s /\
                    In (name s) symlist)) /\
    (forall x, check_dynsym_idxlist (destroy_dynsym_idxlist l) x = Some false).
Proof.
  intros [Hlen Hall]. unfold build_dynsym_idxlist, nr_sym.
  set (d := dsymtab tabs) in *.
  assert (Hv : forall i, (i < List.length (syms d))%nat ->
            exists k s, nth_error (sym_names d) i = Some (SymPtr k) /\
                        nth_error (syms d) k = Some s).
  { intros i Hi. destruct (nth_error (sym_names d) i) as [p|] eqn:Ep.
    2:{ apply nth_error_None in Ep. lia. }
    rewrite Forall_forall in Hall.
    destruct (Hall p (nth_error_In _ _ Ep)) as (k & -> & Hk).
    destruct (nth_error (syms d) k) as [s|] eqn:Es.
    2:{ apply nth_error_None in Es. lia. }
    now exists k, s. }
  rewrite build_idx_filter.
  2:{ intros i Hi. apply in_seq in Hi. apply Hv. lia. }
  cbn [app]. eexists. split; [reflexivity|]. cbn [idx count].
  split; [reflexivity|]. split; [apply filter_seq_increasing|]. split.
  - intros x. eexists. split.
    + unfold check_dynsym_idxlist. cbn [idx count].
      apply (check_idx_exists x _ []).
    + rewrite existsb_exists. split.
      * intros (y & Hy & Exy). apply Nat.eqb_eq in Exy. subst y.
        apply filter_In in Hy as [Hy Hsel]. apply in_seq in Hy.
        destruct (Hv x) as (k & s & Hk & Hs); [lia|].
        unfold slot_listed in Hsel. rewrite Hk in Hsel. cbn [deref] in Hsel.
        rewrite Hs in Hsel. apply name_listed_in in Hsel.
        exists (SymPtr k), s. unfold find_dynsym, nr_sym. fold d.
        destruct (Nat.leb_spec (List.length (syms d)) x); [lia|].
        rewrite Hk. cbn [deref]. now repeat split.
      * intros (p & s & Hf & Hs & Hin). unfold find_dynsym, nr_sym in Hf. fold d in Hf.
        destruct (Nat.leb_spec (List.length (syms d)) x); [discriminate|].
        destruct (nth_error (sym_names d) x) as [p'|] eqn:Ep; [|discriminate].
        inversion Hf; subst p'. exists x. split; [|apply Nat.eqb_refl].
        apply filter_In. split; [apply in_seq; lia|].
        unfold slot_listed. rewrite Ep, Hs. now apply name_listed_in.
  - intros x. reflexivity.
Qed.

(** ** Modules *)

Lemma find_map_by_name_spec (prefix : string) (ms : list ftrace_proc_maps) (k0 : nat) :
  match find_map_by_name ms prefix k0 with
  | Some (k, m) =>
      (k0 <= k)%nat /\ nth_error ms (k - k0) = Some m /\ names_module prefix m /\
      forall j m', (j < k - k0)%nat -> nth_error ms j = Some m' -> ~ names_module prefix m'
  | None => forall m, In m ms -> ~ names_module prefix m
  end.
Proof.
  revert k0. induction ms as [|m ms IH]; intros k0; cbn [find_map_by_name].
  - intros m [].
  - destruct (Z.eqb_spec (Libc.strncmp (mod_name (libname m)) prefix
                            (String.length prefix)) 0) as [E|E].
    + rewrite Nat.sub_diag. repeat split; [lia| |].
      * now apply StringFacts.strncmp_prefix.
      * intros j m' Hj. lia.
    + assert (Hm : ~ names_module prefix m).
      { intros H. apply E. now apply StringFacts.strncmp_prefix. }
      specialize (IH (S k0)).
      destruct (find_map_by_name ms prefix (S k0)) as [[k m1]|].
      * destruct IH as (Hk & Hn & Hp & Hfirst).
        replace (k - k0)%nat with (S (k - S k0)) by lia.
        repeat split; [lia|exact Hn|exact Hp|].
        intros [|j] m' Hj Hm'; cbn in Hm'.
        -- now inversion Hm'; subst.
        -- apply (Hfirst j); [lia|exact Hm'].
      * intros m' [<-|Hin]; [exact Hm|now apply IH].
Qed.

(** X4.  [find_map_by_name] returns the first map of the list whose
    file name (what follows the last slash of [libname]) starts with the
    prefix, and NULL exactly when no map has such a name. *)
Theorem find_map_by_name_first (ms : list ftrace_proc_maps) (prefix : string) :
  match find_map_by_name ms prefix 0 with
  | Some (k, m) =>
      nth_error ms k = Some m /\ names_module prefix m /\
      forall j m', (j < k)%nat -> nth_error ms j = Some m' -> ~ names_module prefix m'
  | None => forall m, In m ms -> ~ names_module prefix m
  end.
Proof.
  pose proof (find_map_by_name_spec prefix ms 0) as H.
  destruct (find_map_by_name ms prefix 0) as [[k m]|]; [|exact H].
  rewrite Nat.sub_0_r in H. tauto.
Qed.

Lemma find_map_by_name_nth (ms : list ftrace_proc_maps) (prefix : string)
    (k : nat) (m : ftrace_proc_maps) :
  find_map_by_name ms prefix 0 = Some (k, m) -> nth_error ms k = Some m.
Proof.
  intros H. pose proof (find_map_by_name_spec prefix ms 0) as Hs. rewrite H in Hs.
  rewrite Nat.sub_0_r in Hs. tauto.
Qed.

Lemma set_nth_length {A} (l : list A) (k : nat) (x : A) :
  List.length (set_nth l k x) = List.length l.
Proof.
  revert k. induction l as [|y l IH]; intros [|k]; cbn; try reflexivity.
  now rewrite IH.
Qed.

Lemma set_nth_same {A} (l : list A) (k : nat) (x : A) :
  (k < List.length l)%nat -> nth_error (set_nth l k x) k = Some x.
Proof.
  revert k. induction l as [|y l IH]; intros [|k] Hk; cbn in *; try lia; try reflexivity.
  apply IH. lia.
Qed.

Lemma set_nth_other {A} (l : list A) (k j : nat) (x : A) :
  j <> k -> nth_error (set_nth l k x) j = nth_error l j.
Proof.
  revert k j. induction l as [|y l IH]; intros [|k] [|j] Hjk; cbn; try reflexivity.
  - congruence.
  - apply IH. congruence.
Qed.

Lemma set_nth_map {A B} (f : A -> B) (l : list A) (k : nat) (x y : A) :
  nth_error l k = Some y -> f x = f y -> map f (set_nth l k x) = map f l.
Proof.
  revert k. induction l as [|z l IH]; intros [|k] Hk Hf; cbn in *; try discriminate.
  - inversion Hk; subst. now rewrite Hf.
  - f_equal. now apply IH.
Qed.

Lemma set_nth_id {A} (l : list A) (k : nat) (x : A) :
  nth_error l k = Some x -> set_nth l k x = l.
Proof.
  revert k. induction l as [|z l IH]; intros [|k] Hk; cbn in *; try discriminate.
  - now inversion Hk.
  - f_equal. now apply IH.
Qed.

Section ModuleTables.
Variable hdr : header.

Lemma load_modules_frame (fs : fsys) (head : list string) :
  forall tabs tabs',
    load_modules hdr fs tabs head = Some tabs' ->
    loaded tabs' = loaded tabs /\ dirname tabs' = dirname tabs /\
    stab tabs' = stab tabs /\ dsymtab tabs' = dsymtab tabs /\
    flags tabs' = flags tabs /\
    map map_region (maps tabs') = map map_region (maps tabs) /\
    (forall k m, nth_error (maps tabs) k = Some m ->
                 nr_sym (map_symtab m) <> 0%nat ->
                 nth_error (maps tabs') k = Some m).
Proof.
  induction head as [|nm rest IH]; intros tabs tabs'; cbn [load_modules].
  - intros H. inversion H; subst. repeat split; auto.
  - destruct (reserved_module nm); [apply IH|].
    destruct (find_map_by_name (maps tabs) nm 0) as [[k m]|] eqn:Ef; [|apply IH].
    destruct (Nat.eqb_spec (nr_sym (map_symtab m)) 0) as [Ez|Ez]; cbn [negb]; [|apply IH].
    destruct (load_module hdr fs tabs m) as [t|]; [|discriminate].
    intros H. apply IH in H. cbn [with_maps loaded dirname stab dsymtab flags maps] in H.
    destruct H as (H1 & H2 & H3 & H4 & H5 & H6 & H7).
    pose proof (find_map_by_name_nth _ _ _ _ Ef) as Hk.
    repeat split; try assumption.
    + rewrite H6. now apply (set_nth_map map_region _ _ _ m).
    + intros j mj Hj Hne. apply H7; [|exact Hne].
      rewrite set_nth_other; [exact Hj|].
      intros ->. rewrite Hk in Hj. inversion Hj; subst. contradiction.
Qed.

(** X5.  [load_module_symtabs] aborts on an empty map list; otherwise
    it changes nothing but the tables of maps: the main tables, the
    flags and the name and address range of every map stay, and a map
    whose table already holds entries keeps it. *)
Theorem load_module_symtabs_frame (fs : fsys) (tabs tabs' : symtabs)
    (head : list string) :
  (maps tabs = [] -> load_module_symtabs hdr fs tabs head = Some Fatal) /\
  (load_module_symtabs hdr fs tabs head = Some (Done tabs') ->
   loaded tabs' = loaded tabs /\ dirname tabs' = dirname tabs /\
   stab tabs' = stab tabs /\ dsymtab tabs' = dsymtab tabs /\
   flags tabs' = flags tabs /\
   map map_region (maps tabs') = map map_region (maps tabs) /\
   (forall k m, nth_error (maps tabs) k = Some m ->
                nr_sym (map_symtab m) <> 0%nat ->
                nth_error (maps tabs') k = Some m)).
Proof.
  unfold load_module_symtabs. split.
  - intros ->. reflexivity.
  - destruct (maps tabs) eqn:Em; [discriminate|].
    destruct (load_modules hdr fs tabs head) as [t|] eqn:El; [|discriminate].
    cbn [option_map]. intros H. inversion H; subst t.
    rewrite <- Em. now apply (load_modules_frame fs head).
Qed.

(** The load of one module is the lazy load inside [find_symtabs]. *)
Lemma populate_map_load_module (fs : fsys) (tabs : symtabs) (m : ftrace_proc_maps) :
  nr_sym (map_symtab m) = 0%nat ->
  populate_map hdr fs tabs m = load_module hdr fs tabs m.
Proof.
  intros Hz. unfold populate_map, load_module. rewrite Hz. cbn [Nat.eqb].
  destruct (flag_set (flags tabs) (SYMTAB_FL_USE_SYMFILE hdr)); [|reflexivity].
  destruct (load_module_symbol hdr fs (map_symtab m) _ _) as [[ret t]|]; [|reflexivity].
  destruct (ret =? 0); reflexivity.
Qed.

End ModuleTables.

(** ** Cache files of modules *)

Lemma save_module_symbol_keeps (fs fs' : fsys) (tab : symtab) (symfile : string)
    (offset : Z) :
  save_module_symbol fs tab symfile offset = Done fs' ->
  fs_elf fs' = fs_elf fs /\ fs_deny fs' = fs_deny fs /\
  (forall p txt, fs_text fs p = Some txt -> fs_text fs' p = Some txt) /\
  fs_text fs' symfile <> None.
Proof.
  unfold save_module_symbol, fopen_wx.
  destruct (fs_text fs symfile) as [old|] eqn:Eo.
  - intros H. inversion H; subst. repeat split; auto. congruence.
  - destruct (fs_deny fs symfile); [discriminate|].
    intros H. inversion H; subst. unfold fs_write. cbn [fs_elf fs_deny fs_text].
    repeat split.
    + intros p txt Hp. destruct (String.eqb_spec p symfile) as [->|]; [congruence|exact Hp].
    + rewrite String.eqb_refl. discriminate.
Qed.

(** X6.  [save_module_symtabs] never changes a file that exists: every
    text readable before is readable unchanged afterwards, and each
    name of the list that designates a map has its cache file
    afterwards. *)
Theorem save_module_symtabs_keeps_files (tabs : symtabs) (modules : list string) :
  forall fs fs',
    save_module_symtabs fs tabs modules = Done fs' ->
    fs_elf fs' = fs_elf fs /\ fs_deny fs' = fs_deny fs /\
    (forall p txt, fs_text fs p = Some txt -> fs_text fs' p = Some txt) /\
    (forall nm k m, In nm modules -> find_map_by_name (maps tabs) nm 0 = Some (k, m) ->
       fs_text fs' (symfile_path (dirname tabs) (libname m)) <> None).
Proof.
  induction modules as [|nm rest IH]; intros fs fs'; cbn [save_module_symtabs].
  - intros H. inversion H; subst. repeat split; auto.
  - destruct (find_map_by_name (maps tabs) nm 0) as [[k m]|] eqn:Ef.
    + destruct (save_module_symbol fs (map_symtab m) _ (start m)) as [fs1|] eqn:Es;
        [|discriminate].
      intros H. destruct (IH _ _ H) as (H1 & H2 & H3 & H4).
      destruct (save_module_symbol_keeps _ _ _ _ _ Es) as (G1 & G2 & G3 & G4).
      repeat split.
      * congruence.
      * congruence.
      * intros p txt Hp. apply H3. now apply G3.
      * intros nm' k' m' [<-|Hin] Hf.
        -- rewrite Ef in Hf. inversion Hf; subst k' m'.
           destruct (fs_text fs1 (symfile_path (dirname tabs) (libname m))) as [txt|] eqn:Et;
             [|congruence].
           rewrite (H3 _ _ Et). discriminate.
        -- now apply (H4 nm' k' m').
    + intros H. destruct (IH _ _ H) as (H1 & H2 & H3 & H4).
      repeat split; auto.
      intros nm' k' m' [<-|Hin] Hf; [congruence|now apply (H4 nm' k' m')].
Qed.

(** ** What a lookup by address returns *)

Lemma find_map_spec (a : Z) (ms : list ftrace_proc_maps) (k0 : nat) :
  match find_map ms a k0 with
  | Some (k, m) =>
      (k0 <= k)%nat /\ nth_error ms (k - k0) = Some m /\ start m <= a < end_ m
  | None => forall m, In m ms -> ~ (start m <= a < end_ m)
  end.
Proof.
  revert k0. induction ms as [|m ms IH]; intros k0; cbn [find_map].
  - intros m [].
  - destruct (Z.leb_spec (start m) a) as [H1|H1]; cbn [andb].
    + destruct (Z.ltb_spec a (end_ m)) as [H2|H2].
      * rewrite Nat.sub_diag. repeat split; lia.
      * specialize (IH (S k0)). destruct (find_map ms a (S k0)) as [[k m1]|].
        -- destruct IH as (Hk & Hn & Hr).
           replace (k - k0)%nat with (S (k - S k0)) by lia. repeat split; try lia. exact Hn.
        -- intros m' [<-|Hin]; [lia|now apply IH].
    + specialize (IH (S k0)). destruct (find_map ms a (S k0)) as [[k m1]|].
      * destruct IH as (Hk & Hn & Hr).
        replace (k - k0)%nat with (S (k - S k0)) by lia. repeat split; try lia. exact Hn.
      * intros m' [<-|Hin]; [lia|now apply IH].
Qed.

Lemma find_map_nth (a : Z) (ms : list ftrace_proc_maps) (k : nat) (m : ftrace_proc_maps) :
  find_map ms a 0 = Some (k, m) -> nth_error ms k = Some m /\ start m <= a < end_ m.
Proof.
  intros H. pose proof (find_map_spec a ms 0) as Hs. rewrite H in Hs.
  rewrite Nat.sub_0_r in Hs. tauto.
Qed.

Lemma bsearch_in_range (a : Z) (tab : list sym) (i : nat) :
  Libc.bsearch addrfind a tab = Some i ->
  exists s, nth_error tab i = Some s /\ in_range a s = true.
Proof.
  intros H. destruct (LibcFacts.bsearch_hit _ _ _ _ H) as (s & Hs & Hc).
  exists s. split; [exact Hs|]. now apply addrfind_zero.
Qed.

Lemma populate_map_loaded (hdr : header) (fs : fsys) (tabs : symtabs)
    (m : ftrace_proc_maps) :
  nr_sym (map_symtab m) <> 0%nat -> populate_map hdr fs tabs m = Some (map_symtab m).
Proof.
  intros H. unfold populate_map.
  destruct (Nat.eqb_spec (nr_sym (map_symtab m)) 0); [contradiction|reflexivity].
Qed.

Section LookupResults.
Variable hdr : header.

(** X7.  Whatever [find_symtabs] returns designates an entry of the
    table set it leaves behind, and the range of that entry holds the
    address looked up (for a kernel address, the address that
    [get_real_address] makes of it). *)
Theorem find_symtabs_sound (fs : fsys) (k tabs tabs' : symtabs) (a : Z) (r : symref) :
  find_symtabs hdr fs k tabs a = Some (Some r, tabs') ->
  exists s, symref_get k tabs' r = Some s /\
            in_range (if is_kernel_address hdr a then get_real_address hdr a else a) s
            = true.
Proof.
  unfold find_symtabs. destruct (is_kernel_address hdr a).
  - unfold get_kernel_symtab. destruct (loaded k); [|discriminate].
    destruct (Libc.bsearch addrfind (get_real_address hdr a) (syms (stab k))) as [i|] eqn:E;
      cbn [option_map]; [|discriminate].
    intros H. inversion H; subst. cbn [symref_get]. now apply bsearch_in_range.
  - destruct (Libc.bsearch addrfind a (syms (stab tabs))) as [i|] eqn:E1.
    { intros H. inversion H; subst. cbn [symref_get]. now apply bsearch_in_range. }
    destruct (Libc.bsearch addrfind a (syms (dsymtab tabs))) as [i|] eqn:E2.
    { intros H. inversion H; subst. cbn [symref_get]. now apply bsearch_in_range. }
    destruct (find_map (maps tabs) a 0) as [[j m]|] eqn:Em; [|discriminate].
    destruct (populate_map hdr fs tabs m) as [t|]; [|discriminate].
    destruct (Libc.bsearch addrfind a (syms t)) as [i|] eqn:E3; cbn [option_map];
      [|discriminate].
    intros H. inversion H; subst. cbn [symref_get with_maps maps].
    destruct (find_map_nth _ _ _ _ Em) as [Hj _].
    rewrite set_nth_same by (apply nth_error_Some; congruence).
    cbn [map_symtab]. now apply bsearch_in_range.
Qed.

(** X8.  [find_symtabs] changes nothing but the table of the first map
    that holds the address, and that only when the table is empty: the
    main tables, the flags, the name and range of every map, every map
    that does not hold the address and every map with entries stay. *)
Theorem find_symtabs_frame (fs : fsys) (k tabs tabs' : symtabs) (a : Z)
    (r : option symref) :
  find_symtabs hdr fs k tabs a = Some (r, tabs') ->
  loaded tabs' = loaded tabs /\ dirname tabs' = dirname tabs /\
  stab tabs' = stab tabs /\ dsymtab tabs' = dsymtab tabs /\
  flags tabs' = flags tabs /\
  map map_region (maps tabs') = map map_region (maps tabs) /\
  (forall j m, nth_error (maps tabs) j = Some m ->
               nr_sym (map_symtab m) <> 0%nat \/ ~ (start m <= a < end_ m) ->
               nth_error (maps tabs') j = Some m).
Proof.
  unfold find_symtabs. destruct (is_kernel_address hdr a).
  { destruct (get_kernel_symtab k); intros H; inversion H; subst; repeat split; auto. }
  destruct (Libc.bsearch addrfind a (syms (stab tabs))).
  { intros H; inversion H; subst; repeat split; auto. }
  destruct (Libc.bsearch addrfind a (syms (dsymtab tabs))).
  { intros H; inversion H; subst; repeat split; auto. }
  destruct (find_map (maps tabs) a 0) as [[i m]|] eqn:Em.
  2:{ intros H; inversion H; subst; repeat split; auto. }
  destruct (find_map_nth _ _ _ _ Em) as [Hi Hr].
  destruct (populate_map hdr fs tabs m) as [t|] eqn:Ep; [|discriminate].
  intros H. inversion H; subst. cbn [with_maps loaded dirname stab dsymtab flags maps].
  repeat split.
  - now apply (set_nth_map map_region _ _ _ m).
  - intros j mj Hj Hcond. destruct (Nat.eq_dec j i) as [->|Hne].
    + rewrite Hi in Hj. inversion Hj; subst mj.
      destruct Hcond as [Hn|Hn]; [|contradiction].
      rewrite (populate_map_loaded _ _ _ _ Hn) in Ep. inversion Ep; subst t.
      rewrite set_nth_same by (apply nth_error_Some; congruence).
      now destruct m.
    + rewrite set_nth_other; [exact Hj|exact Hne].
Qed.

(** X9.  Loading the tables of a module ahead with
    [load_module_symtabs] gives what the first lookup of an address of
    that module would have loaded: when the load leaves entries, the
    lookup gives the same entry with or without the ahead load, and the
    same final table set. *)
Theorem preload_is_lazy_load (fs : fsys) (k tabs : symtabs) (nm : string) (a : Z)
    (i : nat) (m : ftrace_proc_maps) (t : symtab) :
  is_kernel_address hdr a = false ->
  Libc.bsearch addrfind a (syms (stab tabs)) = None ->
  Libc.bsearch addrfind a (syms (dsymtab tabs)) = None ->
  find_map (maps tabs) a 0 = Some (i, m) ->
  reserved_module nm = false ->
  find_map_by_name (maps tabs) nm 0 = Some (i, m) ->
  nr_sym (map_symtab m) = 0%nat ->
  load_module hdr fs tabs m = Some t ->
  nr_sym t <> 0%nat ->
  exists tabs1,
    load_module_symtabs hdr fs tabs [nm] = Some (Done tabs1) /\
    find_symtabs hdr fs k tabs a
      = Some (option_map (MapSym i) (Libc.bsearch addrfind a (syms t)), tabs1) /\
    find_symtabs hdr fs k tabs1 a
      = Some (option_map (MapSym i) (Libc.bsearch addrfind a (syms t)), tabs1).
Proof.
  intros Hk H1 H2 Hm Hres Hn Hz Hl Hnz.
  destruct (find_map_nth _ _ _ _ Hm) as [Hi Hr].
  set (m1 := mk_map (libname m) (start m) (end_ m) t).
  set (tabs1 := with_maps tabs (set_nth (maps tabs) i m1)).
  exists tabs1. split; [|split].
  - assert (E : load_module_symtabs hdr fs tabs [nm]
                = option_map Done (load_modules hdr fs tabs [nm])).
    { unfold load_module_symtabs.
      destruct (maps tabs); [destruct i; discriminate | reflexivity]. }
    rewrite E. cbn [load_modules]. rewrite Hres, Hn, Hz. cbn [Nat.eqb negb].
    rewrite Hl. reflexivity.
  - unfold find_symtabs. rewrite Hk, H1, H2, Hm.
    rewrite (populate_map_load_module hdr fs tabs m Hz), Hl. reflexivity.
  - assert (Hfm : find_map (maps tabs1) a 0 = Some (i, m1)).
    { unfold tabs1. cbn [with_maps maps].
      assert (G : forall ms k0 j, find_map ms a k0 = Some (j, m) ->
                find_map (set_nth ms (j - k0) m1) a k0 = Some (j, m1)).
      { induction ms as [|x ms IH]; intros k0 j; cbn [find_map]; [discriminate|].
        destruct ((start x <=? a) && (a <? end_ x)) eqn:E.
        - intros H. inversion H; subst. rewrite Nat.sub_diag. cbn [set_nth find_map].
          unfold m1. cbn [start end_]. now rewrite E.
        - intros H. pose proof (find_map_spec a ms (S k0)) as Hs. rewrite H in Hs.
          destruct Hs as (Hle & _).
          replace (j - k0)%nat with (S (j - S k0)) by lia.
          cbn [set_nth find_map]. rewrite E. now apply IH. }
      specialize (G _ _ _ Hm). now rewrite Nat.sub_0_r in G. }
    unfold find_symtabs. rewrite Hk.
    replace (stab tabs1) with (stab tabs) by reflexivity.
    replace (dsymtab tabs1) with (dsymtab tabs) by reflexivity.
    rewrite H1, H2, Hfm.
    rewrite populate_map_loaded by exact Hnz.
    assert (Hid : set_nth (maps tabs1) i m1 = maps tabs1).
    { apply set_nth_id. unfold tabs1. cbn [with_maps maps].
      apply set_nth_same. apply nth_error_Some. congruence. }
    change (mk_map (libname m1) (start m1) (end_ m1) (map_symtab m1)) with m1.
    rewrite Hid. reflexivity.
Qed.

(** ** Kernel addresses *)

Lemma get_real_address_twice (a : Z) :
  get_real_address hdr (get_real_address hdr a) = get_real_address hdr a.
Proof.
  unfold get_real_address. destruct (is_kernel_address hdr a) eqn:E.
  - destruct (is_kernel_address hdr (Z.lor a _)); [|reflexivity].
    now rewrite <- Z.lor_assoc, Z.lor_diag.
  - now rewrite E.
Qed.

Lemma lor_bounds (a m : Z) :
  0 <= a < 2 ^ 64 -> 0 <= m < 2 ^ 64 -> a <= Z.lor a m < 2 ^ 64.
Proof.
  intros Ha Hm. split.
  - pose proof (Z.add_lor_land a m) as Hs.
    assert (Hd : 0 <= Z.ldiff m a) by (apply Z.ldiff_nonneg; lia).
    assert (Hz : Z.land (Z.ldiff m a) (Z.land m a) = 0).
    { rewrite (Z.land_comm m a), Z.land_assoc, Z.land_ldiff. apply Z.land_0_l. }
    pose proof (Z.lor_ldiff_and m a) as Hm'.
    rewrite <- (Z.lxor_lor _ _ Hz), <- (Z.add_nocarry_lxor _ _ Hz) in Hm'.
    rewrite (Z.land_comm m a) in Hm'. lia.
  - destruct (Z.eq_dec (Z.lor a m) 0) as [->|Hne]; [lia|].
    assert (0 <= Z.lor a m) by (apply Z.lor_nonneg; lia).
    apply Z.log2_lt_pow2; [lia|].
    rewrite Z.log2_lor by lia.
    apply Z.max_lub_lt.
    + destruct (Z.eq_dec a 0) as [->|]; [cbn; lia|]. apply Z.log2_lt_pow2; lia.
    + destruct (Z.eq_dec m 0) as [->|]; [cbn; lia|]. apply Z.log2_lt_pow2; lia.
Qed.

(** X10.  [get_real_address] only sets bits: applying it twice is
    applying it once, a 64-bit address stays a 64-bit address not below
    the one given, and a kernel address is looked up the same in its
    short and in its full form. *)
Theorem kernel_address_canonical (fs : fsys) (k tabs : symtabs) (a : Z) :
  get_real_address hdr (get_real_address hdr a) = get_real_address hdr a /\
  (0 <= a < 2 ^ 64 -> a <= get_real_address hdr a < 2 ^ 64) /\
  (is_kernel_address hdr a = true ->
   is_kernel_address hdr (get_real_address hdr a) = true ->
   find_symtabs hdr fs k tabs (get_real_address hdr a) = find_symtabs hdr fs k tabs a).
Proof.
  split; [apply get_real_address_twice|]. split.
  - intros Ha. unfold get_real_address. destruct (is_kernel_address hdr a); [|lia].
    apply lor_bounds; [exact Ha|]. unfold wrap64. apply Z.mod_pos_bound. lia.
  - intros H1 H2. unfold find_symtabs. rewrite H1, H2.
    now rewrite get_real_address_twice.
Qed.

Lemma sorted_map_addr (f : sym -> sym) (l : list sym) :
  (forall s, addr (f s) = addr s) -> Sorted addr_le l -> Sorted addr_le (map f l).
Proof.
  intros Hf. induction 1 as [|x l Hs IH Hd]; cbn [map]; constructor; [exact IH|].
  destruct Hd as [|y l Hxy]; cbn [map]; constructor.
  unfold addr_le in *. now rewrite !Hf.
Qed.

(** X11.  [load_kernel_symbol] on a table that is not loaded returns -1
    when /proc/kallsyms cannot be read, and leaves the table as it was
    and unloaded, so that [get_kernel_symtab] gives NULL; it returns -1
    in no other case.  When it returns 0 the table is loaded,
    [get_kernel_symtab] hands it out, a table read by this call is
    sorted by address with every entry typed [ST_KERNEL], and further
    calls read nothing again. *)
Theorem load_kernel_symbol_table (fs : fsys) (k : symtabs) :
  (loaded k = false -> fs_text fs "/proc/kallsyms" = None ->
   load_kernel_symbol hdr fs k = Some (-1, k) /\ get_kernel_symtab k = None) /\
  (forall ret k',
     load_kernel_symbol hdr fs k = Some (ret, k') ->
     (ret = 0 /\ loaded k' = true /\ get_kernel_symtab k' = Some (stab k') /\
      (loaded k = false ->
       fs_text fs "/proc/kallsyms" <> None /\
       Forall (fun s => type s = ST_KERNEL) (syms (stab k')) /\
       Sorted addr_le (syms (stab k'))) /\
      (forall fs', load_kernel_symbol hdr fs' k' = Some (0, k'))) \/
     (ret = -1 /\ k' = k /\ loaded k = false /\ fs_text fs "/proc/kallsyms" = None /\
      get_kernel_symtab k' = None)).
Proof.
  split.
  - intros El Et. unfold load_kernel_symbol, load_symbol_file, get_kernel_symtab.
    rewrite El, Et. split; reflexivity.
  - intros ret k' H. unfold load_kernel_symbol in H. destruct (loaded k) eqn:El.
    + inversion H; subst. left. unfold get_kernel_symtab, load_kernel_symbol. rewrite El.
      repeat split; discriminate.
    + unfold load_symbol_file in H.
      destruct (fs_text fs "/proc/kallsyms") as [text|] eqn:Et.
      * destruct (read_lines hdr true 0 _ _) as [r|]; [|discriminate].
        cbn [Z.ltb Z.compare] in H. inversion H; subst. left.
        unfold get_kernel_symtab, load_kernel_symbol. cbn [loaded stab syms].
        repeat split.
        -- discriminate.
        -- apply Forall_forall. intros s Hs. apply in_map_iff in Hs as (s0 & <- & _).
           reflexivity.
        -- apply sorted_map_addr; [reflexivity|]. apply qsort_addrsort_sorted.
      * cbn [Z.ltb Z.compare] in H. inversion H; subst. right.
        unfold get_kernel_symtab. rewrite El. now repeat split.
Qed.

End LookupResults.

(** ** Where the entries of a loaded table come from *)

Lemma dedup_tail_incl (c x : sym) (l : list sym) : In x (dedup_tail c l) -> In x l.
Proof.
  intros H. destruct (dedup_tail_suffix c l) as [pre E]. rewrite E.
  apply in_or_app. now right.
Qed.

Lemma dedup_from_incl (fuel : nat) (x : sym) :
  forall l, In x (dedup_from fuel l) -> In x l.
Proof.
  induction fuel as [|fuel IH]; intros l; cbn [dedup_from]; [auto|].
  destruct l as [|c [|n tl]]; auto.
  intros [<-|H]; [now left|]. right. apply IH in H. now apply dedup_tail_incl in H.
Qed.

(** What the [while] loop drops has the address of [curr]. *)
Lemma dedup_tail_addr (c x : sym) (l : list sym) :
  In x l -> In x (dedup_tail c l) \/ addr x = addr c.
Proof.
  induction l as [|next rest IH]; cbn [dedup_tail]; [intros []|].
  destruct (Z.eqb_spec (addr c) (addr next)) as [E|E]; [|now left].
  intros [<-|H]; [now right|].
  destruct (List.length rest <=? 1)%nat; [now left | now apply IH].
Qed.

Lemma dedup_from_addr (fuel : nat) (x : sym) :
  forall l, (List.length l <= fuel)%nat -> In x l ->
            exists y, In y (dedup_from fuel l) /\ addr y = addr x.
Proof.
  induction fuel as [|fuel IH]; intros l Hl Hx.
  - destruct l; [destruct Hx | cbn in Hl; lia].
  - cbn [dedup_from]. destruct l as [|c [|n tl]].
    + destruct Hx.
    + exists x. now split.
    + destruct Hx as [<-|Hx]; [exists c; split; [now left|reflexivity]|].
      destruct (dedup_tail_addr c x (n :: tl) Hx) as [Hin|Ha].
      * destruct (IH (dedup_tail c (n :: tl))) with (2 := Hin) as (y & Hy & Hay).
        { pose proof (dedup_tail_length c (n :: tl)). cbn [List.length] in *. lia. }
        exists y. split; [now right|exact Hay].
      * exists c. split; [now left|now symmetry].
Qed.

Lemma finish_symtab_incl (tab : list sym) (s : sym) :
  In s (syms (finish_symtab tab)) -> In s tab.
Proof.
  unfold finish_symtab. cbn [syms]. rewrite remove_duplicates_live. intros H.
  apply dedup_from_incl in H.
  eapply Permutation_in; [apply LibcFacts.qsort_perm | exact H].
Qed.

Lemma finish_symtab_addr (tab : list sym) (s : sym) :
  In s tab -> exists s', In s' (syms (finish_symtab tab)) /\ addr s' = addr s.
Proof.
  intros H. unfold finish_symtab. cbn [syms]. rewrite remove_duplicates_live.
  apply dedup_from_addr; [lia|].
  eapply Permutation_in; [apply Permutation_sym, LibcFacts.qsort_perm | exact H].
Qed.

Lemma scan_symtab_choice (scns : list (option Elf.Shdr)) (dyn0 : option Elf.Shdr)
    (sym_sec dynsym_sec : option Elf.Shdr) :
  scan_symtab scns dyn0 = Some (sym_sec, dynsym_sec) ->
  match sym_sec with
  | Some s => In (Some s) scns /\ Elf.sh_name s = ".symtab"%string
  | None =>
      (forall s, In (Some s) scns -> Elf.sh_name s <> ".symtab"%string) /\
      (dynsym_sec = dyn0 \/
       exists s, dynsym_sec = Some s /\ In (Some s) scns /\
                 Elf.sh_name s = ".dynsym"%string)
  end.
Proof.
  revert dyn0. induction scns as [|[shdr|] rest IH]; intros dyn0; cbn [scan_symtab].
  - intros H. inversion H; subst. split; [intros s []|now left].
  - destruct (String.eqb_spec (Elf.sh_name shdr) ".symtab") as [E|E].
    + intros H. inversion H; subst. split; [now left|exact E].
    + destruct (String.eqb_spec (Elf.sh_name shdr) ".dynsym") as [E2|E2].
      * intros H. specialize (IH _ H). destruct sym_sec as [s|].
        -- destruct IH as [Hin Hn]. split; [now right|exact Hn].
        -- destruct IH as [Hno Hd]. split.
           ++ intros s [Hs|Hs]; [inversion Hs; now subst|now apply Hno].
           ++ right. destruct Hd as [->|(s & -> & Hin & Hn)].
              ** exists shdr. repeat split; [now left|exact E2].
              ** exists s. repeat split; [now right|exact Hn].
      * intros H. specialize (IH _ H). destruct sym_sec as [s|].
        -- destruct IH as [Hin Hn]. split; [now right|exact Hn].
        -- destruct IH as [Hno Hd]. split.
           ++ intros s [Hs|Hs]; [inversion Hs; now subst|now apply Hno].
           ++ destruct Hd as [->|(s & -> & Hin & Hn)]; [now left|].
              right. exists s. repeat split; [now right|exact Hn].
  - discriminate.
Qed.

Section Provenance.
Variable hdr : header.

Lemma load_entries_spec (sec : Elf.Shdr) (offset fl : Z) (idxs : list nat) :
  forall tab ok tab',
    load_entries hdr sec idxs offset fl tab = (ok, tab') ->
    exists new,
      tab' = tab ++ new /\
      (forall s, In s new ->
         exists i es, In i idxs /\ Elf.gelf_getsym sec i = Some es /\
                      entry_of_symbol hdr offset fl es = Some s) /\
      (ok = true ->
       forall i es s, In i idxs -> Elf.gelf_getsym sec i = Some es ->
                      entry_of_symbol hdr offset fl es = Some s -> In s new).
Proof.
  induction idxs as [|i rest IH]; intros tab ok tab'; cbn [load_entries].
  - intros H. inversion H; subst. exists []. rewrite app_nil_r.
    split; [reflexivity|]. split; [intros s []|]. intros _ i es s [].
  - destruct (Elf.gelf_getsym sec i) as [es|] eqn:Eg.
    2:{ intros H. inversion H; subst. exists []. rewrite app_nil_r.
        split; [reflexivity|]. split; [intros s []|discriminate]. }
    destruct (entry_of_symbol hdr offset fl es) as [e|] eqn:Ee.
    + unfold entry_of_symbol in Ee.
      destruct (Elf.st_size es =? 0) eqn:E1; [discriminate|].
      destruct (negb (Elf.GELF_ST_TYPE (Elf.st_info es) =? Elf.STT_FUNC)) eqn:E2;
        [discriminate|].
      assert (Hes : entry_of_symbol hdr offset fl es = Some e).
      { unfold entry_of_symbol. now rewrite E1, E2. }
      inversion Ee as [He]. rewrite He. intros H. apply IH in H.
      destruct H as (new & -> & Hfrom & Hall).
      exists (e :: new). rewrite <- app_assoc. split; [reflexivity|]. split.
      * intros s [<-|Hs].
        -- exists i, es. repeat split; [now left|exact Eg|exact Hes].
        -- destruct (Hfrom s Hs) as (j & es' & Hj & Hg & He').
           exists j, es'. repeat split; [now right|exact Hg|exact He'].
      * intros Hok j es' s [<-|Hj] Hg He'.
        -- rewrite Eg in Hg. inversion Hg; subst es'.
           rewrite Hes in He'. inversion He'. now left.
        -- right. now apply (Hall Hok j es').
    + assert (Hskip : load_entries hdr sec (i :: rest) offset fl tab
                      = load_entries hdr sec rest offset fl tab).
      { cbn [load_entries]. rewrite Eg. unfold entry_of_symbol in Ee.
        destruct (Elf.st_size es =? 0); [reflexivity|].
        destruct (negb (Elf.GELF_ST_TYPE (Elf.st_info es) =? Elf.STT_FUNC));
          [reflexivity|discriminate]. }
      cbn [load_entries] in Hskip. rewrite Eg in Hskip. rewrite Hskip.
      intros H. apply IH in H. destruct H as (new & -> & Hfrom & Hall).
      exists new. split; [reflexivity|]. split.
      * intros s Hs. destruct (Hfrom s Hs) as (j & es' & Hj & Hg & He').
        exists j, es'. repeat split; [now right|exact Hg|exact He'].
      * intros Hok j es' s [<-|Hj] Hg He'.
        -- rewrite Eg in Hg. inversion Hg; subst es'. congruence.
        -- now apply (Hall Hok j es').
Qed.

(** X12.  A static table that [load_symtab] fills from an ELF image
    comes from one section, [.symtab] when the image has one and
    [.dynsym] only when it has none: every entry is made of a symbol of
    that section with type STT_FUNC and a size other than 0, and every
    such symbol has an entry at its address in the table. *)
Theorem load_symtab_entries (t0 t : symtab) (elf : Elf.image) (offset fl : Z) :
  load_symtab hdr t0 (Some (Some elf)) offset fl = (0, t) ->
  syms t0 = [] ->
  exists sec offset',
    In (Some sec) (Elf.e_scn elf) /\
    (Elf.sh_name sec = ".symtab"%string \/
     Elf.sh_name sec = ".dynsym"%string /\
     forall s, In (Some s) (Elf.e_scn elf) -> Elf.sh_name s <> ".symtab"%string) /\
    adjust_offset hdr elf offset fl = Some offset' /\
    (forall s, In s (syms t) ->
       exists i es, (i < Elf.sh_nr sec)%nat /\ Elf.gelf_getsym sec i = Some es /\
                    entry_of_symbol hdr offset' fl es = Some s) /\
    (forall i es s, (i < Elf.sh_nr sec)%nat -> Elf.gelf_getsym sec i = Some es ->
       entry_of_symbol hdr offset' fl es = Some s ->
       exists s', In s' (syms t) /\ addr s' = addr s).
Proof.
  unfold load_symtab. intros H Ht0.
  destruct (adjust_offset hdr elf offset fl) as [offset'|]; [|inversion H].
  destruct (Elf.e_shstrndx elf); [|inversion H].
  destruct (scan_symtab (Elf.e_scn elf) None) as [[sym_sec dynsym_sec]|] eqn:Es;
    [|inversion H].
  pose proof (scan_symtab_choice _ _ _ _ Es) as Hc.
  destruct (match sym_sec with Some s => Some s | None => dynsym_sec end) as [sec|] eqn:Esec;
    [|inversion H].
  destruct (negb (Elf.sh_data sec)); [inversion H|].
  destruct (load_entries hdr sec (seq 0 (Elf.sh_nr sec)) offset' fl (syms t0))
    as [ok tab] eqn:El.
  destruct (load_entries_spec _ _ _ _ _ _ _ El) as (new & -> & Hfrom & Hall).
  destruct ok; cbn [negb] in H; [|inversion H].
  destruct (List.length (syms t0 ++ new) =? 0)%nat; [inversion H|].
  inversion H; subst t. rewrite Ht0 in *. cbn [app] in *.
  exists sec, offset'. split; [|split; [|split; [reflexivity|split]]].
  - destruct sym_sec as [s|].
    + inversion Esec; subst. tauto.
    + destruct Hc as [_ [->|(s & -> & Hin & _)]]; [discriminate|].
      inversion Esec; now subst.
  - destruct sym_sec as [s|].
    + inversion Esec; subst. left. tauto.
    + right. destruct Hc as [Hno [->|(s & -> & Hin & Hn)]]; [discriminate|].
      inversion Esec; subst. now split.
  - intros s Hs. apply finish_symtab_incl in Hs.
    destruct (Hfrom s Hs) as (i & es & Hi & Hg & He).
    exists i, es. apply in_seq in Hi. repeat split; [lia|exact Hg|exact He].
  - intros i es s Hi Hg He. apply finish_symtab_addr.
    apply (Hall eq_refl i es); [apply in_seq; lia|exact Hg|exact He].
Qed.

End Provenance.

(** ** The PLT table *)

Lemma find_dynsym_slot (tabs : symtabs) (i : nat) (p : names_slot) :
  (i < nr_sym (dsymtab tabs))%nat ->
  nth_error (sym_names (dsymtab tabs)) i = Some p ->
  find_dynsym tabs i = Some (Some p).
Proof.
  intros Hi Hp. unfold find_dynsym.
  destruct (Nat.leb_spec (nr_sym (dsymtab tabs)) i); [lia|]. now rewrite Hp.
Qed.

(** X13.  [sort_dynsymtab] puts the entries of the PLT table in
    address order and loses none; when no two entries share an address,
    [find_dynsym] at an index then gives the entry that was at that
    index before the sort. *)
Theorem sort_dynsymtab_keeps_index (tabs : symtabs) (d : symtab) :
  dsymtab tabs = sort_dynsymtab d ->
  Sorted addr_le (syms (dsymtab tabs)) /\
  Permutation (syms (dsymtab tabs)) (syms d) /\
  count_dynsym tabs = nr_sym d /\
  (NoDup (map addr (syms d)) ->
   forall i s, nth_error (syms d) i = Some s ->
     exists k, find_dynsym tabs i = Some (Some (SymPtr k)) /\
               nth_error (syms (dsymtab tabs)) k = Some s).
Proof.
  intros E. unfold count_dynsym, nr_sym. rewrite E.
  split; [apply qsort_addrsort_sorted|].
  split; [apply LibcFacts.qsort_perm|].
  split; [apply LibcFacts.qsort_length|].
  intros Hnd i s Hi.
  destruct (sort_dynsymtab_slot d i s Hnd Hi) as (k & Hk & Hs).
  exists k. split; [|exact Hs].
  apply find_dynsym_slot; [|now rewrite E].
  unfold nr_sym. rewrite E. cbn [sort_dynsymtab syms].
  rewrite LibcFacts.qsort_length. apply nth_error_Some. congruence.
Qed.

Section PltTable.
Variable hdr : header.

Lemma load_rels_entries (st : plt_scan) (relplt dynsym : Elf.Shdr) (offset fl : Z)
    (idxs : list nat) :
  forall tab tab',
    load_rels hdr st relplt dynsym idxs offset fl tab = Some (Some tab') ->
    exists new,
      tab' = tab ++ new /\ List.length new = List.length idxs /\
      Forall (fun s => type s = ST_PLT /\ size s = wrap32 (ps_plt_entsize st)) new.
Proof.
  induction idxs as [|i rest IH]; intros tab tab'; cbn [load_rels].
  - intros H. inversion H; subst. exists []. rewrite app_nil_r. now repeat split.
  - destruct (Elf.gelf_getrel relplt i) as [r_info|]; [|discriminate].
    destruct (Elf.gelf_getsym dynsym _) as [esym|]; [|discriminate].
    intros H. apply IH in H. destruct H as (new & -> & Hlen & Hall).
    exists (plt_entry hdr st offset fl i esym :: new). rewrite <- app_assoc.
    split; [reflexivity|]. split; [cbn [List.length]; now rewrite Hlen|].
    constructor; [|exact Hall]. unfold plt_entry. cbn [type size]. now split.
Qed.

(** X14.  [load_dynsymtab] never leaves a partly filled table: when it
    returns -1 the table is empty or as it was.  When it returns 0 on
    an empty table, every entry has type [ST_PLT] and the size of a PLT
    entry, and the table is sorted by address with valid slots. *)
Theorem load_dynsymtab_all_or_nothing (d0 d : symtab) (file : option (option Elf.image))
    (offset fl ret : Z) :
  load_dynsymtab hdr d0 file offset fl = Some (ret, d) ->
  (ret = -1 /\ (syms d = [] \/ d = d0)) \/
  (ret = 0 /\
   (syms d0 = [] ->
    Sorted addr_le (syms d) /\
    exists sz, Forall (fun s => type s = ST_PLT /\ size s = sz) (syms d))).
Proof.
  unfold load_dynsymtab.
  destruct file as [[elf|]|].
  2:{ intros H; inversion H; subst. left. split; [reflexivity|now left]. }
  2:{ intros H; inversion H; subst. left. split; [reflexivity|now right]. }
  destruct (adjust_offset hdr elf offset fl) as [offset'|].
  2:{ intros H; inversion H; subst. left. split; [reflexivity|now left]. }
  destruct (Elf.e_shstrndx elf).
  2:{ intros H; inversion H; subst. left. split; [reflexivity|now left]. }
  destruct (scan_plt (Elf.e_scn elf) _) as [st|].
  2:{ intros H; inversion H; subst. left. split; [reflexivity|now left]. }
  destruct (ps_dynsym st) as [dynsym|].
  2:{ intros H; inversion H; subst. right. split; [reflexivity|].
      intros ->. split; [constructor|]. exists 0. constructor. }
  destruct (ps_plt_addr st =? 0).
  { intros H; inversion H; subst. right. split; [reflexivity|].
    intros ->. split; [constructor|]. exists 0. constructor. }
  destruct (ps_relplt st) as [relplt|].
  2:{ intros H; inversion H; subst. left. split; [reflexivity|now right]. }
  destruct (negb ((ps_rel_type st =? Elf.SHT_RELA) || (ps_rel_type st =? Elf.SHT_REL))).
  { intros H; inversion H; subst. left. split; [reflexivity|now right]. }
  destruct (negb (Elf.sh_data relplt)).
  { intros H; inversion H; subst. left. split; [reflexivity|now left]. }
  destruct (negb (Elf.sh_data dynsym)).
  { intros H; inversion H; subst. left. split; [reflexivity|now left]. }
  destruct (load_rels hdr st relplt dynsym _ offset' fl (syms d0)) as [[tab|]|] eqn:El;
    [| |discriminate].
  2:{ intros H; inversion H; subst. left. split; [reflexivity|now left]. }
  destruct (load_rels_entries _ _ _ _ _ _ _ _ El) as (new & -> & Hlen & Hall).
  destruct (Nat.eqb_spec (List.length (syms d0 ++ new)) 0) as [Ez|Ez].
  - intros H; inversion H; subst. left. split; [reflexivity|]. left. cbn [syms].
    now apply length_zero_iff_nil.
  - intros H; inversion H; subst. right. split; [reflexivity|].
    intros Hd0. rewrite Hd0 in *. cbn [app] in *. split.
    + apply qsort_addrsort_sorted.
    + exists (wrap32 (ps_plt_entsize st)). cbn [sort_dynsymtab syms].
      rewrite Forall_forall in *. intros s Hs. apply Hall.
      eapply Permutation_in; [apply LibcFacts.qsort_perm | exact Hs].
Qed.

End PltTable.

(** ** The cache reader on arbitrary text *)

Section ReaderFaults.
Variable hdr : header.

Lemma cur_tab_set_tab (r : reader) (w : which_tab) (t : list sym) (pa : Z) (pt : ascii) :
  cur_tab (set_tab r w t pa pt) = t.
Proof. destruct w; reflexivity. Qed.

(** The state in which the duplicate branch cannot be entered on an
    empty table by a line other than "ffffffffffffffff X ...". *)
Lemma read_line_no_fault (route : bool) (offset : Z) (r : reader) (l : string) :
  cur_tab r <> [] \/ (rd_prev_addr r = ULONG_MAX /\ rd_prev_type r = "X"%char) ->
  parse_line l <> None ->
  (forall nm, parse_line l <> Some (Some (ULONG_MAX, "X"%char, nm))) ->
  exists r', read_line hdr route offset r l = Some r' /\
             (cur_tab r' <> [] \/
              (rd_prev_addr r' = ULONG_MAX /\ rd_prev_type r' = "X"%char)).
Proof.
  intros Hinv Hb Hl. unfold read_line.
  destruct (parse_line l) as [[[[a t] nm]|]|] eqn:Ep; [|now exists r|congruence].
  destruct ((a =? rd_prev_addr r) && Ascii.eqb t (rd_prev_type r)) eqn:Ed.
  - apply andb_prop in Ed as [Ea Et]. apply Z.eqb_eq in Ea. apply Ascii.eqb_eq in Et.
    destruct (cur_tab r) as [|x tl] eqn:Ec.
    + exfalso. destruct Hinv as [Hne|[Hpa Hpt]]; [now apply Hne|].
      apply (Hl nm). congruence.
    + eexists. split; [reflexivity|]. left. rewrite cur_tab_set_tab.
      intros E. apply (f_equal (@List.length sym)) in E.
      rewrite map_last_length in E. discriminate.
  - destruct (Libc.strchr allowed_types t); [|now exists r].
    eexists. split; [reflexivity|]. left. rewrite cur_tab_set_tab.
    apply push_sym_not_nil.
Qed.

Lemma read_lines_no_fault (route : bool) (offset : Z) (lines : list string) :
  forall r,
    cur_tab r <> [] \/ (rd_prev_addr r = ULONG_MAX /\ rd_prev_type r = "X"%char) ->
    (forall l, In l lines -> parse_line l <> None) ->
    (forall l nm, In l lines -> parse_line l <> Some (Some (ULONG_MAX, "X"%char, nm))) ->
    exists r', read_lines hdr route offset r lines = Some r'.
Proof.
  induction lines as [|l rest IH]; intros r Hinv Hb Hl; cbn [read_lines].
  - now exists r.
  - destruct (read_line_no_fault route offset r l Hinv) as (r1 & E & Hinv1).
    { apply Hb. now left. }
    { intros nm. apply Hl. now left. }
    rewrite E. apply IH; [exact Hinv1| |].
    + intros l' Hin. apply Hb. now right.
    + intros l' nm Hin. apply Hl. now right.
Qed.

(** A line that is read behind its end stops the reader, wherever it
    stands. *)
Lemma read_lines_fault (route : bool) (offset : Z) (lines : list string) (l : string) :
  In l lines -> parse_line l = None ->
  forall r, read_lines hdr route offset r lines = None.
Proof.
  intros Hin Hp. induction lines as [|l0 rest IH]; [contradiction|].
  intros r. cbn [read_lines]. destruct Hin as [->|Hin].
  - unfold read_line. now rewrite Hp.
  - destruct (read_line hdr route offset r l0); [now apply IH|reflexivity].
Qed.

End ReaderFaults.

(** Which lines can be read behind their end: those that hold neither
    newline nor NUL byte, and [getline] delivers such a line only as
    the last one. *)
Lemma behind_none_cut (c : ascii) (s : string) :
  Libc.behind c s = None -> Libc.cut_at c s = s /\ (c <> Libc.NUL -> Libc.strchr s c = None).
Proof.
  induction s as [|a s IH]; cbn [Libc.behind Libc.cut_at Libc.strchr].
  - intros _. split; [reflexivity|]. intros Hc. apply Ascii.eqb_neq in Hc. now rewrite Hc.
  - destruct (Ascii.eqb a c); [discriminate|]. intros H. destruct (IH H) as [H1 H2].
    split; [now rewrite H1|exact H2].
Qed.

Lemma behind_some_strchr (c : ascii) (s : string) :
  Libc.strchr s c = None -> Libc.behind c s = None.
Proof.
  induction s as [|a s IH]; cbn [Libc.behind Libc.strchr]; [reflexivity|].
  destruct (Ascii.eqb a c); [discriminate|exact IH].
Qed.

Lemma strchr_cut_behind (c d : ascii) (s : string) :
  c <> Libc.NUL -> Libc.behind c s = None -> Libc.strchr (Libc.cut_at d s) c = None.
Proof.
  intros Hc. induction s as [|a s IH]; cbn [Libc.behind Libc.cut_at Libc.strchr].
  - intros _. apply Ascii.eqb_neq in Hc. now rewrite Hc.
  - destruct (Ascii.eqb a c) eqn:Eac; [discriminate|]. intros H.
    destruct (Ascii.eqb a d).
    + cbn [Libc.strchr]. apply Ascii.eqb_neq in Hc. now rewrite Hc.
    + cbn [Libc.strchr]. rewrite Eac. now apply IH.
Qed.

Lemma behind_line_none (l : string) :
  behind_line l = None ->
  Libc.behind "010" l = None /\ Libc.behind Libc.NUL l = None.
Proof.
  unfold behind_line. destruct (Libc.strchr (Libc.cstr l) "010") as [p|] eqn:E.
  - intros H. exfalso. unfold Libc.cstr in E.
    rewrite (strchr_cut_behind "010" Libc.NUL l ltac:(discriminate) H) in E.
    discriminate.
  - intros H. split; [|exact H].
    destruct (behind_none_cut _ _ H) as [Hc _]. unfold Libc.cstr in E. rewrite Hc in E.
    now apply behind_some_strchr.
Qed.

Lemma parse_line_behind (l : string) :
  parse_line l = None -> behind_line l = None.
Proof.
  unfold parse_line.
  destruct (Libc.strtoul16 (Libc.cut_at "010" (Libc.cstr l))) as [a pos].
  destruct pos as [|c pos]; [discriminate|].
  destruct c as [[] [] [] [] [] [] [] []]; try discriminate.
  destruct pos as [|t pos].
  - destruct (behind_line l) as [b|]; [|reflexivity].
    destruct b as [|c b]; [discriminate|].
    destruct c as [[] [] [] [] [] [] [] []]; discriminate.
  - destruct pos as [|c pos]; [discriminate|].
    destruct c as [[] [] [] [] [] [] [] []]; discriminate.
Qed.

Lemma getlines_newlines (text : string) :
  Forall (fun l => Libc.behind "010" l <> None) (removelast (Libc.getlines text)).
Proof.
  induction text as [|c s IH]; cbn [Libc.getlines]; [constructor|].
  destruct (Ascii.eqb c "010") eqn:Ec.
  - destruct (Libc.getlines s) as [|l0 ls]; [constructor|].
    change (removelast (String c EmptyString :: l0 :: ls))
      with (String c EmptyString :: removelast (l0 :: ls)).
    constructor; [|exact IH]. cbn [Libc.behind]. rewrite Ec. discriminate.
  - destruct (Libc.getlines s) as [|l0 ls]; [constructor|].
    destruct ls as [|l1 ls]; [constructor|].
    change (removelast (String c l0 :: l1 :: ls))
      with (String c l0 :: removelast (l1 :: ls)).
    change (removelast (l0 :: l1 :: ls)) with (l0 :: removelast (l1 :: ls)) in IH.
    inversion IH as [|? ? H0 Hrest]; subst.
    constructor; [|exact Hrest]. cbn [Libc.behind]. now rewrite Ec.
Qed.

Lemma getlines_cut_last (text l : string) :
  In l (Libc.getlines text) -> Libc.behind "010" l = None ->
  exists pre, Libc.getlines text = pre ++ [l].
Proof.
  intros Hin Hb. pose proof (getlines_newlines text) as Hn.
  destruct (Libc.getlines text) as [|x xs] eqn:E; [contradiction|].
  assert (Hne : x :: xs <> []) by discriminate.
  rewrite (app_removelast_last EmptyString Hne) in Hin |- *.
  apply in_app_or in Hin as [Hin|[<-|[]]].
  - rewrite Forall_forall in Hn. now apply Hn in Hin.
  - now exists (removelast (x :: xs)).
Qed.

Section ReaderTotal.
Variable hdr : header.

(** X15.  The cache readers read a text to its end and return 0 unless
    a line reads as the address 0xffffffffffffffff with the type letter
    X, or a line is read behind its end.  The first, in front of an
    empty table, makes the reader look at the entry before the first
    one.  The second happens on a line that ends behind the space after
    the address and holds neither newline nor NUL byte, which only the
    last line of a text can be: the type is then the terminator, and
    the byte the reader tests next lies behind it. *)
Theorem cache_reader_total (fs : fsys) (tabs : symtabs) (tab : symtab)
    (symfile text : string) (offset : Z) :
  fs_text fs symfile = Some text ->
  ((forall l, In l (Libc.getlines text) -> parse_line l <> None) ->
   (forall l nm, In l (Libc.getlines text) ->
      parse_line l <> Some (Some (ULONG_MAX, "X"%char, nm))) ->
   (exists tabs', load_symbol_file hdr fs tabs symfile offset = Some (0, tabs')) /\
   (exists tab', load_module_symbol hdr fs tab symfile offset = Some (0, tab'))) /\
  (forall l rest nm, Libc.getlines text = l :: rest ->
     parse_line l = Some (Some (ULONG_MAX, "X"%char, nm)) ->
     (syms (stab tabs) = [] -> load_symbol_file hdr fs tabs symfile offset = None) /\
     (syms tab = [] -> load_module_symbol hdr fs tab symfile offset = None)) /\
  (forall l, In l (Libc.getlines text) -> parse_line l = None ->
     load_symbol_file hdr fs tabs symfile offset = None /\
     load_module_symbol hdr fs tab symfile offset = None /\
     (exists pre, Libc.getlines text = pre ++ [l]) /\
     Libc.behind "010" l = None /\ Libc.behind Libc.NUL l = None).
Proof.
  intros Ht. unfold load_symbol_file, load_module_symbol. rewrite Ht. split; [|split].
  - intros Hb Hl. split.
    + destruct (read_lines_no_fault hdr true offset (Libc.getlines text)
                  (reader_init (syms (stab tabs)) (syms (dsymtab tabs)))) as [r E].
      * right. now split.
      * exact Hb.
      * exact Hl.
      * rewrite E. eexists. reflexivity.
    + destruct (read_lines_no_fault hdr false offset (Libc.getlines text)
                  (reader_init (syms tab) [])) as [r E].
      * right. now split.
      * exact Hb.
      * exact Hl.
      * rewrite E. eexists. reflexivity.
  - intros l rest nm El Hp. rewrite El. cbn [read_lines]. unfold read_line. rewrite Hp.
    cbn [reader_init rd_prev_addr rd_prev_type]. rewrite Z.eqb_refl. cbn [Ascii.eqb andb].
    unfold cur_tab. cbn [rd_cur rd_stab].
    split; intros ->; reflexivity.
  - intros l Hin Hp.
    rewrite !(read_lines_fault hdr _ offset _ l Hin Hp).
    destruct (behind_line_none l (parse_line_behind l Hp)) as [Hnl Hnul].
    repeat split; try assumption. now apply getlines_cut_last.
Qed.

End ReaderTotal.

Section ReaderRouting.
Variable hdr : header.

(** A line that does not carry the letter P is read alike by the two
    readers. *)
Lemma read_line_unrouted (offset : Z) (r : reader) (l : string) :
  (forall a t nm, parse_line l = Some (Some (a, t, nm)) -> t <> ST_PLT) ->
  read_line hdr false offset r l = read_line hdr true offset r l.
Proof.
  intros Hl. unfold read_line.
  destruct (parse_line l) as [[[[a t] nm]|]|] eqn:Ep; [|reflexivity|reflexivity].
  assert (Ht : Ascii.eqb t ST_PLT = false) by (apply Ascii.eqb_neq; eapply Hl; eauto).
  rewrite Ht. reflexivity.
Qed.

Lemma read_lines_unrouted (offset : Z) (lines : list string) :
  Forall (fun l => forall a t nm, parse_line l = Some (Some (a, t, nm)) -> t <> ST_PLT) lines ->
  forall r, read_lines hdr false offset r lines = read_lines hdr true offset r lines.
Proof.
  induction 1 as [|l rest Hl Hrest IH]; intros r; cbn [read_lines]; [reflexivity|].
  rewrite (read_line_unrouted offset r l Hl).
  destruct (read_line hdr true offset r l); [apply IH|reflexivity].
Qed.

Lemma entry_line_unrouted (offset : Z) (s : sym) :
  accepted_letter (type s) -> clean_name (name s) ->
  type s <> ST_PLT ->
  forall a t nm, parse_line (entry_line offset s) = Some (Some (a, t, nm)) -> t <> ST_PLT.
Proof.
  intros Ha Hc Hp a t nm. unfold entry_line.
  rewrite parse_line_fmt; [|now apply allowed_not_newline|exact (proj2 Ha)|exact Hc].
  intros E. inversion E; subst. exact Hp.
Qed.

End ReaderRouting.

(** ** The cache file of a module *)

Lemma push_gap_sizes (l : list sym) (s : sym) :
  push_sym (gap_sizes l) s = gap_sizes (l ++ [s]).
Proof.
  induction l as [|a [|b tl] IH]; [reflexivity|reflexivity|].
  change (gap_sizes (a :: b :: tl))
    with (set_size a (wrap32 (addr b - addr a)) :: gap_sizes (b :: tl)).
  change (gap_sizes ((a :: b :: tl) ++ [s]))
    with (set_size a (wrap32 (addr b - addr a)) :: gap_sizes ((b :: tl) ++ [s])).
  rewrite <- IH.
  destruct (gap_sizes (b :: tl)) as [|y ys] eqn:E.
  - destruct tl; discriminate.
  - apply push_sym_cons2.
Qed.

Lemma fold_push_gap_sizes (es pre : list sym) :
  fold_left push_sym es (gap_sizes pre) = gap_sizes (pre ++ es).
Proof.
  revert pre. induction es as [|e es IH]; intros pre; cbn [fold_left].
  - now rewrite app_nil_r.
  - rewrite push_gap_sizes, IH, <- app_assoc. reflexivity.
Qed.

Lemma gap_sizes_addr (l : list sym) : map addr (gap_sizes l) = map addr l.
Proof.
  induction l as [|a [|b tl] IH]; [reflexivity|reflexivity|].
  change (gap_sizes (a :: b :: tl))
    with (set_size a (wrap32 (addr b - addr a)) :: gap_sizes (b :: tl)).
  cbn [map]. cbn [map] in IH. now rewrite IH.
Qed.

Lemma gap_sizes_nth (l : list sym) (i : nat) (a b : sym) :
  nth_error l i = Some a -> nth_error l (S i) = Some b ->
  nth_error (gap_sizes l) i = Some (set_size a (wrap32 (addr b - addr a))).
Proof.
  revert i. induction l as [|x [|y tl] IH]; intros i Ha Hb.
  - destruct i; discriminate.
  - destruct i as [|[|i]]; discriminate.
  - change (gap_sizes (x :: y :: tl))
      with (set_size x (wrap32 (addr y - addr x)) :: gap_sizes (y :: tl)).
    destruct i as [|i].
    + cbn in Ha, Hb. inversion Ha; inversion Hb; subst. reflexivity.
    + cbn [nth_error]. apply IH; [exact Ha|exact Hb].
Qed.

Lemma wrap32_le (z : Z) : 0 <= z -> 0 <= wrap32 z <= z.
Proof.
  intros H. unfold wrap32. split; [apply Z.mod_pos_bound; lia|apply Z.mod_le; lia].
Qed.

Lemma wrap32_small (z : Z) : 0 <= z < 2 ^ 32 -> wrap32 z = z.
Proof. intros H. unfold wrap32. apply Z.mod_small. exact H. Qed.

(** Entries read in the order of their addresses tile the addresses. *)
Lemma gap_sizes_invariant (l : list sym) :
  Sorted addr_lt l -> table_invariant (gap_sizes l).
Proof.
  unfold table_invariant.
  induction l as [|a [|b tl] IH]; intros Hs; [constructor|repeat constructor|].
  change (gap_sizes (a :: b :: tl))
    with (set_size a (wrap32 (addr b - addr a)) :: gap_sizes (b :: tl)).
  inversion Hs as [|? ? Hs' Hd]; subst. inversion Hd as [|? ? Hab]; subst.
  constructor; [now apply IH|].
  assert (Hhd : exists y ys, gap_sizes (b :: tl) = y :: ys /\ addr y = addr b).
  { destruct tl as [|c tl']; eexists; eexists; split; reflexivity. }
  destruct Hhd as (y & ys & -> & Hy). constructor.
  unfold disjoint_before, addr_lt in *. cbn [addr size set_size]. rewrite Hy.
  pose proof (wrap32_le (addr b - addr a)). lia.
Qed.

Lemma qsort_sorted_id (l : list sym) :
  Sorted addr_lt l -> Libc.qsort addrsort l = l.
Proof.
  induction 1 as [|a l Hs IH Hd]; [reflexivity|].
  cbn [Libc.qsort fold_right]. fold (Libc.qsort addrsort l). rewrite IH.
  destruct Hd as [|b l Hab]; [reflexivity|].
  cbn [Libc.insert_sorted]. unfold addrsort, addr_lt in *.
  destruct (Z.ltb_spec (addr b) (addr a)); [lia|].
  destruct (Z.ltb_spec (addr a) (addr b)); [reflexivity|lia].
Qed.

Lemma sorted_addr_lt_map (f : sym -> sym) (l : list sym) :
  (forall s, addr (f s) = addr s) -> Sorted addr_lt l -> Sorted addr_lt (map f l).
Proof.
  intros Hf. induction 1 as [|x l Hs IH Hd]; cbn [map]; constructor; [exact IH|].
  destruct Hd as [|y l Hxy]; cbn [map]; constructor.
  unfold addr_lt in *. now rewrite !Hf.
Qed.

Lemma sorted_addr_lt_distinct (l : list sym) :
  Sorted addr_lt l -> adjacent_distinct l = true.
Proof.
  induction 1 as [|a l Hs IH Hd]; [reflexivity|].
  destruct Hd as [|b l Hab]; [reflexivity|].
  change (adjacent_distinct (a :: b :: l))
    with (negb (same_pair a b) && adjacent_distinct (b :: l)).
  rewrite IH. unfold same_pair, addr_lt in *.
  destruct (Z.eqb_spec (addr a) (addr b)); [lia|reflexivity].
Qed.

Lemma sorted_app_last {A} (R : A -> A -> Prop) (l : list A) (x e : A) :
  Sorted R l -> hd_error (rev l) = Some x -> R x e -> Sorted R (l ++ [e]).
Proof.
  induction 1 as [|a l Hs IH Hd]; intros Hx Hr; [discriminate|].
  destruct l as [|b tl].
  - cbn in Hx. inversion Hx; subst. cbn. repeat constructor. exact Hr.
  - cbn [app]. constructor.
    + apply IH; [|exact Hr]. cbn [rev] in *.
      destruct (rev tl ++ [b]) as [|y ys] eqn:E.
      * destruct (rev tl); discriminate.
      * cbn in Hx. cbn. exact Hx.
    + inversion Hd; subst. now constructor.
Qed.

Lemma hd_rev_last {A} (l : list A) (x : A) :
  hd_error (rev l) = Some x -> exists pre, l = pre ++ [x].
Proof.
  intros H. destruct (rev l) as [|y ys] eqn:E; [discriminate|].
  cbn in H. inversion H; subst y. exists (rev ys).
  rewrite <- (rev_involutive l), E. reflexivity.
Qed.

Lemma sorted_consecutive {A} (R : A -> A -> Prop) (l : list A) :
  Sorted R l ->
  forall i a b, nth_error l i = Some a -> nth_error l (S i) = Some b -> R a b.
Proof.
  induction 1 as [|x l Hs IH Hd]; intros i a b Ha Hb.
  - destruct i; discriminate.
  - destruct i as [|i].
    + cbn in Ha, Hb. inversion Ha; subst. destruct Hd as [|y l Hxy]; [discriminate|].
      cbn in Hb. now inversion Hb; subst.
    + cbn in Ha, Hb. now apply (IH i).
Qed.

Lemma sorted_conj {A} (R1 R2 : A -> A -> Prop) (l : list A) :
  Sorted R1 l -> Sorted R2 l -> Sorted (fun a b => R1 a b /\ R2 a b) l.
Proof.
  induction 1 as [|x l Hs IH Hd]; intros H2; [constructor|].
  inversion H2 as [|? ? Hs2 Hd2]; subst. constructor; [now apply IH|].
  destruct Hd as [|y l Hxy]; constructor. inversion Hd2; subst. now split.
Qed.

Lemma sorted_weaken {A} (R1 R2 : A -> A -> Prop) (l : list A) :
  (forall a b, R1 a b -> R2 a b) -> Sorted R1 l -> Sorted R2 l.
Proof.
  intros Hw. induction 1 as [|x l Hs IH Hd]; constructor; [exact IH|].
  destruct Hd; constructor. now apply Hw.
Qed.

Lemma gap_sizes_in (l : list sym) (s : sym) :
  In s (gap_sizes l) -> exists a sz, In a l /\ (s = a \/ s = set_size a (wrap32 sz)).
Proof.
  induction l as [|a [|b tl] IH]; [intros []| |].
  - intros [<-|[]]. exists a, 0. split; [now left|now left].
  - change (gap_sizes (a :: b :: tl))
      with (set_size a (wrap32 (addr b - addr a)) :: gap_sizes (b :: tl)).
    intros [<-|H].
    + exists a, (addr b - addr a). split; [now left|now right].
    + destruct (IH H) as (x & sz & Hx & Hs). exists x, sz. split; [now right|exact Hs].
Qed.

Section ModuleCache.
Variable hdr : header.

Lemma module_lines (t : symtab) (offset : Z) :
  Forall static_entry_ok (syms t) ->
  Libc.getlines (module_text t offset)
  = map (entry_line offset) (syms t)
    ++ match end_entry (syms t) "__sym_end" with
       | Some e => [entry_line offset e]
       | None => []
       end.
Proof.
  intros Hs. unfold module_text.
  rewrite getlines_syms_lines.
  2:{ eapply Forall_impl; [|exact Hs]. intros s (_ & Ha & _ & Hc). now split. }
  f_equal. rewrite end_line_entry.
  destruct (end_entry (syms t) "__sym_end") as [e|] eqn:Ee; [|reflexivity].
  destruct (end_entry_type_in _ _ _ Ee) as (s & Hin & Et).
  destruct (end_entry_inv _ _ _ Ee) as (s0 & l0 & _ & He).
  rewrite <- (append_nil_r (entry_line offset e)) at 1.
  unfold entry_line. rewrite getlines_fmt_line.
  - reflexivity.
  - rewrite Et. rewrite Forall_forall in Hs. destruct (Hs s Hin) as (_ & Ha & _).
    now apply allowed_not_newline.
  - subst e. repeat split.
Qed.

Lemma static_entry_routed (s : sym) : static_entry_ok s -> entry_ok InStab s.
Proof.
  intros (Hb & Ha & Ht & Hc). split; [exact Hb|]. split; [exact Ha|]. split; [exact Hc|].
  unfold routed. apply Ascii.eqb_neq in Ht. now rewrite Ht.
Qed.

Lemma module_lines_unrouted (t : symtab) (offset : Z) :
  Forall static_entry_ok (syms t) ->
  Forall (fun l => forall a ty nm, parse_line l = Some (Some (a, ty, nm)) -> ty <> ST_PLT)
    (map (entry_line offset) (syms t)
     ++ match end_entry (syms t) "__sym_end" with
        | Some e => [entry_line offset e]
        | None => []
        end).
Proof.
  intros Hs. apply Forall_app. split.
  - apply Forall_forall. intros l Hl. apply in_map_iff in Hl as (s & <- & Hin).
    rewrite Forall_forall in Hs. destruct (Hs s Hin) as (_ & Ha & Ht & Hc).
    now apply entry_line_unrouted.
  - destruct (end_entry (syms t) "__sym_end") as [e|] eqn:Ee; [|constructor].
    constructor; [|constructor].
    destruct (end_entry_type_in _ _ _ Ee) as (s & Hin & Et).
    destruct (end_entry_inv _ _ _ Ee) as (s0 & l0 & _ & He).
    rewrite Forall_forall in Hs. destruct (Hs s Hin) as (_ & Ha & Ht & _).
    apply entry_line_unrouted.
    + now rewrite Et.
    + subst e. repeat split.
    + now rewrite Et.
Qed.

(** X16.  A module table whose entries carry accepted type letters
    other than P and, as names, C strings without tab or newline, and
    in which no two neighbours share address and type, comes back from
    its cache file: [load_module_symbol] on the file that
    [save_module_symbol] has created gives, up to order, the address,
    type and demangled name of every entry and one more entry for the
    closing [__sym_end] line, unless that line repeats the address and
    type of the last entry. *)
Theorem module_cache_round_trip (fs : fsys) (tab fresh : symtab) (symfile : string)
    (offset : Z) :
  Forall static_entry_ok (syms tab) ->
  adjacent_distinct (syms tab) = true ->
  syms fresh = [] ->
  fopen_wx fs symfile = Created ->
  exists fs' tab',
    save_module_symbol fs tab symfile offset = Done fs' /\
    load_module_symbol hdr fs' fresh symfile offset = Some (0, tab') /\
    Permutation (map triple (syms tab'))
      (map (reread_triple hdr) (syms tab)
       ++ end_triple hdr (syms tab) (hd_error (rev (syms tab))) "__sym_end").
Proof.
  intros Hs Hadj Hf Hopen.
  assert (Hsok : Forall (entry_ok InStab) (syms tab)).
  { eapply Forall_impl; [|exact Hs]. apply static_entry_routed. }
  destruct (read_part hdr offset InStab (syms tab) (syms tab) "__sym_end"
              (reader_init [] []) Hsok Hadj) as (r' & R1 & R2 & R3 & R4).
  { intros s Hhd.
    assert (Hin : In s (syms tab))
      by (destruct (syms tab); [discriminate|]; inversion Hhd; now left).
    rewrite Forall_forall in Hs. destruct (Hs s Hin) as (_ & Ha & _).
    unfold pair_seen. cbn [reader_init rd_prev_type].
    apply andb_false_iff. right. apply Ascii.eqb_neq.
    now apply allowed_not_newline. }
  { reflexivity. }
  { intros e He. destruct (end_entry_type_in _ _ _ He) as (s & Hin & Et).
    rewrite Forall_forall in Hs. destruct (Hs s Hin) as (_ & Ha & Hp & _).
    unfold routed. rewrite Et. apply Ascii.eqb_neq in Hp. rewrite Hp. tauto. }
  { repeat split. }
  { reflexivity. }
  exists (fs_write fs symfile (module_text tab offset)), (index_symtab (rd_stab r')).
  unfold save_module_symbol. rewrite Hopen. split; [reflexivity|].
  unfold load_module_symbol, fs_write. cbn [fs_text]. rewrite String.eqb_refl, Hf.
  rewrite module_lines by exact Hs.
  rewrite read_lines_unrouted by (now apply module_lines_unrouted).
  rewrite R1. split; [reflexivity|]. cbn [index_symtab syms].
  eapply Permutation_trans; [apply Permutation_map, LibcFacts.qsort_perm|].
  change (rd_stab r') with (tab_of InStab r'). rewrite R2. apply Permutation_refl.
Qed.

Lemma gap_sizes_bounds (l : list sym) :
  Forall (fun s => 0 <= addr s < 2 ^ 64 /\ 0 <= size s < 2 ^ 32) l ->
  Forall sym_in_bounds (gap_sizes l).
Proof.
  intros H. apply Forall_forall. intros s Hs.
  destruct (gap_sizes_in _ _ Hs) as (a & sz & Ha & [->| ->]);
    rewrite Forall_forall in H; destruct (H a Ha) as [Hb1 Hb2].
  - now split.
  - split; [exact Hb1|]. cbn [size set_size]. unfold wrap32. apply Z.mod_pos_bound. lia.
Qed.

(** X17.  Let a module table have the invariant of the data model
    (ranges in address order that do not overlap), entries that the
    reader accepts (type letters T, t, w or K, names that are C strings
    without tab or newline), sizes other than 0 and neighbours less
    than 4 GiB apart.  Through its cache file the table keeps every
    lookup that finds an entry: in the table read back, which has the
    invariant again, an address inside the range of an entry resolves
    to the position it resolved to before, and the entry there has the
    same address, type and (demangled) name.  A lookup that found
    nothing is not kept: the reader sets each size to the distance to
    the next address, so an address in the gap behind an entry resolves
    to that entry afterwards. *)
Theorem module_cache_keeps_lookup (fs : fsys) (tab fresh : symtab) (symfile : string)
    (offset : Z) :
  Forall static_entry_ok (syms tab) ->
  Forall sym_in_bounds (syms tab) ->
  Forall (fun s => 0 < size s) (syms tab) ->
  table_invariant (syms tab) ->
  Sorted near_before (syms tab) ->
  (forall s, hd_error (rev (syms tab)) = Some s -> addr s + size s < 2 ^ 64) ->
  syms fresh = [] ->
  fopen_wx fs symfile = Created ->
  exists fs' tab',
    save_module_symbol fs tab symfile offset = Done fs' /\
    load_module_symbol hdr fs' fresh symfile offset = Some (0, tab') /\
    table_invariant (syms tab') /\
    (forall i s a,
       nth_error (syms tab) i = Some s -> in_range a s = true ->
       Libc.bsearch addrfind a (syms tab') = Some i /\
       exists s', nth_error (syms tab') i = Some s' /\ triple s' = reread_triple hdr s) /\
    (forall i s b a,
       nth_error (syms tab) i = Some s -> nth_error (syms tab) (Datatypes.S i) = Some b ->
       addr s <= a < addr b ->
       Libc.bsearch addrfind a (syms tab') = Some i).
Proof.
  intros Hs Hb Hpos Hinv Hnear Hlast Hf Hopen.
  exists (fs_write fs symfile (module_text tab offset)).
  unfold save_module_symbol. rewrite Hopen.
  unfold load_module_symbol, fs_write. cbn [fs_text]. rewrite String.eqb_refl, Hf.
  rewrite module_lines by exact Hs.
  rewrite read_lines_unrouted by (now apply module_lines_unrouted).
  destruct (hd_error (rev (syms tab))) as [x|] eqn:Ex.
  2:{ assert (E : syms tab = []).
      { destruct (syms tab) as [|y l] eqn:E; [reflexivity|]. cbn [rev] in Ex.
        destruct (rev l); discriminate. }
      rewrite E. cbn. eexists. split; [reflexivity|]. split; [reflexivity|].
      split; [constructor|]. split; [intros [|i] s a Hi; discriminate|].
      intros [|i] s b a Hi; discriminate. }
  set (S := syms tab) in *.
  set (e_end := mk_sym (wrap64 (addr x + size x)) 0 (type x) "__sym_end").
  assert (Hend : end_entry S "__sym_end" = Some e_end).
  { unfold end_entry. destruct (rev S) as [|y ys]; [discriminate|].
    cbn in Ex. inversion Ex; subst y. reflexivity. }
  rewrite Hend.
  destruct (hd_rev_last _ _ Ex) as [pre Epre].
  assert (Hx : In x S) by (rewrite Epre; apply in_or_app; right; now left).
  assert (Hxs : static_entry_ok x) by (rewrite Forall_forall in Hs; now apply Hs).
  assert (Hxb : sym_in_bounds x) by (rewrite Forall_forall in Hb; now apply Hb).
  assert (Hxp : 0 < size x) by (rewrite Forall_forall in Hpos; now apply Hpos).
  pose proof (Hlast x eq_refl) as Hxl.
  destruct Hxs as (Hxa & Hxt & Hxnp & Hxc). destruct Hxb as [_ Hxsz].
  assert (Hwe : wrap64 (addr x + size x) = addr x + size x)
    by (apply wrap64_small; lia).
  set (E := S ++ [e_end]).
  replace (map (entry_line offset) S ++ [entry_line offset e_end])
    with (map (entry_line offset) E) by (unfold E; now rewrite map_app).
  (* the entries and the closing entry as one run of lines *)
  assert (HokE : Forall (entry_ok InStab) E).
  { unfold E. apply Forall_app. split.
    - eapply Forall_impl; [|exact Hs]. apply static_entry_routed.
    - constructor; [|constructor]. unfold entry_ok, e_end. cbn [addr type name].
      split; [rewrite Hwe; lia|]. split; [exact Hxt|]. split; [repeat split|].
      unfold routed. cbn [type]. apply Ascii.eqb_neq in Hxnp. now rewrite Hxnp. }
  assert (Hstep : Sorted (fun a b => (addr a < addr b /\ addr a + size a <= addr b)
                                     /\ addr b - addr a < 2 ^ 32) E).
  { unfold E. apply (sorted_app_last _ S x e_end).
    - apply sorted_conj; [exact Hinv|exact Hnear].
    - exact Ex.
    - unfold e_end. cbn [addr]. rewrite Hwe. lia. }
  assert (HltE : Sorted addr_lt E).
  { eapply sorted_weaken; [|exact Hstep]. intros a b [[H _] _]. exact H. }
  assert (HadjE : adjacent_distinct E = true) by now apply sorted_addr_lt_distinct.
  rewrite (read_run hdr offset InStab E HokE HadjE).
  2:{ intros s Hhd. unfold pair_seen. cbn [reader_init rd_prev_type].
      assert (Hin : In s E) by (destruct E; [discriminate|]; inversion Hhd; now left).
      rewrite Forall_forall in HokE. destruct (HokE s Hin) as (_ & Ha & _).
      apply andb_false_iff. right. apply Ascii.eqb_neq. now apply allowed_not_newline. }
  set (r1 := fold_left (take_entry hdr offset InStab) E (reader_init [] [])).
  set (T := gap_sizes (map (reread_entry hdr) E)).
  assert (Hr1 : rd_stab r1 = T).
  { destruct (run_fields hdr offset InStab E (reader_init [] [])) as (F1 & _ & _).
    change (rd_stab r1) with (tab_of InStab r1). unfold r1. rewrite F1.
    apply (fold_push_gap_sizes _ []). }
  assert (HltR : Sorted addr_lt (map (reread_entry hdr) E))
    by (apply sorted_addr_lt_map; [reflexivity|exact HltE]).
  assert (HinvT : table_invariant T) by (apply gap_sizes_invariant; exact HltR).
  assert (HltT : Sorted addr_lt T).
  { eapply sorted_weaken; [|exact HinvT]. intros a b [H _]. exact H. }
  exists (index_symtab (rd_stab r1)). split; [reflexivity|]. split; [reflexivity|].
  cbn [index_symtab syms]. rewrite Hr1, (qsort_sorted_id T HltT).
  split; [exact HinvT|].
  assert (Hgen : forall i s b a,
            nth_error E i = Some s -> nth_error E (Datatypes.S i) = Some b ->
            addr s <= a < addr b ->
            Libc.bsearch addrfind a T = Some i /\
            nth_error T i = Some (set_size (reread_entry hdr s) (wrap32 (addr b - addr s)))).
  { intros i s b a HiE Hbn Ha.
    destruct (sorted_consecutive _ _ Hstep i s b HiE Hbn) as [[Hlt Hdis] Hnr].
    assert (HbE : 0 <= addr b < 2 ^ 64).
    { rewrite Forall_forall in HokE. apply (HokE b). eapply nth_error_In; eauto. }
    assert (HsE : 0 <= addr s < 2 ^ 64).
    { rewrite Forall_forall in HokE. apply (HokE s). eapply nth_error_In; eauto. }
    assert (HTi : nth_error T i
                  = Some (set_size (reread_entry hdr s) (wrap32 (addr b - addr s)))).
    { unfold T. apply (gap_sizes_nth _ i (reread_entry hdr s) (reread_entry hdr b)).
      - rewrite nth_error_map, HiE. reflexivity.
      - rewrite nth_error_map, Hbn. reflexivity. }
    split; [|exact HTi].
    eapply bsearch_addrfind_find; [exact HinvT| |exact HTi|].
    + unfold T. apply gap_sizes_bounds. apply Forall_forall.
      intros y Hy. apply in_map_iff in Hy as (y0 & <- & Hy0). cbn [reread_entry addr size].
      rewrite Forall_forall in HokE. destruct (HokE y0 Hy0) as (Hyb & _). lia.
    + unfold in_range. cbn [addr size set_size reread_entry].
      rewrite wrap32_small by lia.
      replace (addr s + (addr b - addr s)) with (addr b) by lia.
      rewrite wrap64_small by lia.
      apply andb_true_intro. split; [apply Z.leb_le; lia|apply Z.ltb_lt; lia]. }
  assert (HinE : forall i s, nth_error S i = Some s -> nth_error E i = Some s).
  { intros i s Hi. unfold E. rewrite nth_error_app1; [exact Hi|].
    apply nth_error_Some. congruence. }
  split.
  - intros i s a Hi Hr.
    assert (Hsucc : exists b, nth_error E (Datatypes.S i) = Some b).
    { destruct (nth_error E (Datatypes.S i)) as [b|] eqn:Eb; [now exists b|].
      apply nth_error_None in Eb. unfold E in Eb. rewrite length_app in Eb. cbn in Eb.
      assert (i < List.length S)%nat by (apply nth_error_Some; congruence). lia. }
    destruct Hsucc as [b Hbn].
    destruct (sorted_consecutive _ _ Hstep i s b (HinE i s Hi) Hbn) as [[Hlt Hdis] Hnr].
    assert (HsB : sym_in_bounds s).
    { rewrite Forall_forall in Hb. apply Hb. eapply nth_error_In; eauto. }
    assert (Ha : addr s <= a < addr b).
    { unfold in_range in Hr. apply andb_prop in Hr as [Hlo Hhi].
      apply Z.leb_le in Hlo. apply Z.ltb_lt in Hhi.
      pose proof (wrap64_le (addr s + size s)) as Hw. destruct HsB as [[? ?] [? ?]]. lia. }
    destruct (Hgen i s b a (HinE i s Hi) Hbn Ha) as [G1 G2].
    split; [exact G1|]. eexists. split; [exact G2|]. reflexivity.
  - intros i s b a Hi Hbn Ha.
    apply (Hgen i s b a (HinE i s Hi) (HinE _ b Hbn) Ha).
Qed.

End ModuleCache.

(** ** Loading a table set once *)

Section LoadOnce.
Variable hdr : header.

Lemma load_symbol_file_frame (fs : fsys) (tabs tabs' : symtabs) (symfile : string)
    (offset ret : Z) :
  load_symbol_file hdr fs tabs symfile offset = Some (ret, tabs') ->
  loaded tabs' = loaded tabs /\ dirname tabs' = dirname tabs /\
  flags tabs' = flags tabs /\ maps tabs' = maps tabs.
Proof.
  unfold load_symbol_file. destruct (fs_text fs symfile).
  - destruct (read_lines hdr true offset _ _); [|discriminate].
    intros H. inversion H; subst. now repeat split.
  - intros H. inversion H; subst. now repeat split.
Qed.

(** X18.  [load_symtabs] loads once: the table set it returns is marked
    loaded, and a further call returns it unchanged whatever file,
    directory or file system it is given; the flags and the map list
    are never changed by it. *)
Theorem load_symtabs_once (fs : fsys) (tabs tabs' : symtabs) (dir : option string)
    (filename : string) :
  load_symtabs hdr fs tabs dir filename = Some tabs' ->
  loaded tabs' = true /\ flags tabs' = flags tabs /\ maps tabs' = maps tabs /\
  (forall fs' dir' filename', load_symtabs hdr fs' tabs' dir' filename' = Some tabs').
Proof.
  intros H.
  assert (G : loaded tabs' = true /\ flags tabs' = flags tabs /\ maps tabs' = maps tabs).
  { unfold load_symtabs in H. destruct (loaded tabs) eqn:El.
    { inversion H; subst. now repeat split. }
    cbn [flags maps loaded dirname stab dsymtab] in H.
    set (tabs0 := mk_symtabs false dir (stab tabs) (dsymtab tabs) (flags tabs) (maps tabs))
      in *.
    set (offset := if flag_set (flags tabs) (SYMTAB_FL_ADJ_OFFSET hdr)
                   then find_map_offset (maps tabs) filename else 0) in *.
    assert (Hc : forall tabs1,
              match dir with
              | Some _ =>
                  if flag_set (flags tabs) (SYMTAB_FL_USE_SYMFILE hdr) then
                    match fs_text fs (symfile_path dir filename) with
                    | Some _ =>
                        match load_symbol_file hdr fs tabs0
                                (symfile_path dir filename) offset with
                        | None => None
                        | Some (_, t) => Some t
                        end
                    | None => Some tabs0
                    end
                  else Some tabs0
              | None => Some tabs0
              end = Some tabs1 ->
              flags tabs1 = flags tabs /\ maps tabs1 = maps tabs).
    { intros tabs1 Hc. destruct dir as [d|]; [|inversion Hc; now subst].
      destruct (flag_set (flags tabs) (SYMTAB_FL_USE_SYMFILE hdr));
        [|inversion Hc; now subst].
      destruct (fs_text fs (symfile_path (Some d) filename)); [|inversion Hc; now subst].
      destruct (load_symbol_file hdr fs tabs0 _ offset) as [[ret t]|] eqn:Ef;
        [|discriminate].
      inversion Hc; subst t.
      destruct (load_symbol_file_frame _ _ _ _ _ _ Ef) as (_ & _ & Hfl & Hm).
      now split. }
    match type of H with
    | match ?c with _ => _ end = _ => destruct c as [tabs1|] eqn:Ec; [|discriminate]
    end.
    destruct (Hc tabs1 eq_refl) as [Hfl Hm].
    match type of H with
    | match ?c with _ => _ end = _ => destruct c as [tabs3|] eqn:Ed; [|discriminate]
    end.
    inversion H; subst tabs'. cbn [loaded flags maps].
    split; [reflexivity|].
    destruct (nr_sym (stab tabs1) =? 0)%nat;
      destruct (nr_sym (dsymtab _) =? 0)%nat; cbn [with_stab dsymtab flags] in Ed.
    - destruct (load_dynsymtab hdr _ _ _ _) as [[r d]|]; [|discriminate].
      inversion Ed; subst. cbn [with_dsymtab with_stab flags maps]. now split.
    - inversion Ed; subst. cbn [with_stab flags maps]. now split.
    - destruct (load_dynsymtab hdr _ _ _ _) as [[r d]|]; [|discriminate].
      inversion Ed; subst. cbn [with_dsymtab flags maps]. now split.
    - inversion Ed; subst. now split. }
  destruct G as (G1 & G2 & G3). repeat split; try assumption.
  intros fs' dir' filename'. unfold load_symtabs. now rewrite G1.
Qed.

End LoadOnce.

(** ** The offset of a cache file and the offset of the ELF loaders *)

Lemma wrap64_add_l (x y : Z) : wrap64 (wrap64 x + y) = wrap64 (x + y).
Proof. unfold wrap64. apply Zplus_mod_idemp_l. Qed.

Lemma wrap64_add_r (x y : Z) : wrap64 (x + wrap64 y) = wrap64 (x + y).
Proof. unfold wrap64. apply Zplus_mod_idemp_r. Qed.

Lemma reread_address (sv v st : Z) :
  wrap64 (wrap64 (wrap64 (sv + 0) - v) + st) = wrap64 (sv + wrap64 (st - v)).
Proof.
  rewrite Z.add_0_r, wrap64_add_l, wrap64_add_r.
  replace (wrap64 sv - v + st) with (wrap64 sv + (st - v)) by lia.
  apply wrap64_add_l.
Qed.

Section Offsets.
Variable hdr : header.

Lemma phdr_scan_first_load (elf : Elf.image) (idxs : list nat) (offset offset' : Z) :
  0 <= offset < 2 ^ 64 ->
  phdr_scan elf idxs offset = Some offset' ->
  offset' = wrap64 (offset - first_load_vaddr elf idxs).
Proof.
  intros Ho. induction idxs as [|i rest IH]; cbn [phdr_scan first_load_vaddr].
  - intros H. inversion H; subst. rewrite Z.sub_0_r. symmetry. now apply wrap64_small.
  - destruct (Elf.gelf_getphdr elf i) as [ph|]; [|discriminate].
    destruct (Elf.p_type ph =? Elf.PT_LOAD); [|exact IH].
    intros H. now inversion H.
Qed.

(** The ELF loaders under SYMTAB_FL_ADJ_OFFSET lower the offset by what
    [save_symbol_file] takes off the addresses it writes. *)
Lemma adjust_offset_save_offset (elf : Elf.image) (offset offset' fl : Z) :
  flag_set fl (SYMTAB_FL_ADJ_OFFSET hdr) = true ->
  0 <= offset < 2 ^ 64 ->
  adjust_offset hdr elf offset fl = Some offset' ->
  offset' = wrap64 (offset - fst (save_offset (Some (Some elf)))).
Proof.
  intros Hf Ho. unfold adjust_offset, save_offset. rewrite Hf.
  destruct (Elf.e_phdrnum elf) as [nr|]; [|discriminate]. cbn [fst].
  now apply phdr_scan_first_load.
Qed.

(** X19.  The addresses of a cache file fit the ELF loader: a line that
    [save_symbol_file] writes for an entry loaded without
    SYMTAB_FL_ADJ_OFFSET, read back with the start of the map as offset,
    gives the address that [load_symtab] computes for the same symbol
    under SYMTAB_FL_ADJ_OFFSET with that map start ([fl0] and [fl1] are
    the flags of the two loads). *)
Theorem cache_line_matches_elf_address (elf : Elf.image) (fl0 fl1 map_start offset' : Z)
    (es : Elf.Sym) (s0 s1 : sym) (route : bool) :
  flag_set fl1 (SYMTAB_FL_ADJ_OFFSET hdr) = true ->
  0 <= map_start < 2 ^ 64 ->
  adjust_offset hdr elf map_start fl1 = Some offset' ->
  entry_of_symbol hdr 0 fl0 es = Some s0 ->
  entry_of_symbol hdr offset' fl1 es = Some s1 ->
  accepted_letter (type s0) ->
  type s0 <> ST_PLT ->
  clean_name (name s0) ->
  read_line hdr route map_start (reader_init [] [])
    (fmt_line (addr s0 - fst (save_offset (Some (Some elf)))) (type s0) (name s0))
  = Some (mk_reader [mk_sym (addr s1) 0 (type s0) (demangle hdr (name s0))] []
            InStab (wrap64 (addr s0 - fst (save_offset (Some (Some elf))))) (type s0)).
Proof.
  intros Hf1 Hm Ha He0 He1 Hal Hnp Hc.
  pose proof (adjust_offset_save_offset _ _ _ _ Hf1 Hm Ha) as Hoff.
  set (v := fst (save_offset (Some (Some elf)))) in *.
  destruct (allowed_not_newline _ Hal) as [Hnl HX].
  rewrite (read_line_fresh hdr route map_start (reader_init [] []) _
             (wrap64 (addr s0 - v)) (type s0) (name s0)).
  - apply Ascii.eqb_neq in Hnp. rewrite Hnp, andb_false_r.
    cbn [set_tab reader_init rd_stab rd_dsymtab push_sym]. f_equal. f_equal. f_equal.
    f_equal.
    unfold entry_of_symbol in He0, He1.
    destruct (Elf.st_size es =? 0); [discriminate|].
    destruct (negb (Elf.GELF_ST_TYPE (Elf.st_info es) =? Elf.STT_FUNC)); [discriminate|].
    inversion He0; subst s0. inversion He1; subst s1. cbn [addr].
    rewrite Hoff. apply reread_address.
  - apply parse_line_fmt; [exact Hnl|exact (proj2 Hal)|exact Hc].
  - exact (proj1 Hal).
  - cbn [reader_init rd_prev_addr rd_prev_type]. apply andb_false_iff. right.
    now apply Ascii.eqb_neq.
Qed.

End Offsets.

(** ** After [unload_symtabs] *)

Lemma bsearch_nil {K A} (compar : K -> A -> Z) (key : K) :
  Libc.bsearch compar key [] = None.
Proof. reflexivity. Qed.

(** X20.  After [unload_symtabs] the two main tables are empty and the
    table set counts as not loaded: no index is a PLT index, no name is
    found in either table, an address outside the kernel and outside
    every map resolves to nothing, and the maps with their tables are
    as before. *)
Theorem unload_symtabs_empties (hdr : header) (fs : fsys) (k tabs : symtabs)
    (i : nat) (nm : string) (a : Z) :
  loaded (unload_symtabs tabs) = false /\
  maps (unload_symtabs tabs) = maps tabs /\
  count_dynsym (unload_symtabs tabs) = 0%nat /\
  find_dynsym (unload_symtabs tabs) i = Some None /\
  find_symname (stab (unload_symtabs tabs)) nm = Some None /\
  find_symname (dsymtab (unload_symtabs tabs)) nm = Some None /\
  (is_kernel_address hdr a = false -> find_map (maps tabs) a 0 = None ->
   find_symtabs hdr fs k (unload_symtabs tabs) a = Some (None, unload_symtabs tabs)).
Proof.
  repeat split.
  - unfold unload_symtabs, unload_symtab, find_symname. cbn [stab name_sorted syms sym_names].
    destruct (name_sorted (stab tabs)); reflexivity.
  - unfold unload_symtabs, unload_symtab, find_symname.
    cbn [dsymtab name_sorted syms sym_names].
    destruct (name_sorted (dsymtab tabs)); reflexivity.
  - intros Hk Hm. unfold find_symtabs. rewrite Hk.
    unfold unload_symtabs, unload_symtab. cbn [stab dsymtab maps syms].
    rewrite !bsearch_nil, Hm. reflexivity.
Qed.

(** ** The name of an address without symbol *)

Module GetnameFacts.
Import Libc.

Lemma hex_digits_all_hex (n : nat) (v : Z) (acc : string) :
  all_hex acc -> all_hex (hex_digits n v acc).
Proof.
  revert v acc. induction n as [|n IH]; intros v acc Ha; cbn [hex_digits]; [exact Ha|].
  apply IH. cbn [all_hex]. split; [|exact Ha].
  exists (v mod 16). split; [apply Z.mod_pos_bound; lia|reflexivity].
Qed.

Lemma hex_digits_not_nil (n : nat) (v : Z) (acc : string) :
  (0 < n)%nat \/ acc <> EmptyString -> hex_digits n v acc <> EmptyString.
Proof.
  revert v acc. induction n as [|n IH]; intros v acc H; cbn [hex_digits].
  - destruct H as [H|H]; [lia|exact H].
  - apply IH. right. discriminate.
Qed.

Lemma strip_zeros_all_hex (s : string) : all_hex s -> all_hex (strip_zeros s).
Proof.
  induction s as [|c s IH]; [auto|]. intros [Hc Hs]. cbn [strip_zeros].
  destruct s as [|c' s']; [now split|].
  destruct (Ascii.eqb c "0"); [now apply IH|now split].
Qed.

Lemma strip_zeros_not_nil (s : string) : s <> EmptyString -> strip_zeros s <> EmptyString.
Proof.
  induction s as [|c s IH]; [auto|]. intros _. cbn [strip_zeros].
  destruct s as [|c' s']; [discriminate|].
  destruct (Ascii.eqb c "0"); [apply IH; discriminate|discriminate].
Qed.

(** Leading zeros do not change what [strtoul] reads. *)
Lemma strtoul_digits_strip (s rest : string) :
  strtoul_digits 0 false (strip_zeros s ++ rest) = strtoul_digits 0 false (s ++ rest).
Proof.
  induction s as [|c s IH]; [reflexivity|]. cbn [strip_zeros].
  destruct s as [|c' s']; [reflexivity|].
  destruct (Ascii.eqb_spec c "0") as [->|]; [|reflexivity].
  rewrite IH. reflexivity.
Qed.

(** [strtoul] reads back what [%lx] has written, up to the character
    that follows it. *)
Lemma strtoul16_fmt_lx (v : Z) :
  0 <= v < 2 ^ 64 -> strtoul16 (fmt_lx v ++ ">") = (v, ">"%string).
Proof.
  intros Hv. unfold fmt_lx, fmt_016lx.
  assert (Hd : strtoul_digits 0 false (strip_zeros (hex_digits 16 v "") ++ ">")
               = (v, false, ">"%string)).
  { rewrite strtoul_digits_strip, hex_digits_app. cbn [append].
    rewrite strtoul_digits_hex; [reflexivity| |lia|].
    - change (16 ^ Z.of_nat 16) with (2 ^ 64). exact Hv.
    - unfold ULONG_MAX. change (16 ^ Z.of_nat 16) with (2 ^ 64). lia. }
  pose proof (strip_zeros_all_hex _ (hex_digits_all_hex 16 v "" I)) as Hall.
  assert (Hne : strip_zeros (hex_digits 16 v "") <> EmptyString)
    by (apply strip_zeros_not_nil, hex_digits_not_nil; left; lia).
  destruct (strip_zeros (hex_digits 16 v "")) as [|c tl]; [contradiction|].
  destruct Hall as [(d1 & H1 & ->) Htl].
  destruct (hexchar_plain d1 H1) as (Hs & Hminus & Hplus & _).
  apply Ascii.eqb_neq in Hminus, Hplus.
  unfold strtoul16. cbn [append skip_spaces]. rewrite Hs. cbn [strip_sign].
  rewrite Hminus, Hplus.
  assert (H0x : strip_0x (String (hexchar d1) (tl ++ ">"))
                = String (hexchar d1) (tl ++ ">")).
  { destruct tl as [|c2 tl2]; cbn [append strip_0x].
    - now rewrite andb_false_r.
    - destruct Htl as [(d2 & H2 & ->) _].
      destruct (hexchar_plain d2 H2) as (_ & _ & _ & Hx & HX & _).
      apply Ascii.eqb_neq in Hx, HX. now rewrite Hx, HX, andb_false_r. }
  rewrite H0x. cbn [is_hexdigit_head]. rewrite (hexval_hexchar d1 H1).
  cbn [append] in Hd. now rewrite Hd.
Qed.

End GetnameFacts.

(** X21.  [symbol_getname] gives the name of the entry when there is
    one; without an entry it gives the address in hexadecimal between
    angle brackets, from which [strtoul] reads the address back, so
    that two addresses without symbol never get the same name. *)
Theorem symbol_getname_placeholder (a b : Z) (s : sym) :
  0 <= a < 2 ^ 64 -> 0 <= b < 2 ^ 64 ->
  symbol_getname (Some s) a = name s /\
  Libc.strtoul16 (Libc.drop 1 (symbol_getname None a)) = (a, ">"%string) /\
  (symbol_getname None a = symbol_getname None b -> a = b).
Proof.
  intros Ha Hb. split; [reflexivity|].
  assert (G : forall v, 0 <= v < 2 ^ 64 ->
            Libc.strtoul16 (Libc.drop 1 (symbol_getname None v)) = (v, ">"%string)).
  { intros v Hv. unfold symbol_getname. cbn [Libc.drop].
    now apply GetnameFacts.strtoul16_fmt_lx. }
  split; [now apply G|].
  intros E. pose proof (G a Ha) as Ga. rewrite E, (G b Hb) in Ga. now inversion Ga.
Qed.

(** ** The index by name *)

Section NameIndex.
Variable hdr : header.

(** X22.  After a successful [load_symtab], [load_module_symbol] or
    [load_symbol_file] the static table is marked sorted by name and
    its [sym_names] holds a pointer to every entry exactly once, in
    the order of [strcmp] on the names. *)
Theorem name_index_invariant (t : symtab) :
  (exists t0 file offset fl, load_symtab hdr t0 file offset fl = (0, t)) \/
  (exists fs t0 symfile offset,
     load_module_symbol hdr fs t0 symfile offset = Some (0, t)) \/
  (exists fs tabs symfile offset tabs',
     load_symbol_file hdr fs tabs symfile offset = Some (0, tabs') /\ t = stab tabs') ->
  name_sorted t = true /\ slots_valid t /\
  exists q, sym_names t = map SymPtr q /\
            Permutation q (seq 0 (nr_sym t)) /\
            StronglySorted (name_le (syms t)) q.
Proof.
  intros H.
  assert (Ht : exists tab, t = mk_symtab tab (build_sym_names tab) true).
  { destruct H as [(t0 & file & offset & fl & H)|[(fs & t0 & symfile & offset & H)|
                   (fs & tabs & symfile & offset & tabs' & H & ->)]].
    - destruct (load_symtab_success hdr _ _ _ _ _ H) as [entries ->].
      eexists. reflexivity.
    - unfold load_module_symbol in H.
      destruct (fs_text fs symfile); [|inversion H].
      destruct (read_lines hdr false offset _ _) as [r|]; inversion H.
      eexists. reflexivity.
    - unfold load_symbol_file in H.
      destruct (fs_text fs symfile); [|inversion H].
      destruct (read_lines hdr true offset _ _) as [r|]; inversion H.
      eexists. reflexivity. }
  destruct Ht as [tab ->]. split; [reflexivity|]. split; [apply build_sym_names_valid|].
  eexists. split; [reflexivity|]. split; [apply name_index_perm|apply name_index_sorted].
Qed.

End NameIndex.

(** ** Lookups in modules and in the kernel *)

Section ModuleLookup.
Variable hdr : header.

(** X23.  An address that the two main tables do not resolve is looked
    up in the first map whose range holds it: when that map has a table
    with the invariant of the data model, the entry whose range holds
    the address is returned and the table set stays as it is. *)
Theorem find_symtabs_in_module (fs : fsys) (k tabs : symtabs) (a : Z)
    (j i : nat) (m : ftrace_proc_maps) (s : sym) :
  is_kernel_address hdr a = false ->
  Libc.bsearch addrfind a (syms (stab tabs)) = None ->
  Libc.bsearch addrfind a (syms (dsymtab tabs)) = None ->
  find_map (maps tabs) a 0 = Some (j, m) ->
  table_invariant (syms (map_symtab m)) ->
  Forall sym_in_bounds (syms (map_symtab m)) ->
  nth_error (syms (map_symtab m)) i = Some s ->
  in_range a s = true ->
  find_symtabs hdr fs k tabs a = Some (Some (MapSym j i), tabs).
Proof.
  intros Hk H1 H2 Hm Hinv Hb Hi Hr.
  assert (Hnz : nr_sym (map_symtab m) <> 0%nat).
  { unfold nr_sym. destruct (syms (map_symtab m)); [destruct i; discriminate|discriminate]. }
  unfold find_symtabs. rewrite Hk, H1, H2, Hm, (populate_map_loaded hdr fs tabs m Hnz).
  rewrite (bsearch_addrfind_find _ _ _ _ Hinv Hb Hi Hr). cbn [option_map].
  destruct (find_map_nth _ _ _ _ Hm) as [Hj _].
  assert (Hid : set_nth (maps tabs) j
                  (mk_map (libname m) (start m) (end_ m) (map_symtab m)) = maps tabs).
  { apply set_nth_id. now destruct m. }
  rewrite Hid. now destruct tabs.
Qed.

(** X24.  A kernel address that [find_symtabs] resolves in the table
    that [load_kernel_symbol] has read resolves to an entry of type
    [ST_KERNEL]. *)
Theorem kernel_lookup_type (fs fs' : fsys) (k0 k tabs tabs' : symtabs) (a : Z)
    (r : symref) :
  loaded k0 = false ->
  load_kernel_symbol hdr fs k0 = Some (0, k) ->
  is_kernel_address hdr a = true ->
  find_symtabs hdr fs' k tabs a = Some (Some r, tabs') ->
  exists s, symref_get k tabs' r = Some s /\ type s = ST_KERNEL /\
            in_range (get_real_address hdr a) s = true.
Proof.
  intros Hl0 Hl Hk Hf.
  assert (Hty : Forall (fun s => type s = ST_KERNEL) (syms (stab k))).
  { unfold load_kernel_symbol in Hl. rewrite Hl0 in Hl.
    destruct (load_symbol_file hdr fs k0 "/proc/kallsyms" 0) as [[ret k1]|];
      [|discriminate].
    destruct (ret <? 0); [discriminate|]. inversion Hl; subst k. cbn [stab syms].
    apply Forall_forall. intros s Hs. apply in_map_iff in Hs as (s0 & <- & _).
    reflexivity. }
  unfold find_symtabs in Hf. rewrite Hk in Hf.
  destruct (get_kernel_symtab k) as [ktab|] eqn:Ek; [|discriminate].
  unfold get_kernel_symtab in Ek. destruct (loaded k); [|discriminate].
  inversion Ek; subst ktab.
  destruct (Libc.bsearch addrfind (get_real_address hdr a) (syms (stab k))) as [i|] eqn:Eb;
    [|discriminate].
  cbn [option_map] in Hf. inversion Hf; subst. cbn [symref_get].
  destruct (bsearch_in_range _ _ _ Eb) as (s & Hs & Hr).
  exists s. repeat split; [exact Hs| |exact Hr].
  rewrite Forall_forall in Hty. apply Hty. eapply nth_error_In; eauto.
Qed.

Lemma cut_at_cut (c : ascii) (s : string) :
  c <> Libc.NUL -> Libc.strchr (Libc.cut_at c s) c = None.
Proof.
  intros Hc. apply Ascii.eqb_neq in Hc.
  induction s as [|x s IH]; cbn [Libc.cut_at]; [cbn [Libc.strchr]; now rewrite Hc|].
  destruct (Ascii.eqb x c) eqn:E; [cbn [Libc.strchr]; now rewrite Hc|].
  cbn [Libc.strchr]. now rewrite E.
Qed.

(** X25.  Without SYMTAB_FL_DEMANGLE no name that [load_symtab] stores
    carries a version: every name of a table loaded from an ELF image
    is free of the character [@]. *)
Theorem load_symtab_names_unversioned (t0 t : symtab) (file : option (option Elf.image))
    (offset fl : Z) :
  load_symtab hdr t0 file offset fl = (0, t) ->
  syms t0 = [] ->
  flag_set fl (SYMTAB_FL_DEMANGLE hdr) = false ->
  Forall (fun s => Libc.strchr (name s) "@" = None) (syms t).
Proof.
  unfold load_symtab. intros H Ht0 Hfl.
  destruct file as [[elf|]|]; [|inversion H|inversion H].
  destruct (adjust_offset hdr elf offset fl) as [offset'|]; [|inversion H].
  destruct (Elf.e_shstrndx elf); [|inversion H].
  destruct (scan_symtab (Elf.e_scn elf) None) as [[sym_sec dynsym_sec]|]; [|inversion H].
  destruct (match sym_sec with Some s => Some s | None => dynsym_sec end) as [sec|];
    [|inversion H].
  destruct (negb (Elf.sh_data sec)); [inversion H|].
  destruct (load_entries hdr sec (seq 0 (Elf.sh_nr sec)) offset' fl (syms t0))
    as [ok tab] eqn:El.
  destruct (load_entries_spec _ _ _ _ _ _ _ _ El) as (new & -> & Hfrom & _).
  destruct ok; cbn [negb] in H; [|inversion H].
  destruct (List.length (syms t0 ++ new) =? 0)%nat; [inversion H|].
  inversion H; subst t. rewrite Ht0 in *. cbn [app] in *.
  apply Forall_forall. intros s Hs. apply finish_symtab_incl in Hs.
  destruct (Hfrom s Hs) as (i & es & _ & _ & He).
  unfold entry_of_symbol in He.
  destruct (Elf.st_size es =? 0); [discriminate|].
  destruct (negb (Elf.GELF_ST_TYPE (Elf.st_info es) =? Elf.STT_FUNC)); [discriminate|].
  inversion He; subst s. cbn [name]. unfold stored_name. rewrite Hfl.
  apply cut_at_cut. discriminate.
Qed.

End ModuleLookup.

(** ** The two tables of a cache file *)

Lemma push_sym_forall (P : sym -> Prop) (tab : list sym) (s : sym) :
  (forall x sz, P x -> P (set_size x sz)) ->
  Forall P tab -> P s -> Forall P (push_sym tab s).
Proof.
  intros Hsz Htab Hs. induction tab as [|p [|q rest] IH].
  - now constructor.
  - cbn [push_sym]. inversion Htab; subst. repeat constructor; auto.
  - rewrite push_sym_cons2. inversion Htab; subst. constructor; auto.
Qed.

Lemma map_last_forall (P : sym -> Prop) (f : sym -> sym) (tab : list sym) :
  (forall x, P x -> P (f x)) -> Forall P tab -> Forall P (map_last f tab).
Proof.
  intros Hf Htab. induction tab as [|p [|q rest] IH].
  - constructor.
  - cbn [map_last]. inversion Htab; subst. repeat constructor; auto.
  - rewrite map_last_cons2. inversion Htab; subst. constructor; auto.
Qed.

Section Routing.
Variable hdr : header.

Lemma read_line_routes (offset : Z) (r r' : reader) (l : string) :
  read_line hdr true offset r l = Some r' ->
  Forall (fun s => type s <> ST_PLT /\ Libc.strchr allowed_types (type s) <> None)
         (rd_stab r) ->
  Forall (fun s => type s = ST_PLT) (rd_dsymtab r) ->
  Forall (fun s => type s <> ST_PLT /\ Libc.strchr allowed_types (type s) <> None)
         (rd_stab r') /\
  Forall (fun s => type s = ST_PLT) (rd_dsymtab r').
Proof.
  unfold read_line. intros H Hs Hd.
  destruct (parse_line l) as [[[[a t] nm]|]|]; [|inversion H; now subst|discriminate].
  destruct ((a =? rd_prev_addr r) && Ascii.eqb t (rd_prev_type r)).
  - destruct (cur_tab r) as [|x tl] eqn:Ec; [discriminate|]. rewrite <- Ec in H.
    inversion H; subst r'. unfold cur_tab, set_tab.
    destruct (rd_cur r); cbn [rd_stab rd_dsymtab]; split; try assumption;
      apply map_last_forall; auto.
  - destruct (Libc.strchr allowed_types t) eqn:Ea; [|inversion H; now subst].
    cbn [andb] in H. destruct (Ascii.eqb_spec t ST_PLT) as [Et|Et];
      inversion H; subst r'; cbn [set_tab rd_stab rd_dsymtab]; split; try assumption.
    + apply push_sym_forall; auto.
    + apply push_sym_forall; auto. cbn [type]. split; [exact Et|]. now rewrite Ea.
Qed.

Lemma read_lines_routes (offset : Z) (lines : list string) :
  forall r r',
    read_lines hdr true offset r lines = Some r' ->
    Forall (fun s => type s <> ST_PLT /\ Libc.strchr allowed_types (type s) <> None)
           (rd_stab r) ->
    Forall (fun s => type s = ST_PLT) (rd_dsymtab r) ->
    Forall (fun s => type s <> ST_PLT /\ Libc.strchr allowed_types (type s) <> None)
           (rd_stab r') /\
    Forall (fun s => type s = ST_PLT) (rd_dsymtab r').
Proof.
  induction lines as [|l rest IH]; intros r r'; cbn [read_lines].
  - intros H; inversion H; subst. tauto.
  - destruct (read_line hdr true offset r l) as [r1|] eqn:E; [|discriminate].
    intros H Hs Hd. destruct (read_line_routes _ _ _ _ E Hs Hd) as [Hs1 Hd1].
    now apply (IH r1 r').
Qed.

(** The bytes that [strchr] finds in [allowed_types]: the five letters
    and the terminator. *)
Lemma allowed_types_cases (t : ascii) :
  Libc.strchr allowed_types t <> None ->
  In t [ST_GLOBAL; ST_LOCAL; ST_WEAK; ST_PLT; ST_KERNEL; Libc.NUL].
Proof.
  destruct t as [[] [] [] [] [] [] [] []]; intros H;
    try (exfalso; apply H; reflexivity); cbn; tauto.
Qed.

(** X26.  [load_symbol_file] on empty tables sorts the lines by their
    type byte: the dynamic table receives the entries of type P and
    nothing else; the static table receives entries of the letters T,
    t, w and K, and entries whose type is the NUL byte, which the test
    [strchr(allowed_types, type)] lets through because [strchr] finds
    the terminator of [allowed_types]. *)
Theorem load_symbol_file_routes_by_type (fs : fsys) (tabs tabs' : symtabs)
    (symfile : string) (offset ret : Z) :
  load_symbol_file hdr fs tabs symfile offset = Some (ret, tabs') ->
  syms (stab tabs) = [] -> syms (dsymtab tabs) = [] ->
  Forall (fun s => In (type s) [ST_GLOBAL; ST_LOCAL; ST_WEAK; ST_KERNEL; Libc.NUL])
         (syms (stab tabs')) /\
  Forall (fun s => type s = ST_PLT) (syms (dsymtab tabs')).
Proof.
  unfold load_symbol_file. intros H Hs Hd. rewrite Hs, Hd in H.
  destruct (fs_text fs symfile) as [text|].
  2:{ inversion H; subst. rewrite Hs, Hd. split; constructor. }
  destruct (read_lines hdr true offset (reader_init [] []) (Libc.getlines text))
    as [r|] eqn:E; [|discriminate].
  destruct (read_lines_routes _ _ _ _ E) as [Hs1 Hd1]; [constructor|constructor|].
  inversion H; subst tabs'. cbn [stab dsymtab index_symtab syms]. split.
  - rewrite Forall_forall in *. intros s Hin.
    destruct (Hs1 s) as [Hnp Hal].
    { eapply Permutation_in; [apply LibcFacts.qsort_perm|exact Hin]. }
    apply allowed_types_cases in Hal. cbn [In] in Hal |- *.
    destruct Hal as [Hal|[Hal|[Hal|[Hal|Hal]]]]; try tauto. now symmetry in Hal.
  - destruct (List.length (rd_dsymtab r) =? 0)%nat; cbn [syms sort_dynsymtab];
      [exact Hd1|].
    rewrite Forall_forall in *. intros s Hin. apply Hd1.
    eapply Permutation_in; [apply LibcFacts.qsort_perm|exact Hin].
Qed.

End Routing.

(** ** Addresses inside the PLT *)

Lemma sorted_of_consecutive {A} (R : A -> A -> Prop) (l : list A) :
  (forall i a b, nth_error l i = Some a -> nth_error l (S i) = Some b -> R a b) ->
  Sorted R l.
Proof.
  induction l as [|x l IH]; intros H; [constructor|].
  constructor.
  - apply IH. intros i a b Ha Hb. apply (H (S i)); assumption.
  - destruct l as [|y l]; constructor. apply (H 0%nat); reflexivity.
Qed.

Lemma find_pos_sorted (tab : list sym) :
  StronglySorted addr_lt tab ->
  forall i s k0, nth_error tab i = Some s -> find_pos (addr s) tab k0 = Some (k0 + i)%nat.
Proof.
  induction 1 as [|x rest Hs IH Hall]; intros i s k0 Hi.
  - destruct i; discriminate.
  - cbn [find_pos]. destruct i as [|i].
    + cbn in Hi. inversion Hi; subst. rewrite Z.eqb_refl. f_equal. lia.
    + cbn in Hi. rewrite Forall_forall in Hall.
      assert (Hlt : addr_lt x s) by (apply Hall; eapply nth_error_In; eauto).
      unfold addr_lt in Hlt. destruct (Z.eqb_spec (addr x) (addr s)); [lia|].
      rewrite (IH i s (S k0) Hi). f_equal. lia.
Qed.

Lemma addr_lt_strongly (l : list sym) : Sorted addr_lt l -> StronglySorted addr_lt l.
Proof.
  apply Sorted_StronglySorted. intros x y z. unfold addr_lt. lia.
Qed.

Section PltAddresses.
Variable hdr : header.

Lemma load_rels_all (st : plt_scan) (relplt dynsym : Elf.Shdr) (offset fl : Z)
    (idxs : list nat) :
  (forall idx, In idx idxs -> exists es, rel_symbol relplt dynsym idx = Some es) ->
  forall tab,
    exists new,
      load_rels hdr st relplt dynsym idxs offset fl tab = Some (Some (tab ++ new)) /\
      List.length new = List.length idxs /\
      forall k idx, nth_error idxs k = Some idx ->
        exists es, rel_symbol relplt dynsym idx = Some es /\
                   nth_error new k = Some (plt_entry hdr st offset fl idx es).
Proof.
  induction idxs as [|i rest IH]; intros Hall tab; cbn [load_rels].
  - exists []. rewrite app_nil_r. repeat split. intros [|k] idx H; discriminate.
  - destruct (Hall i) as [es Hes]; [now left|].
    unfold rel_symbol in Hes.
    destruct (Elf.gelf_getrel relplt i) as [r_info|] eqn:Er; [|discriminate].
    rewrite Hes.
    destruct (IH (fun idx H => Hall idx (or_intror H))
                 (tab ++ [plt_entry hdr st offset fl i es])) as (new & E & Hlen & Hn).
    exists (plt_entry hdr st offset fl i es :: new).
    rewrite E, <- app_assoc. split; [reflexivity|].
    split; [cbn [List.length]; now rewrite Hlen|].
    intros [|k] idx Hk.
    + cbn in Hk. inversion Hk; subst idx. exists es. split; [|reflexivity].
      unfold rel_symbol. now rewrite Er.
    + cbn in Hk. cbn [nth_error]. now apply Hn.
Qed.

(** X27.  In an image whose PLT relocations all refer to function
    symbols without a value of their own, relocation [idx] gets the
    address [plt_addr + (idx + 1) * plt_entsize]: after
    [load_dynsymtab] without SYMTAB_FL_ADJ_OFFSET, every address inside
    that PLT entry resolves to position [idx] of the table, slot [idx]
    of [sym_names] points there, and the entry there has type [ST_PLT]
    and is built from the symbol of the relocation. *)
Theorem plt_address_resolves (elf : Elf.image) (st : plt_scan)
    (dynsym relplt : Elf.Shdr) (d0 : symtab) (offset fl : Z) :
  flag_set fl (SYMTAB_FL_ADJ_OFFSET hdr) = false ->
  Elf.e_shstrndx elf <> None ->
  scan_plt (Elf.e_scn elf) (mk_plt_scan None None 0 Elf.SHT_NULL 0 1) = Some st ->
  ps_dynsym st = Some dynsym -> ps_relplt st = Some relplt ->
  ps_rel_type st = Elf.SHT_RELA \/ ps_rel_type st = Elf.SHT_REL ->
  Elf.sh_data relplt = true -> Elf.sh_data dynsym = true ->
  syms d0 = [] ->
  0 < ps_plt_addr st -> 0 < ps_plt_entsize st < 2 ^ 32 -> (0 < ps_nr_rels st)%nat ->
  ps_plt_addr st + (Z.of_nat (ps_nr_rels st) + 1) * ps_plt_entsize st < 2 ^ 64 ->
  (forall idx, (idx < ps_nr_rels st)%nat ->
     exists es, rel_symbol relplt dynsym idx = Some es /\ Elf.st_value es = 0 /\
                Elf.GELF_ST_TYPE (Elf.st_info es) = Elf.STT_FUNC) ->
  exists d,
    load_dynsymtab hdr d0 (Some (Some elf)) offset fl = Some (0, d) /\
    table_invariant (syms d) /\
    nr_sym d = ps_nr_rels st /\
    forall idx delta,
      (idx < ps_nr_rels st)%nat -> 0 <= delta < ps_plt_entsize st ->
      Libc.bsearch addrfind
        (ps_plt_addr st + (Z.of_nat idx + 1) * ps_plt_entsize st + delta) (syms d)
      = Some idx /\
      nth_error (sym_names d) idx = Some (SymPtr idx) /\
      exists es, rel_symbol relplt dynsym idx = Some es /\
                 nth_error (syms d) idx = Some (plt_entry hdr st offset fl idx es).
Proof.
  intros Hfl Hshstr Hscan Hdyn Hrel Hty Hdr Hdd Hd0 Hplt Hent Hnr Hmax Hsyms.
  set (P := ps_plt_addr st) in *. set (E := ps_plt_entsize st) in *.
  set (n := ps_nr_rels st) in *.
  destruct (load_rels_all st relplt dynsym offset fl (seq 0 n)) with (tab := @nil sym)
    as (new & Hload & Hlen & Hnth).
  { intros idx Hin. apply in_seq in Hin. destruct (Hsyms idx) as (es & He & _); [lia|].
    now exists es. }
  rewrite length_seq in Hlen. cbn [app] in Hload.
  (* the entry of relocation [idx] *)
  assert (Hentry : forall idx, (idx < n)%nat ->
            exists es, rel_symbol relplt dynsym idx = Some es /\
                       nth_error new idx = Some (plt_entry hdr st offset fl idx es) /\
                       addr (plt_entry hdr st offset fl idx es)
                       = P + (Z.of_nat idx + 1) * E /\
                       size (plt_entry hdr st offset fl idx es) = E).
  { intros idx Hi. destruct (Hnth idx idx) as (es & He & Hn).
    { rewrite nth_error_seq. destruct (Nat.ltb_spec idx n); [reflexivity|lia]. }
    exists es. split; [exact He|]. split; [exact Hn|].
    destruct (Hsyms idx Hi) as (es' & He' & Hv & Hf). rewrite He in He'.
    inversion He'; subst es'.
    unfold plt_entry. cbn [addr size]. rewrite Hv, Hf, Hfl. fold P E.
    rewrite Z.eqb_refl. cbn [negb]. split.
    - apply wrap64_small. nia.
    - apply wrap32_small. lia. }
  assert (Hstep : forall i a b, nth_error new i = Some a -> nth_error new (S i) = Some b ->
            disjoint_before a b).
  { intros i a b Ha Hb.
    assert (Hi : (S i < n)%nat) by (rewrite <- Hlen; apply nth_error_Some; congruence).
    destruct (Hentry i) as (es1 & _ & H1 & A1 & S1); [lia|].
    destruct (Hentry (S i) Hi) as (es2 & _ & H2 & A2 & _).
    rewrite Ha in H1. rewrite Hb in H2. inversion H1; inversion H2; subst a b.
    unfold disjoint_before. rewrite A1, A2, S1. rewrite Nat2Z.inj_succ. nia. }
  assert (Hinv : table_invariant new) by (apply sorted_of_consecutive; exact Hstep).
  assert (Hlt : Sorted addr_lt new).
  { eapply sorted_weaken; [|exact Hinv]. intros a b [H _]. exact H. }
  assert (Hbounds : Forall sym_in_bounds new).
  { apply Forall_forall. intros s Hs. apply In_nth_error in Hs as [i Hi].
    assert (Hin : (i < n)%nat) by (rewrite <- Hlen; apply nth_error_Some; congruence).
    destruct (Hentry i Hin) as (es & _ & H1 & A1 & S1). rewrite Hi in H1.
    inversion H1; subst s. unfold sym_in_bounds. rewrite A1, S1. split; [nia|lia]. }
  exists (sort_dynsymtab (mk_symtab new (sym_names d0) (name_sorted d0))).
  assert (Hsorted : syms (sort_dynsymtab (mk_symtab new (sym_names d0) (name_sorted d0)))
                    = new).
  { cbn [sort_dynsymtab syms]. now apply qsort_sorted_id. }
  split; [|split; [|split]].
  - unfold load_dynsymtab, adjust_offset. rewrite Hfl.
    destruct (Elf.e_shstrndx elf); [|contradiction].
    rewrite Hscan, Hdyn, Hrel. fold P.
    destruct (Z.eqb_spec P 0); [lia|].
    assert (Hrt : negb ((ps_rel_type st =? Elf.SHT_RELA) || (ps_rel_type st =? Elf.SHT_REL))
                  = false).
    { destruct Hty as [-> | ->]; reflexivity. }
    rewrite Hrt, Hdr, Hdd. cbn [negb]. fold n. rewrite Hd0, Hload.
    destruct (Nat.eqb_spec (List.length new) 0); [lia|reflexivity].
  - rewrite Hsorted. exact Hinv.
  - unfold nr_sym. rewrite Hsorted. exact Hlen.
  - intros idx delta Hi Hdelta.
    destruct (Hentry idx Hi) as (es & He & Hn & A1 & S1).
    rewrite Hsorted. split; [|split].
    + eapply bsearch_addrfind_find; [exact Hinv|exact Hbounds|exact Hn|].
      unfold in_range. rewrite A1, S1.
      rewrite wrap64_small by nia.
      apply andb_true_intro. split; [apply Z.leb_le; lia|apply Z.ltb_lt; lia].
    + cbn [sort_dynsymtab sym_names syms]. rewrite (qsort_sorted_id new Hlt).
      rewrite nth_error_map, nth_error_map, Hn. cbn [option_map resolve_slot].
      rewrite (find_pos_sorted new (addr_lt_strongly _ Hlt) idx _ 0%nat Hn).
      reflexivity.
    + exists es. split; [exact He|exact Hn].
Qed.

End PltAddresses.

(** ** Addresses inside a function *)

Lemma sorted_weaken_in {A} (R1 R2 : A -> A -> Prop) (l : list A) :
  (forall a b, In a l -> In b l -> R1 a b -> R2 a b) -> Sorted R1 l -> Sorted R2 l.
Proof.
  intros Hw Hs. induction Hs as [|x l Hs IH Hd]; constructor.
  - apply IH. intros a b Ha Hb. apply Hw; now right.
  - destruct Hd as [|y l Hxy]; constructor. apply Hw; [now left|right; now left|exact Hxy].
Qed.

Lemma sorted_le_nodup_lt (l : list sym) :
  Sorted addr_le l -> NoDup (map addr l) -> Sorted addr_lt l.
Proof.
  induction 1 as [|x l Hs IH Hd]; intros Hn; constructor.
  - apply IH. now inversion Hn.
  - destruct Hd as [|y l Hxy]; constructor. unfold addr_le, addr_lt in *.
    inversion Hn as [|? ? Hnotin _]; subst.
    assert (addr x <> addr y) by (intros E; apply Hnotin; left; now symmetry).
    lia.
Qed.

Lemma dedup_from_strict (fuel : nat) (l : list sym) :
  Sorted addr_lt l -> dedup_from fuel l = l.
Proof.
  revert l. induction fuel as [|fuel IH]; intros l Hs; cbn [dedup_from]; [reflexivity|].
  destruct l as [|c [|next rest]]; try reflexivity.
  inversion Hs as [|? ? Hs' Hd]; subst. inversion Hd as [|? ? Hlt]; subst.
  unfold addr_lt in Hlt. cbn [dedup_tail].
  destruct (Z.eqb_spec (addr c) (addr next)); [lia|].
  now rewrite (IH _ Hs').
Qed.

Lemma flat_map_nodup_addr (f : nat -> list sym) (l : list nat) :
  NoDup l -> (forall i, NoDup (map addr (f i))) ->
  (forall i j s s', i <> j -> In s (f i) -> In s' (f j) -> addr s <> addr s') ->
  NoDup (map addr (flat_map f l)).
Proof.
  intros Hl Hf Hd. induction Hl as [|i l Hnotin Hl IH]; cbn [flat_map map]; [constructor|].
  rewrite map_app. revert IH.
  generalize (Hf i).
  assert (Hsep : forall s, In s (f i) -> ~ In (addr s) (map addr (flat_map f l))).
  { intros s Hs Hin. apply in_map_iff in Hin as (s' & Ha & Hs').
    apply in_flat_map in Hs' as (j & Hj & Hs').
    assert (Hne : i <> j) by (intros ->; contradiction).
    apply (Hd i j s s' Hne Hs Hs'). now symmetry. }
  induction (f i) as [|s fi IHf]; cbn [map app]; intros Hn IH; [exact IH|].
  inversion Hn as [|? ? Hns Hn']; subst. constructor.
  - rewrite in_app_iff. intros [H|H]; [contradiction|].
    apply (Hsep s); [now left|exact H].
  - apply IHf; [|exact Hn'|exact IH]. intros s0 Hs0. apply Hsep. now right.
Qed.

Section FunctionAddresses.
Variable hdr : header.

Lemma entries_of_index_one (sec : Elf.Shdr) (offset fl : Z) (i : nat) (s s' : sym) :
  In s (entries_of_index hdr sec offset fl i) ->
  In s' (entries_of_index hdr sec offset fl i) -> s = s'.
Proof.
  unfold entries_of_index. destruct (Elf.gelf_getsym sec i) as [es|]; [|intros []].
  destruct (entry_of_symbol hdr offset fl es); [|intros []].
  intros [<-|[]] [<-|[]]. reflexivity.
Qed.

Lemma entries_of_index_bounds (sec : Elf.Shdr) (offset fl : Z) (i : nat) (s : sym) :
  In s (entries_of_index hdr sec offset fl i) -> sym_in_bounds s.
Proof.
  unfold entries_of_index, entry_of_symbol.
  destruct (Elf.gelf_getsym sec i) as [es|]; [|intros []].
  destruct (Elf.st_size es =? 0); [intros []|].
  destruct (negb (Elf.GELF_ST_TYPE (Elf.st_info es) =? Elf.STT_FUNC)); [intros []|].
  intros [<-|[]]. unfold sym_in_bounds. cbn [addr size]. split.
  - apply wrap64_range.
  - unfold wrap32. apply Z.mod_pos_bound. lia.
Qed.

(** X28.  In an image whose function symbols occupy ranges that do not
    overlap, [load_symtab] leaves a table with the invariant of the
    data model, and every address inside the range of a function symbol
    of the section it loads resolves by [bsearch] with [addrfind] to
    the entry made of that symbol. *)
Theorem function_address_resolves (t0 t : symtab) (elf : Elf.image)
    (offset fl offset' : Z) :
  load_symtab hdr t0 (Some (Some elf)) offset fl = (0, t) ->
  syms t0 = [] ->
  adjust_offset hdr elf offset fl = Some offset' ->
  (forall sec i j s s',
     In (Some sec) (Elf.e_scn elf) -> i <> j ->
     In s (entries_of_index hdr sec offset' fl i) ->
     In s' (entries_of_index hdr sec offset' fl j) ->
     disjoint_before s s' \/ disjoint_before s' s) ->
  table_invariant (syms t) /\
  exists sec,
    In (Some sec) (Elf.e_scn elf) /\
    (Elf.sh_name sec = ".symtab"%string \/
     Elf.sh_name sec = ".dynsym"%string /\
     forall s, In (Some s) (Elf.e_scn elf) -> Elf.sh_name s <> ".symtab"%string) /\
    forall i s a,
      (i < Elf.sh_nr sec)%nat -> In s (entries_of_index hdr sec offset' fl i) ->
      in_range a s = true ->
      exists k, Libc.bsearch addrfind a (syms t) = Some k /\
                nth_error (syms t) k = Some s.
Proof.
  unfold load_symtab. intros H Ht0 Hadj Hdis. rewrite Hadj in H.
  destruct (Elf.e_shstrndx elf); [|inversion H].
  destruct (scan_symtab (Elf.e_scn elf) None) as [[sym_sec dynsym_sec]|] eqn:Es;
    [|inversion H].
  pose proof (scan_symtab_choice _ _ _ _ Es) as Hc.
  destruct (match sym_sec with Some s => Some s | None => dynsym_sec end) as [sec|] eqn:Esec;
    [|inversion H].
  assert (Hsec : In (Some sec) (Elf.e_scn elf) /\
                 (Elf.sh_name sec = ".symtab"%string \/
                  Elf.sh_name sec = ".dynsym"%string /\
                  forall s, In (Some s) (Elf.e_scn elf) ->
                            Elf.sh_name s <> ".symtab"%string)).
  { destruct sym_sec as [s|].
    - inversion Esec; subst. split; [tauto|left; tauto].
    - destruct Hc as [Hno [->|(s & -> & Hin & Hn)]]; [discriminate|].
      inversion Esec; subst. split; [exact Hin|right; now split]. }
  destruct Hsec as [Hin Hname].
  destruct (negb (Elf.sh_data sec)); [inversion H|].
  destruct (load_entries hdr sec (seq 0 (Elf.sh_nr sec)) offset' fl (syms t0))
    as [ok tab] eqn:El.
  destruct ok; cbn [negb] in H; [|inversion H].
  apply load_entries_exact in El. rewrite Ht0 in El. cbn [app] in El. subst tab.
  set (new := flat_map (entries_of_index hdr sec offset' fl) (seq 0 (Elf.sh_nr sec))) in *.
  destruct (List.length new =? 0)%nat; [inversion H|].
  inversion H; subst t. clear H.
  (* where the entries come from *)
  assert (Hfrom : forall s, In s new ->
            exists i, (i < Elf.sh_nr sec)%nat /\
                      In s (entries_of_index hdr sec offset' fl i)).
  { intros s Hs. apply in_flat_map in Hs as (i & Hi & Hs). apply in_seq in Hi.
    exists i. split; [lia|exact Hs]. }
  assert (Hpair : forall x y, In x new -> In y new -> addr x < addr y ->
                              disjoint_before x y).
  { intros x y Hx Hy Hlt.
    destruct (Hfrom x Hx) as (i & _ & Hxi). destruct (Hfrom y Hy) as (j & _ & Hyj).
    destruct (Nat.eq_dec i j) as [->|Hne].
    - rewrite (entries_of_index_one _ _ _ _ _ _ Hxi Hyj) in Hlt. lia.
    - destruct (Hdis sec i j x y Hin Hne Hxi Hyj) as [Hd|[Hd _]]; [exact Hd|lia]. }
  assert (Hnodup : NoDup (map addr new)).
  { unfold new. apply flat_map_nodup_addr.
    - apply seq_NoDup.
    - intros i. unfold entries_of_index.
      destruct (Elf.gelf_getsym sec i) as [es|]; [|constructor].
      destruct (entry_of_symbol hdr offset' fl es); [|constructor].
      cbn [map]. constructor; [intros []|constructor].
    - intros i j s s' Hne Hs Hs'.
      destruct (Hdis sec i j s s' Hin Hne Hs Hs') as [[Hd _]|[Hd _]]; lia. }
  set (q := Libc.qsort addrsort new).
  assert (Hperm : Permutation q new) by apply LibcFacts.qsort_perm.
  assert (Hlt : Sorted addr_lt q).
  { apply sorted_le_nodup_lt; [apply qsort_addrsort_sorted|].
    eapply Permutation_NoDup; [|exact Hnodup].
    apply Permutation_map, Permutation_sym, Hperm. }
  assert (Hsyms : syms (finish_symtab new) = q).
  { unfold finish_symtab. cbn [syms]. fold q. rewrite remove_duplicates_live.
    now apply dedup_from_strict. }
  assert (Hinv : table_invariant q).
  { unfold table_invariant. eapply sorted_weaken_in; [|exact Hlt].
    intros a b Ha Hb Hab. apply Hpair; [| |exact Hab];
      eapply Permutation_in; eauto. }
  rewrite Hsyms. split; [exact Hinv|].
  exists sec. split; [exact Hin|]. split; [exact Hname|].
  intros i s a Hi Hs Hr.
  assert (Hsn : In s new).
  { apply in_flat_map. exists i. split; [apply in_seq; lia|exact Hs]. }
  assert (Hsq : In s q) by (eapply Permutation_in; [apply Permutation_sym, Hperm|exact Hsn]).
  apply In_nth_error in Hsq as [k Hk]. exists k. split; [|exact Hk].
  eapply bsearch_addrfind_find; [exact Hinv| |exact Hk|exact Hr].
  apply Forall_forall. intros x Hx.
  assert (Hxn : In x new) by (eapply Permutation_in; eauto).
  destruct (Hfrom x Hxn) as (j & _ & Hxj). eapply entries_of_index_bounds; eauto.
Qed.

End FunctionAddresses.

(** ** The further properties at concrete inputs *)

Lemma find_symname_loaded_witness :
  (exists k s, find_symname Ex.small_static "bar" = Some (Some (SymPtr k)) /\
               nth_error (syms Ex.small_static) k = Some s /\ name s = "bar"%string) \/
  (find_symname Ex.small_static "bar" = Some None /\
   forall s, In s (syms Ex.small_static) -> name s <> "bar"%string).
Proof.
  apply (find_symname_loaded Ex.x86_64 Ex.small_static "bar").
  left. exists empty_symtab, (Some (Some Ex.small_image)), 0, 0.
  vm_compute. reflexivity.
Defined.

Lemma find_symname_unsorted_witness :
  (exists k s,
     find_symname (dsymtab Ex.small_tabs) "puts" = Some (Some (SymPtr k)) /\
     nth_error (syms (dsymtab Ex.small_tabs)) k = Some s /\ name s = "puts"%string /\
     forall j s', (j < k)%nat -> nth_error (syms (dsymtab Ex.small_tabs)) j = Some s' ->
                  name s' <> "puts"%string) \/
  (find_symname (dsymtab Ex.small_tabs) "puts" = Some None /\
   forall s, In s (syms (dsymtab Ex.small_tabs)) -> name s <> "puts"%string).
Proof.
  apply (find_symname_unsorted (dsymtab Ex.small_tabs) "puts").
  vm_compute. reflexivity.
Defined.

Lemma small_tabs_slots_valid : slots_valid (dsymtab Ex.small_tabs).
Proof.
  split; [reflexivity|].
  change (Forall (fun p => exists k, p = SymPtr k /\ (k < 2)%nat) [SymPtr 1; SymPtr 0]).
  repeat constructor; eexists; (split; [reflexivity|lia]).
Defined.

Lemma dynsym_idxlist_membership_witness :
  exists l,
    build_dynsym_idxlist Ex.small_tabs ["exit"%string] = Some l /\
    count l = List.length (idx l) /\
    StronglySorted lt (idx l) /\
    (forall x, exists b,
       check_dynsym_idxlist l x = Some b /\
       (b = true <->
        exists p s, find_dynsym Ex.small_tabs x = Some (Some p) /\
                    deref (syms (dsymtab Ex.small_tabs)) p = Some s /\
                    In (name s) ["exit"%string])) /\
    (forall x, check_dynsym_idxlist (destroy_dynsym_idxlist l) x = Some false).
Proof.
  apply (dynsym_idxlist_membership Ex.small_tabs ["exit"%string]).
  exact small_tabs_slots_valid.
Defined.

Lemma load_module_symtabs_frame_witness :
  load_module_symtabs Ex.x86_64 Ex.libbar_files Ex.libbar_tabs ["libbar"%string]
    = Some (Done Ex.libbar_loaded) /\
  stab Ex.libbar_loaded = stab Ex.libbar_tabs /\
  map map_region (maps Ex.libbar_loaded) = map map_region (maps Ex.libbar_tabs).
Proof.
  assert (H : load_module_symtabs Ex.x86_64 Ex.libbar_files Ex.libbar_tabs
                ["libbar"%string] = Some (Done Ex.libbar_loaded))
    by (vm_compute; reflexivity).
  split; [exact H|].
  destruct (proj2 (load_module_symtabs_frame Ex.x86_64 Ex.libbar_files Ex.libbar_tabs
                     Ex.libbar_loaded ["libbar"%string]) H)
    as (_ & _ & H3 & _ & _ & H6 & _).
  split; assumption.
Defined.

Lemma save_module_symtabs_keeps_files_witness :
  fs_text Ex.libfoo_saved "(null)/libfoo.so.sym" <> None.
Proof.
  assert (H : save_module_symtabs Ex.no_files Ex.libfoo_tabs ["libfoo"%string]
              = Done Ex.libfoo_saved) by (vm_compute; reflexivity).
  destruct (save_module_symtabs_keeps_files Ex.libfoo_tabs ["libfoo"%string]
              Ex.no_files Ex.libfoo_saved H) as (_ & _ & _ & H4).
  apply (H4 "libfoo"%string 0%nat Ex.libfoo_map); [now left|].
  vm_compute. reflexivity.
Defined.

Lemma find_symtabs_sound_witness :
  exists s, symref_get empty_symtabs Ex.libbar_loaded (MapSym 0 0) = Some s /\
            in_range 0x7105 s = true.
Proof.
  apply (find_symtabs_sound Ex.x86_64 Ex.libbar_files empty_symtabs Ex.libbar_tabs
           Ex.libbar_loaded 0x7105 (MapSym 0 0)).
  vm_compute. reflexivity.
Defined.

Lemma find_symtabs_frame_witness :
  stab Ex.libbar_loaded = stab Ex.libbar_tabs /\
  map map_region (maps Ex.libbar_loaded) = map map_region (maps Ex.libbar_tabs).
Proof.
  assert (H : find_symtabs Ex.x86_64 Ex.libbar_files empty_symtabs Ex.libbar_tabs 0x7105
              = Some (Some (MapSym 0 0), Ex.libbar_loaded)) by (vm_compute; reflexivity).
  destruct (find_symtabs_frame Ex.x86_64 _ _ _ _ _ _ H) as (_ & _ & H3 & _ & _ & H6 & _).
  split; assumption.
Defined.

Lemma preload_is_lazy_load_witness :
  exists tabs1,
    load_module_symtabs Ex.x86_64 Ex.libbar_files Ex.libbar_tabs ["libbar"%string]
      = Some (Done tabs1) /\
    find_symtabs Ex.x86_64 Ex.libbar_files empty_symtabs Ex.libbar_tabs 0x7105
      = Some (Some (MapSym 0 0), tabs1) /\
    find_symtabs Ex.x86_64 Ex.libbar_files empty_symtabs tabs1 0x7105
      = Some (Some (MapSym 0 0), tabs1).
Proof.
  apply (preload_is_lazy_load Ex.x86_64 Ex.libbar_files empty_symtabs Ex.libbar_tabs
           "libbar" 0x7105 0 Ex.libbar_map Ex.libbar_table).
  - reflexivity.
  - reflexivity.
  - reflexivity.
  - vm_compute. reflexivity.
  - vm_compute. reflexivity.
  - vm_compute. reflexivity.
  - reflexivity.
  - vm_compute. reflexivity.
  - vm_compute. lia.
Defined.

Lemma kernel_address_canonical_witness :
  get_real_address Ex.x86_64 Ex.kernel_addr = 0xffff800000001000 /\
  find_symtabs Ex.x86_64 Ex.no_files Ex.kernel_tabs Ex.foo_bar
    (get_real_address Ex.x86_64 Ex.kernel_addr)
  = find_symtabs Ex.x86_64 Ex.no_files Ex.kernel_tabs Ex.foo_bar Ex.kernel_addr.
Proof.
  split; [vm_compute; reflexivity|].
  apply (proj2 (proj2 (kernel_address_canonical Ex.x86_64 Ex.no_files Ex.kernel_tabs
                         Ex.foo_bar Ex.kernel_addr))); vm_compute; reflexivity.
Defined.

Lemma load_kernel_symbol_table_witness :
  (load_kernel_symbol Ex.x86_64 Ex.no_files empty_symtabs = Some (-1, empty_symtabs) /\
   get_kernel_symtab empty_symtabs = None) /\
  map triple (syms (stab Ex.kernel_tabs))
    = [(0xffffffff81200000, ST_KERNEL, "sys_read"%string);
       (0xffffffff81200040, ST_KERNEL, "sys_write"%string)] /\
  Forall (fun s => type s = ST_KERNEL) (syms (stab Ex.kernel_tabs)) /\
  load_kernel_symbol Ex.x86_64 Ex.no_files Ex.kernel_tabs = Some (0, Ex.kernel_tabs).
Proof.
  split.
  { apply (proj1 (load_kernel_symbol_table Ex.x86_64 Ex.no_files empty_symtabs));
      reflexivity. }
  split; [vm_compute; reflexivity|].
  assert (H : load_kernel_symbol Ex.x86_64 Ex.kallsyms_files empty_symtabs
              = Some (0, Ex.kernel_tabs)) by (vm_compute; reflexivity).
  destruct (proj2 (load_kernel_symbol_table Ex.x86_64 Ex.kallsyms_files empty_symtabs) _ _ H)
    as [(_ & _ & _ & H4 & H5)|(E & _)]; [|discriminate E].
  split; [apply H4; reflexivity|apply H5].
Defined.

Lemma load_symtab_entries_witness :
  exists sec offset',
    In (Some sec) (Elf.e_scn Ex.small_image) /\
    (Elf.sh_name sec = ".symtab"%string \/
     Elf.sh_name sec = ".dynsym"%string /\
     forall s, In (Some s) (Elf.e_scn Ex.small_image) ->
               Elf.sh_name s <> ".symtab"%string) /\
    adjust_offset Ex.x86_64 Ex.small_image 0 0 = Some offset' /\
    (forall s, In s (syms Ex.small_static) ->
       exists i es, (i < Elf.sh_nr sec)%nat /\ Elf.gelf_getsym sec i = Some es /\
                    entry_of_symbol Ex.x86_64 offset' 0 es = Some s) /\
    (forall i es s, (i < Elf.sh_nr sec)%nat -> Elf.gelf_getsym sec i = Some es ->
       entry_of_symbol Ex.x86_64 offset' 0 es = Some s ->
       exists s', In s' (syms Ex.small_static) /\ addr s' = addr s).
Proof.
  apply (load_symtab_entries Ex.x86_64 empty_symtab Ex.small_static Ex.small_image 0 0).
  - vm_compute. reflexivity.
  - reflexivity.
Defined.

Lemma sort_dynsymtab_keeps_index_witness :
  exists k,
    find_dynsym (with_dsymtab empty_symtabs (sort_dynsymtab Ex.plt_unsorted)) 0
      = Some (Some (SymPtr k)) /\
    nth_error (syms (sort_dynsymtab Ex.plt_unsorted)) k = Some Ex.puts_plt.
Proof.
  destruct (sort_dynsymtab_keeps_index
              (with_dsymtab empty_symtabs (sort_dynsymtab Ex.plt_unsorted))
              Ex.plt_unsorted eq_refl) as (_ & _ & _ & H).
  apply (H ltac:(vm_compute; repeat constructor; simpl; intuition lia) 0%nat Ex.puts_plt).
  reflexivity.
Defined.

Lemma load_dynsymtab_all_or_nothing_witness :
  syms (dsymtab Ex.small_tabs) = [] \/
  Sorted addr_le (syms (dsymtab Ex.small_tabs)) /\
  exists sz, Forall (fun s => type s = ST_PLT /\ size s = sz) (syms (dsymtab Ex.small_tabs)).
Proof.
  assert (H : load_dynsymtab Ex.x86_64 empty_symtab (Some (Some Ex.small_image)) 0 0
              = Some (0, dsymtab Ex.small_tabs)) by (vm_compute; reflexivity).
  destruct (load_dynsymtab_all_or_nothing Ex.x86_64 _ _ _ _ _ _ H) as [[E _]|[_ G]];
    [discriminate E|].
  right. apply G. reflexivity.
Defined.

Lemma cache_reader_total_witness :
  ((exists tabs', load_symbol_file Ex.x86_64 Ex.kallsyms_files empty_symtabs
                    "/proc/kallsyms" 0 = Some (0, tabs')) /\
   (exists tab', load_module_symbol Ex.x86_64 Ex.kallsyms_files empty_symtab
                   "/proc/kallsyms" 0 = Some (0, tab'))) /\
  (load_symbol_file Ex.x86_64 Ex.cut_files empty_symtabs "cache/app.sym" 0 = None /\
   load_module_symbol Ex.x86_64 Ex.cut_files empty_symtab "cache/app.sym" 0 = None).
Proof.
  assert (Hlines : Libc.getlines Ex.kallsyms
                   = [(Ex.SyS_read_line ++ Ex.newline)%string;
                      (Ex.sys_read_line ++ Ex.newline)%string;
                      ("ffffffff81200040 T sys_write" ++ Ex.newline)%string])
    by (vm_compute; reflexivity).
  split.
  - apply (proj1 (cache_reader_total Ex.x86_64 Ex.kallsyms_files empty_symtabs empty_symtab
                    "/proc/kallsyms" Ex.kallsyms 0 eq_refl)).
    + intros l Hl. rewrite Hlines in Hl.
      destruct Hl as [<-|[<-|[<-|[]]]]; vm_compute; discriminate.
    + intros l nm Hl. rewrite Hlines in Hl.
      destruct Hl as [<-|[<-|[<-|[]]]]; vm_compute; discriminate.
  - destruct (proj2 (proj2 (cache_reader_total Ex.x86_64 Ex.cut_files empty_symtabs
                              empty_symtab "cache/app.sym" Ex.cut_cache 0 eq_refl))
                "0000000000002000 "%string) as (H1 & H2 & _).
    + vm_compute. right. left. reflexivity.
    + vm_compute. reflexivity.
    + split; [exact H1|exact H2].
Defined.

Lemma libfoo_entries_ok : Forall static_entry_ok (syms (map_symtab Ex.libfoo_map)).
Proof.
  change (Forall static_entry_ok [mk_sym 0x1030 0x10 ST_GLOBAL "foo_helper"]).
  repeat constructor; try (simpl; lia); try (vm_compute; discriminate); try reflexivity.
Defined.

Lemma module_cache_round_trip_witness :
  exists fs' tab',
    save_module_symbol Ex.no_files (map_symtab Ex.libfoo_map) "cache/libfoo.so.sym" 0x1000
      = Done fs' /\
    load_module_symbol Ex.x86_64 fs' empty_symtab "cache/libfoo.so.sym" 0x1000
      = Some (0, tab') /\
    Permutation (map triple (syms tab'))
      [(0x1030, ST_GLOBAL, "foo_helper"%string); (0x1040, ST_GLOBAL, "__sym_end"%string)].
Proof.
  apply (module_cache_round_trip Ex.x86_64 Ex.no_files (map_symtab Ex.libfoo_map)
           empty_symtab "cache/libfoo.so.sym" 0x1000).
  - exact libfoo_entries_ok.
  - reflexivity.
  - reflexivity.
  - reflexivity.
Defined.

Lemma foo_bar_entries_ok : Forall static_entry_ok (syms (stab Ex.foo_bar)).
Proof.
  change (Forall static_entry_ok [Ex.foo; Ex.bar]).
  repeat constructor; try (simpl; lia); try (vm_compute; discriminate); try reflexivity.
Defined.

Lemma module_cache_keeps_lookup_witness :
  exists fs' tab',
    save_module_symbol Ex.no_files (stab Ex.foo_bar) "cache/app.sym" 0 = Done fs' /\
    load_module_symbol Ex.x86_64 fs' empty_symtab "cache/app.sym" 0 = Some (0, tab') /\
    table_invariant (syms tab') /\
    (forall i s a,
       nth_error (syms (stab Ex.foo_bar)) i = Some s -> in_range a s = true ->
       Libc.bsearch addrfind a (syms tab') = Some i /\
       exists s', nth_error (syms tab') i = Some s' /\
                  triple s' = reread_triple Ex.x86_64 s) /\
    (forall i s b a,
       nth_error (syms (stab Ex.foo_bar)) i = Some s ->
       nth_error (syms (stab Ex.foo_bar)) (S i) = Some b ->
       addr s <= a < addr b ->
       Libc.bsearch addrfind a (syms tab') = Some i).
Proof.
  apply (module_cache_keeps_lookup Ex.x86_64 Ex.no_files (stab Ex.foo_bar) empty_symtab
           "cache/app.sym" 0).
  - exact foo_bar_entries_ok.
  - change (Forall sym_in_bounds [Ex.foo; Ex.bar]). repeat constructor; simpl; lia.
  - change (Forall (fun s => 0 < size s) [Ex.foo; Ex.bar]). repeat constructor.
  - change (table_invariant [Ex.foo; Ex.bar]). repeat constructor; simpl; lia.
  - change (Sorted near_before [Ex.foo; Ex.bar]). repeat constructor.
  - intros s H. change (Some Ex.bar = Some s) in H. inversion H. vm_compute. reflexivity.
  - reflexivity.
  - reflexivity.
Defined.

Lemma load_symtabs_once_witness :
  loaded Ex.small_tabs = true /\
  load_symtabs Ex.x86_64 Ex.no_files Ex.small_tabs (Some "cache"%string) "/bin/other"
    = Some Ex.small_tabs.
Proof.
  assert (H : load_symtabs Ex.x86_64 (Ex.app_files Ex.small_image) empty_symtabs None
                "/bin/app" = Some Ex.small_tabs) by (vm_compute; reflexivity).
  destruct (load_symtabs_once Ex.x86_64 _ _ _ _ _ H) as (H1 & _ & _ & H4).
  split; [exact H1|apply H4].
Defined.

Lemma cache_line_matches_elf_address_witness :
  read_line Ex.x86_64 true 0x7f0000000000 (reader_init [] [])
    (fmt_line (0x401100 - 0x400000) ST_GLOBAL "main")
  = Some (mk_reader [mk_sym 0x7f0000001100 0 ST_GLOBAL "main"] [] InStab 0x1100 ST_GLOBAL).
Proof.
  apply (cache_line_matches_elf_address Ex.x86_64 Ex.shifted_image 0 4 0x7f0000000000
           (wrap64 (0x7f0000000000 - 0x400000)) Ex.main_at_400000
           (mk_sym 0x401100 64 ST_GLOBAL "main") (mk_sym 0x7f0000001100 64 ST_GLOBAL "main")
           true).
  - reflexivity.
  - lia.
  - vm_compute. reflexivity.
  - vm_compute. reflexivity.
  - vm_compute. reflexivity.
  - split; vm_compute; discriminate.
  - vm_compute. discriminate.
  - repeat split.
Defined.

Lemma unload_symtabs_empties_witness :
  find_dynsym (unload_symtabs Ex.small_tabs) 0 = Some None /\
  find_symtabs Ex.x86_64 Ex.no_files empty_symtabs (unload_symtabs Ex.small_tabs) 0x1005
    = Some (None, unload_symtabs Ex.small_tabs).
Proof.
  destruct (unload_symtabs_empties Ex.x86_64 Ex.no_files empty_symtabs Ex.small_tabs
              0%nat "foo" 0x1005) as (_ & _ & _ & H4 & _ & _ & H7).
  split; [exact H4|]. apply H7; reflexivity.
Defined.

Lemma symbol_getname_placeholder_witness :
  symbol_getname None 0x1234 = "<1234>"%string /\
  Libc.strtoul16 (Libc.drop 1 (symbol_getname None 0x1234)) = (0x1234, ">"%string).
Proof.
  split; [vm_compute; reflexivity|].
  apply (proj1 (proj2 (symbol_getname_placeholder 0x1234 0x5678 Ex.foo
                         ltac:(lia) ltac:(lia)))).
Defined.

Lemma name_index_invariant_witness :
  name_sorted Ex.small_static = true /\ slots_valid Ex.small_static /\
  exists q, sym_names Ex.small_static = map SymPtr q /\
            Permutation q (seq 0 (nr_sym Ex.small_static)) /\
            StronglySorted (name_le (syms Ex.small_static)) q.
Proof.
  apply (name_index_invariant Ex.x86_64 Ex.small_static).
  left. exists empty_symtab, (Some (Some Ex.small_image)), 0, 0.
  vm_compute. reflexivity.
Defined.

Lemma find_symtabs_in_module_witness :
  find_symtabs Ex.x86_64 Ex.no_files empty_symtabs Ex.libfoo_tabs 0x1035
    = Some (Some (MapSym 0 0), Ex.libfoo_tabs).
Proof.
  apply (find_symtabs_in_module Ex.x86_64 Ex.no_files empty_symtabs Ex.libfoo_tabs 0x1035
           0 0 Ex.libfoo_map (mk_sym 0x1030 0x10 ST_GLOBAL "foo_helper")).
  - reflexivity.
  - reflexivity.
  - reflexivity.
  - reflexivity.
  - repeat constructor.
  - repeat constructor; simpl; lia.
  - reflexivity.
  - reflexivity.
Defined.

Lemma kernel_lookup_type_witness :
  exists s, symref_get Ex.kernel_tabs Ex.foo_bar (KernelSym 0) = Some s /\
            type s = ST_KERNEL /\
            in_range (get_real_address Ex.x86_64 0xffffffff81200010) s = true.
Proof.
  apply (kernel_lookup_type Ex.x86_64 Ex.kallsyms_files Ex.no_files empty_symtabs
           Ex.kernel_tabs Ex.foo_bar Ex.foo_bar 0xffffffff81200010 (KernelSym 0)).
  - reflexivity.
  - vm_compute. reflexivity.
  - vm_compute. reflexivity.
  - vm_compute. reflexivity.
Defined.

Lemma load_symtab_names_unversioned_witness :
  map name (syms (snd (load_symtab Ex.x86_64 empty_symtab
                         (Some (Some Ex.versioned_image)) 0 0))) = ["memcpy"%string] /\
  Forall (fun s => Libc.strchr (name s) "@" = None)
    (syms (snd (load_symtab Ex.x86_64 empty_symtab (Some (Some Ex.versioned_image)) 0 0))).
Proof.
  split; [vm_compute; reflexivity|].
  apply (load_symtab_names_unversioned Ex.x86_64 empty_symtab _
           (Some (Some Ex.versioned_image)) 0 0).
  - vm_compute. reflexivity.
  - reflexivity.
  - reflexivity.
Defined.

Lemma load_symbol_file_routes_by_type_witness :
  map triple (syms (stab Ex.nul_typed_tabs))
    = [(0x1000, ST_GLOBAL, "main"%string);
       (0x2000, Libc.NUL, ("helper" ++ Ex.newline)%string)] /\
  map triple (syms (dsymtab Ex.nul_typed_tabs)) = [(0x1400, ST_PLT, "puts"%string)] /\
  Forall (fun s => In (type s) [ST_GLOBAL; ST_LOCAL; ST_WEAK; ST_KERNEL; Libc.NUL])
         (syms (stab Ex.nul_typed_tabs)) /\
  Forall (fun s => type s = ST_PLT) (syms (dsymtab Ex.nul_typed_tabs)).
Proof.
  split; [vm_compute; reflexivity|]. split; [vm_compute; reflexivity|].
  apply (load_symbol_file_routes_by_type Ex.x86_64 Ex.nul_typed_files empty_symtabs
           Ex.nul_typed_tabs "cache/app.sym" 0 0).
  - vm_compute. reflexivity.
  - reflexivity.
  - reflexivity.
Defined.

Lemma plt_address_resolves_witness :
  exists d,
    load_dynsymtab Ex.x86_64 empty_symtab (Some (Some Ex.lazy_plt)) 0 0 = Some (0, d) /\
    table_invariant (syms d) /\ nr_sym d = 2%nat /\
    forall idx delta, (idx < 2)%nat -> 0 <= delta < 16 ->
      Libc.bsearch addrfind (0x400 + (Z.of_nat idx + 1) * 16 + delta) (syms d) = Some idx /\
      nth_error (sym_names d) idx = Some (SymPtr idx) /\
      exists es, rel_symbol Ex.lazy_relplt Ex.lazy_dynsym idx = Some es /\
                 nth_error (syms d) idx = Some (plt_entry Ex.x86_64 Ex.lazy_plt_scan 0 0 idx es).
Proof.
  apply (plt_address_resolves Ex.x86_64 Ex.lazy_plt Ex.lazy_plt_scan
           Ex.lazy_dynsym Ex.lazy_relplt empty_symtab 0 0).
  - reflexivity.
  - discriminate.
  - vm_compute. reflexivity.
  - reflexivity.
  - reflexivity.
  - left. reflexivity.
  - reflexivity.
  - reflexivity.
  - reflexivity.
  - reflexivity.
  - cbn. lia.
  - cbn. lia.
  - vm_compute. reflexivity.
  - intros [|[|idx]] Hidx.
    + eexists. split; [vm_compute; reflexivity|]. split; reflexivity.
    + eexists. split; [vm_compute; reflexivity|]. split; reflexivity.
    + cbn in Hidx. lia.
Defined.

Lemma function_address_resolves_witness :
  table_invariant (syms Ex.small_static) /\
  exists sec,
    In (Some sec) (Elf.e_scn Ex.small_image) /\
    (Elf.sh_name sec = ".symtab"%string \/
     Elf.sh_name sec = ".dynsym"%string /\
     forall s, In (Some s) (Elf.e_scn Ex.small_image) ->
               Elf.sh_name s <> ".symtab"%string) /\
    forall i s a,
      (i < Elf.sh_nr sec)%nat -> In s (entries_of_index Ex.x86_64 sec 0 0 i) ->
      in_range a s = true ->
      exists k, Libc.bsearch addrfind a (syms Ex.small_static) = Some k /\
                nth_error (syms Ex.small_static) k = Some s.
Proof.
  apply (function_address_resolves Ex.x86_64 empty_symtab Ex.small_static Ex.small_image
           0 0 0).
  - vm_compute. reflexivity.
  - reflexivity.
  - vm_compute. reflexivity.
  - intros sec i j s s' Hsec Hne Hs Hs'.
    destruct Hsec as [E|[E|[E|[E|[]]]]]; injection E as <-;
      destruct i as [|[|[|[|i]]]]; cbv in Hs; try contradiction;
      destruct j as [|[|[|[|j]]]]; cbv in Hs'; try contradiction;
      try (exfalso; apply Hne; reflexivity);
      destruct Hs as [<-|[]]; destruct Hs' as [<-|[]]; vm_compute;
      first [left; split; [reflexivity|discriminate]
            |right; split; [reflexivity|discriminate]].
Defined.
